(** * Stock ledger and serial-number allocation of the inventory tracker

    A shallow embedding of the ledger calculator ([calculateStock]), the
    serial allocator ([suggestNextSerial], [parseSerialRange]), the
    item/transaction store handlers of the application, its two forms
    (creation of an item, transactions and edits of the detail view), the
    search and the export of the inventory, followed by their properties.

    Conventions of the embedding.
    - A JavaScript string is a list of code units, here [list ascii]
      (7-bit ASCII text; upper-casing and white space of other scripts are
      outside the model).  The texts of alerts and headers are kept as
      their UTF-8 bytes.
    - The numbers that the serial allocator and the code proposal read
      out of free text are doubles, [Number.t], with their rounding from
      2^53 on.  A quantity or a stock is a [Z]: the ledger is modelled on
      integers, which is exact up to 2^53 units.
    - A thrown [Error] is the [Error] constructor of [result]; a call
      whose loop never ends is [Diverges].
    - [Date.now], [Math.random] and [new Date()] are inputs: the handlers
      take the generated identifiers and time stamps as arguments.
    - React state is passed explicitly: a handler takes the current
      [items] and returns the next ones. *)

From Stdlib Require Import String Ascii ZArith Lia Bool Arith List.
Import ListNotations.

Set Implicit Arguments.

(* ================================================================= *)
(** ** JavaScript strings and numbers *)

Module JS.

Definition str := list ascii.

(** String literals are written [L"..."]. *)
Definition lit (s : string) : str := list_ascii_of_string s.
Notation "'L' s" := (lit s%string) (at level 1, s at level 0, format "'L' s").

Definition code (c : ascii) : nat := nat_of_ascii c.

Definition inRange (lo hi : nat) (c : ascii) : bool :=
  ((lo <=? code c) && (code c <=? hi))%nat.

(** [\d] *)
Definition isDigit (c : ascii) : bool := inRange 48 57 c.

(** [[a-zA-Z]] *)
Definition isLetter (c : ascii) : bool := inRange 97 122 c || inRange 65 90 c.

(** Line terminators, which [.] does not match. *)
Definition isLineTerminator (c : ascii) : bool :=
  (code c =? 10)%nat || (code c =? 13)%nat.

(** [.] *)
Definition isDot (c : ascii) : bool := negb (isLineTerminator c).

(** [\s], and the characters removed by [trim]. *)
Definition isWhiteSpace (c : ascii) : bool :=
  inRange 9 13 c || (code c =? 32)%nat.

Definition isTilde (c : ascii) : bool := (code c =? 126)%nat.

Definition toUpperChar (c : ascii) : ascii :=
  if inRange 97 122 c then ascii_of_nat (code c - 32) else c.

(** [String.prototype.toUpperCase] *)
Definition toUpperCase (s : str) : str := map toUpperChar s.

Definition toLowerChar (c : ascii) : ascii :=
  if inRange 65 90 c then ascii_of_nat (code c + 32) else c.

(** [String.prototype.toLowerCase] *)
Definition toLowerCase (s : str) : str := map toLowerChar s.

Fixpoint dropWhile (p : ascii -> bool) (s : str) : str :=
  match s with
  | [] => []
  | c :: s' => if p c then dropWhile p s' else s
  end.

Fixpoint takeWhile (p : ascii -> bool) (s : str) : str :=
  match s with
  | [] => []
  | c :: s' => if p c then c :: takeWhile p s' else []
  end.

(** [String.prototype.trim] *)
Definition trim (s : str) : str :=
  rev (dropWhile isWhiteSpace (rev (dropWhile isWhiteSpace s))).

Fixpoint eqb (s t : str) : bool :=
  match s, t with
  | [], [] => true
  | a :: s', b :: t' => Ascii.eqb a b && eqb s' t'
  | _, _ => false
  end.

Fixpoint startsWith (s needle : str) : bool :=
  match needle, s with
  | [], _ => true
  | b :: needle', a :: s' => Ascii.eqb a b && startsWith s' needle'
  | _ :: _, [] => false
  end.

(** [String.prototype.includes]: the needle occurs in [s]; the empty
    needle occurs in every string. *)
Fixpoint includesStr (s needle : str) : bool :=
  startsWith s needle ||
  match s with
  | [] => false
  | _ :: s' => includesStr s' needle
  end.

(** [Array.prototype.includes] on an array of strings *)
Definition includes (l : list str) (s : str) : bool := existsb (eqb s) l.

(** [String.prototype.includes] with a one-character needle *)
Definition includesChar (s : str) (p : ascii -> bool) : bool := existsb p s.

(** Truthiness of a string: only the empty string is falsy. *)
Definition truthy (s : str) : bool :=
  match s with [] => false | _ => true end.

(** [Array.from(new Set(l))]: the first occurrence of each string, in
    order. *)
Fixpoint uniq_acc (seen : list str) (l : list str) : list str :=
  match l with
  | [] => []
  | s :: l' => if includes seen s then uniq_acc seen l'
               else s :: uniq_acc (s :: seen) l'
  end.

Definition uniq (l : list str) : list str := uniq_acc [] l.

(** *** Numbers *)

Local Open Scope Z_scope.

Definition digitVal (c : ascii) : Z := Z.of_nat (code c) - 48.

Definition digitsValue (ds : str) : Z :=
  fold_left (fun acc c => acc * 10 + digitVal c) ds 0.

(** [parseInt(s, 10)], as an integer: leading white space is skipped, a
    sign is read, and the longest run of digits is converted; [None] stands
    for [NaN].  [Number.parseInt] below is its value as a double. *)
Definition parseInt (s : str) : option Z :=
  let s1 := dropWhile isWhiteSpace s in
  let '(sign, s2) :=
    match s1 with
    | c :: r => if (code c =? 45)%nat then (-1, r)
                else if (code c =? 43)%nat then (1, r) else (1, s1)
    | [] => (1, s1)
    end in
  match takeWhile isDigit s2 with
  | [] => None
  | ds => Some (sign * digitsValue ds)
  end.

(** [x || 0] on the result of [parseInt]: [NaN] and [0] are falsy. *)
Definition orZero (x : option Z) : Z :=
  match x with Some n => n | None => 0 end.

Definition digitChar (d : Z) : ascii := ascii_of_nat (48 + Z.to_nat d).

(** The decimal digits of a non-negative integer, most significant first;
    [fuel] bounds the number of digits. *)
Fixpoint digitsOf (fuel : nat) (n : Z) (acc : str) : str :=
  match fuel with
  | O => acc
  | S f =>
      let acc' := digitChar (n mod 10) :: acc in
      if n / 10 =? 0 then acc' else digitsOf f (n / 10) acc'
  end.

(** [Number.prototype.toString] on an integer *)
Definition toString (n : Z) : str :=
  if n <? 0 then ascii_of_nat 45 :: digitsOf (S (Z.to_nat (Z.log2 (- n)))) (- n) []
  else digitsOf (S (Z.to_nat (Z.log2 n))) n [].

(** [String.prototype.padStart] with a one-character filler *)
Definition padStart (s : str) (targetLength : nat) (fill : ascii) : str :=
  repeat fill (targetLength - length s) ++ s.

(** The digit zero *)
Definition char0 : ascii := ascii_of_nat 48.

End JS.

Import JS.

(* ================================================================= *)
(** ** Numbers read from free text: doubles *)

(** The serial suggestion, the range expansion and the code proposal read
    their numbers out of serials and codes, runs of digits of any length,
    and hold them in IEEE 754 doubles.  [Number.t] is the doubles these
    computations meet: the integers that a double represents, the
    infinities and NaN.  Up to 2^53 every integer is a double; beyond, a
    double keeps 53 leading bits. *)
Module Number.

Local Open Scope Z_scope.

Inductive t : Type :=
| Fin (z : Z)
| Inf (negative : bool)
| NaN.

(** The double nearest to an integer [z] above 2^53.  With [q] the 53
    leading bits of [z] and [r] the bits that follow, [z = q * u + r], the
    result is [q * u] or [(q + 1) * u], whichever is nearer, and the one
    with the even multiplier when [z] is half way. *)
Definition round (z : Z) : Z :=
  let u := 2 ^ (Z.log2 z - 52) in
  let q := z / u in
  let r := z mod u in
  if 2 * r <? u then q * u
  else if u <? 2 * r then (q + 1) * u
  else if Z.even q then q * u else (q + 1) * u.

(** The double of an integer: the integer itself up to 2^53, its rounding
    beyond, and an infinity from 2^1024 on. *)
Definition ofZ (z : Z) : t :=
  if Z.abs z <=? 2 ^ 53 then Fin z
  else
    let m := round (Z.abs z) in
    if m <? 2 ^ 1024 then Fin (Z.sgn z * m) else Inf (z <? 0).

(** [parseInt(s, 10)] as a double: the integer read, rounded *)
Definition parseInt (s : str) : t :=
  match JS.parseInt s with
  | Some z => ofZ z
  | None => NaN
  end.

Definition isNaN (a : t) : bool :=
  match a with NaN => true | _ => false end.

Definition opp (a : t) : t :=
  match a with
  | Fin z => Fin (- z)
  | Inf negative => Inf (negb negative)
  | NaN => NaN
  end.

(** [a + b]: the exact sum, rounded. *)
Definition add (a b : t) : t :=
  match a, b with
  | Fin x, Fin y => ofZ (x + y)
  | NaN, _ | _, NaN => NaN
  | Inf s, Inf s' => if Bool.eqb s s' then Inf s else NaN
  | Inf s, Fin _ | Fin _, Inf s => Inf s
  end.

(** [a - b] *)
Definition sub (a b : t) : t := add a (opp b).

(** [a < b]; a comparison with NaN is false. *)
Definition ltb (a b : t) : bool :=
  match a, b with
  | Fin x, Fin y => x <? y
  | Fin _, Inf negative => negb negative
  | Inf negative, Fin _ => negative
  | Inf s, Inf s' => s && negb s'
  | _, _ => false
  end.

(** [a > b] *)
Definition gtb (a b : t) : bool := ltb b a.

(** [a <= b] *)
Definition leb (a b : t) : bool :=
  match a, b with
  | NaN, _ | _, NaN => false
  | _, _ => negb (ltb b a)
  end.

(** [a >= b] *)
Definition geb (a b : t) : bool := leb b a.

(** Whether the decimal numeral [c] is read as the double [z]. *)
Definition readsAs (c z : Z) : bool :=
  match ofZ c with
  | Fin m => m =? z
  | _ => false
  end.

(** The digits that [toString] writes for a double [z] of [d] digits,
    beyond 2^53: the number [s] of the fewest digits [k] such that [s]
    followed by zeros up to [n] digits is read back as [z], and [n].  For
    [k = 1, 2, ...] the two numbers of [k] digits that enclose the [k]
    leading digits of [z] are tried; when both are read back as [z] the
    nearer one is taken, the even one when they are as near.  The [d]
    digits of [z] itself are read back as [z]: [fuel] is [d]. *)
Fixpoint shortest (fuel k d : nat) (z : Z) : Z * nat :=
  match fuel with
  | O => (z, d)
  | S fuel' =>
      let p := 10 ^ Z.of_nat (d - k) in
      let lo := z / p in
      let hi := lo + 1 in
      let found :=
        match readsAs (lo * p) z, readsAs (hi * p) z with
        | true, true =>
            let below := z - lo * p in
            let above := hi * p - z in
            if below <? above then Some lo
            else if above <? below then Some hi
            else if Z.even lo then Some lo else Some hi
        | true, false => Some lo
        | false, true => Some hi
        | false, false => None
        end in
      match found with
      | Some s => if s =? 10 ^ Z.of_nat k then (1, S d) else (s, d)
      | None => shortest fuel' (S k) d z
      end
  end.

(** [Number.prototype.toString] on a double that is not negative: all the
    digits of an integer up to 2^53; beyond, the digits of [shortest]
    followed by zeros, and the exponent notation from 10^21 on. *)
Definition toStringPos (z : Z) : str :=
  if z <=? 2 ^ 53 then JS.toString z
  else
    let d := length (JS.toString z) in
    let '(s, n) := shortest d 1 d z in
    let digits := JS.toString s in
    if (n <=? 21)%nat then digits ++ repeat char0 (n - length digits)
    else
      match digits with
      | [] => []
      | c :: [] => c :: L"e+" ++ JS.toString (Z.of_nat (n - 1))
      | c :: rest => c :: L"." ++ rest ++ L"e+" ++ JS.toString (Z.of_nat (n - 1))
      end.

(** [Number.prototype.toString] *)
Definition toString (a : t) : str :=
  match a with
  | Fin z => if z <? 0 then L"-" ++ toStringPos (- z) else toStringPos z
  | Inf negative => if negative then L"-Infinity" else L"Infinity"
  | NaN => L"NaN"
  end.

End Number.

(* ================================================================= *)
(** ** A backtracking matcher for the regular expressions of the source *)

Module Regex.

(** The fragment of the ECMAScript pattern language that the source uses.
    [Star greedy r] is [r*] or [r*?]; [Opt r] is [r?]; [Group i r] is the
    [i]-th capturing group; [Eos] is [$] (no multiline flag). *)
Inductive t : Type :=
| Class (p : ascii -> bool)
| Cat (r1 r2 : t)
| Star (greedy : bool) (r : t)
| Opt (r : t)
| Group (i : nat) (r : t)
| Eos.

(** [r+] and [r+?] *)
Definition Plus (greedy : bool) (r : t) : t := Cat r (Star greedy r).

Definition caps := nat -> option str.

Definition noCaps : caps := fun _ => None.

Definition setCap (i : nat) (v : str) (c : caps) : caps :=
  fun j => if (j =? i)%nat then Some v else c j.

Definition cont := str -> caps -> option caps.

(** [run r k s c] matches [r] at the head of [s] and hands the rest of the
    input to the continuation [k]; alternatives are tried in the order of
    the ECMAScript semantics, and the first success wins.  An iteration of
    a quantifier that consumes nothing is rejected, as the standard
    prescribes. *)
Fixpoint run (r : t) (k : cont) (s : str) (c : caps) {struct r} : option caps :=
  match r with
  | Class p =>
      match s with
      | a :: s' => if p a then k s' c else None
      | [] => None
      end
  | Cat r1 r2 => run r1 (run r2 k) s c
  | Star greedy r1 =>
      (fix loop (n : nat) (s : str) (c : caps) {struct n} : option caps :=
         let again :=
           match n with
           | O => None
           | S n' =>
               run r1 (fun s' c' =>
                         if (length s' <? length s)%nat then loop n' s' c'
                         else None) s c
           end in
         if greedy then
           match again with Some m => Some m | None => k s c end
         else
           match k s c with Some m => Some m | None => again end)
        (length s) s c
  | Opt r1 =>
      match run r1 (fun s' c' =>
                      if (length s' <? length s)%nat then k s' c' else None) s c
      with
      | Some m => Some m
      | None => k s c
      end
  | Group i r1 =>
      run r1 (fun s' c' =>
                k s' (setCap i (firstn (length s - length s') s) c')) s c
  | Eos =>
      match s with
      | [] => k s c
      | _ :: _ => None
      end
  end.

(** [s.match(/^r/)] for a pattern anchored at the start: the match is
    attempted at index 0 only. *)
Definition exec (r : t) (s : str) : option caps :=
  run r (fun _ c => Some c) s noCaps.

(** The iteration of [Star], named. *)
Definition starLoop (greedy : bool) (r1 : t) (k : cont) :=
  fix loop (n : nat) (s : str) (c : caps) {struct n} : option caps :=
    let again :=
      match n with
      | O => None
      | S n' =>
          run r1 (fun s' c' =>
                    if (length s' <? length s)%nat then loop n' s' c'
                    else None) s c
      end in
    if greedy then
      match again with Some m => Some m | None => k s c end
    else
      match k s c with Some m => Some m | None => again end.

(** A continuation that rejects every input whose head is in the class
    [p]. *)
Definition rejectsHead (p : ascii -> bool) (k : cont) : Prop :=
  forall a s c, p a = true -> k (a :: s) c = None.

(** Whether the pattern has a capturing group of index [i]. *)
Fixpoint hasGroup (i : nat) (r : t) : bool :=
  match r with
  | Class _ | Eos => false
  | Cat r1 r2 => hasGroup i r1 || hasGroup i r2
  | Star _ r1 | Opt r1 => hasGroup i r1
  | Group j r1 => (j =? i)%nat || hasGroup i r1
  end.

(** A continuation that rejects every input without a tilde. *)
Definition needsTilde (k : cont) : Prop :=
  forall s c, existsb isTilde s = false -> k s c = None.

End Regex.

(* ================================================================= *)
(** ** Errors *)

(** What a call does: it returns a value, throws an [Error], or does not
    return because a loop of it never ends. *)
Inductive result (A : Type) : Type :=
| Ok (a : A)
| Error (message : str)
| Diverges.

Arguments Ok {A} a.
Arguments Error {A} message.
Arguments Diverges {A}.

(* ================================================================= *)
(** ** Data model (types.ts) *)

Inductive TransactionType : Type := purchase | release.

Inductive ItemType : Type := part | product.

Module Transaction.

Record t : Type := mk {
  id : str;
  type : TransactionType;
  quantity : Z;
  date : str;
  remarks : str;
  modelName : option str;
  serialNumber : option str;
  customerName : option str;
  address : option str;
  phoneNumber : option str;
  userId : option str
}.

(** [Partial<Transaction>]: [None] is an absent key. *)
Record partial : Type := mkPartial {
  p_id : option str;
  p_type : option TransactionType;
  p_quantity : option Z;
  p_date : option str;
  p_remarks : option str;
  p_modelName : option (option str);
  p_serialNumber : option (option str);
  p_customerName : option (option str);
  p_address : option (option str);
  p_phoneNumber : option (option str);
  p_userId : option (option str)
}.

Definition over {A : Type} (old : A) (new : option A) : A :=
  match new with Some v => v | None => old end.

(** [{ ...t, ...updatedData }] *)
Definition merge (x : t) (u : partial) : t :=
  mk (over (id x) (p_id u)) (over (type x) (p_type u))
     (over (quantity x) (p_quantity u)) (over (date x) (p_date u))
     (over (remarks x) (p_remarks u)) (over (modelName x) (p_modelName u))
     (over (serialNumber x) (p_serialNumber u))
     (over (customerName x) (p_customerName u))
     (over (address x) (p_address u)) (over (phoneNumber x) (p_phoneNumber u))
     (over (userId x) (p_userId u)).

(** A whole transaction used as a [Partial<Transaction>]: every key is
    present. *)
Definition asPartial (x : t) : partial :=
  mkPartial (Some (id x)) (Some (type x)) (Some (quantity x)) (Some (date x))
            (Some (remarks x)) (Some (modelName x)) (Some (serialNumber x))
            (Some (customerName x)) (Some (address x)) (Some (phoneNumber x))
            (Some (userId x)).

End Transaction.

Module Item.

Record t : Type := mk {
  id : str;
  type : ItemType;
  registrationDate : str;
  code : str;
  name : str;
  spec : str;
  modelName : str;
  drawingNumber : str;
  application : str;
  remarks : str;
  transactions : list Transaction.t
}.

(** [Partial<Item>] *)
Record partial : Type := mkPartial {
  p_id : option str;
  p_type : option ItemType;
  p_registrationDate : option str;
  p_code : option str;
  p_name : option str;
  p_spec : option str;
  p_modelName : option str;
  p_drawingNumber : option str;
  p_application : option str;
  p_remarks : option str;
  p_transactions : option (list Transaction.t)
}.

(** [{ ...item, ...updatedData }] *)
Definition merge (x : t) (u : partial) : t :=
  mk (Transaction.over (id x) (p_id u)) (Transaction.over (type x) (p_type u))
     (Transaction.over (registrationDate x) (p_registrationDate u))
     (Transaction.over (code x) (p_code u)) (Transaction.over (name x) (p_name u))
     (Transaction.over (spec x) (p_spec u))
     (Transaction.over (modelName x) (p_modelName u))
     (Transaction.over (drawingNumber x) (p_drawingNumber u))
     (Transaction.over (application x) (p_application u))
     (Transaction.over (remarks x) (p_remarks u))
     (Transaction.over (transactions x) (p_transactions u)).

(** [{ ...item, transactions: ts }] *)
Definition withTransactions (x : t) (ts : list Transaction.t) : t :=
  mk (id x) (type x) (registrationDate x) (code x) (name x) (spec x)
     (modelName x) (drawingNumber x) (application x) (remarks x) ts.

End Item.

Definition isProduct (ty : ItemType) : bool :=
  match ty with product => true | part => false end.

Definition isRelease (ty : TransactionType) : bool :=
  match ty with release => true | purchase => false end.

Local Open Scope Z_scope.

(* ================================================================= *)
(** ** Ledger calculator *)

(** The reducer of [calculateStock] and of [currentStock]. *)
Definition stockStep (acc : Z) (t : Transaction.t) : Z :=
  match Transaction.type t with
  | purchase => acc + Transaction.quantity t
  | release => acc - Transaction.quantity t
  end.

(** App: [calculateStock] *)
Definition calculateStock (item : Item.t) : Z :=
  fold_left stockStep (Item.transactions item) 0.

(** ItemDetailModal: [currentStock] *)
Definition currentStock (item : Item.t) : Z :=
  fold_left (fun acc t =>
               match Transaction.type t with
               | purchase => acc + Transaction.quantity t
               | release => acc - Transaction.quantity t
               end) (Item.transactions item) 0.

(* ================================================================= *)
(** ** Serial allocator *)

Import Regex.

(** A capture group of a successful match; a group that took no part in
    the match is [undefined], which both [parseInt] and a template literal
    read as the text "undefined". *)
Definition group (m : caps) (i : nat) : str :=
  match m i with Some v => v | None => L"undefined" end.

(** [/^([a-zA-Z]+)(\d+)$/] *)
Definition serialPattern : Regex.t :=
  Cat (Group 1 (Plus true (Class isLetter)))
      (Cat (Group 2 (Plus true (Class isDigit))) Eos).

(** The body of the [forEach] of [suggestNextSerial], on the pair of its
    two mutable variables. *)
Definition suggestStep (st : Number.t * str) (s : str) : Number.t * str :=
  let '(maxNum, currentPrefix) := st in
  match exec serialPattern (toUpperCase s) with
  | Some m =>
      let currentPrefix := group m 1 in
      let num := Number.parseInt (group m 2) in
      if Number.gtb num maxNum then (num, currentPrefix)
      else (maxNum, currentPrefix)
  | None => (maxNum, currentPrefix)
  end.

Definition suggestNextSerial (usedSerials : list str) : str :=
  match usedSerials with
  | [] => L"SN00001"
  | _ =>
      let '(maxNum, currentPrefix) :=
        fold_left suggestStep usedSerials (Number.Fin 0, L"SN") in
      let nextNum := Number.add maxNum (Number.Fin 1) in
      let padLength := Nat.max 5 (length (Number.toString nextNum)) in
      currentPrefix ++ padStart (Number.toString nextNum) padLength char0
  end.

(** [/^(.+?)(\d+)\s*~\s*(.+?)?(\d+)$/], from its end: [(.+?)?(\d+)$], then
    what follows the first group, then the whole pattern. *)
Definition rangeTail : Regex.t :=
  Cat (Opt (Group 3 (Plus false (Class isDot))))
      (Cat (Group 4 (Plus true (Class isDigit))) Eos).

Definition rangeRest : Regex.t :=
  Cat (Group 2 (Plus true (Class isDigit)))
  (Cat (Star true (Class isWhiteSpace))
  (Cat (Class isTilde)
  (Cat (Star true (Class isWhiteSpace)) rangeTail))).

Definition rangePattern : Regex.t :=
  Cat (Group 1 (Plus false (Class isDot))) rangeRest.

(** The message of the error thrown on an oversized range. *)
Definition rangeError : str := L"범위는 최대 100개까지 가능합니다.".

(** The [for] loop of [parseSerialRange], run for [fuel] tests of its
    condition at most: [None] when the loop has not ended by then. *)
Fixpoint rangeLoop (fuel : nat) (prefix : str) (padLength : nat)
    (i endNum : Number.t) (results : list str) : option (list str) :=
  match fuel with
  | O => None
  | S f =>
      if Number.leb i endNum then
        let paddedNum := padStart (Number.toString i) padLength char0 in
        rangeLoop f prefix padLength (Number.add i (Number.Fin 1)) endNum
                  (results ++ [prefix ++ paddedNum])
      else Some results
  end.

(** The loop is entered with [endNum - startNum] below 100.  While [i + 1]
    is a double the loop ends after 100 rounds at most; once [i + 1] is
    rounded back to [i], from 2^53 on, it never ends.  A loop that has not
    ended after 101 tests is of the second kind ([rangeLoop_101] below). *)
Definition parseSerialRange (input : str) : result (list str) :=
  match exec rangePattern input with
  | None => Ok [trim input]
  | Some rangeMatch =>
      let prefix := group rangeMatch 1 in
      let startNumStr := group rangeMatch 2 in
      let endNumStr := group rangeMatch 4 in
      let startNum := Number.parseInt startNumStr in
      let endNum := Number.parseInt endNumStr in
      if Number.isNaN startNum || Number.isNaN endNum ||
         Number.gtb startNum endNum
      then Ok [trim input]
      else if Number.geb (Number.sub endNum startNum) (Number.Fin 100)
      then Error rangeError
      else
        let padLength := length startNumStr in
        match rangeLoop 101 prefix padLength startNum endNum [] with
        | Some results => Ok results
        | None => Diverges
        end
  end.

(* ================================================================= *)
(** ** Item/transaction store (App) *)

(** The fields of a transaction but its [id]: [Omit<Transaction, 'id'>]. *)
Record TransactionData : Type := mkTransactionData {
  d_type : TransactionType;
  d_quantity : Z;
  d_date : str;
  d_remarks : str;
  d_modelName : option str;
  d_serialNumber : option str;
  d_customerName : option str;
  d_address : option str;
  d_phoneNumber : option str;
  d_userId : option str
}.

(** [{ ...transaction, id }] *)
Definition withId (transaction : TransactionData) (id : str) : Transaction.t :=
  Transaction.mk id (d_type transaction) (d_quantity transaction)
    (d_date transaction) (d_remarks transaction) (d_modelName transaction)
    (d_serialNumber transaction) (d_customerName transaction)
    (d_address transaction) (d_phoneNumber transaction) (d_userId transaction).

(** The fields of an item but [id] and [transactions]:
    [Omit<Item, 'id' | 'transactions'>]. *)
Record ItemData : Type := mkItemData {
  i_type : ItemType;
  i_registrationDate : str;
  i_code : str;
  i_name : str;
  i_spec : str;
  i_modelName : str;
  i_drawingNumber : str;
  i_application : str;
  i_remarks : str
}.

(** The two access roles of the application. *)
Inductive Role : Type := admin | product_only.

Module App.

Definition store := list Item.t.

Definition ADMIN_PASSWORD : str := L"0000".

Definition PRODUCT_ONLY_PASSWORD : str := L"1111".

(** [handleLogin]: the next role, the next content of the password field,
    and the alert shown, if any. *)
Definition handleLogin (authRole : option Role) (loginPassword : str)
    : option Role * str * option str :=
  if JS.eqb loginPassword ADMIN_PASSWORD then (Some admin, L"", None)
  else if JS.eqb loginPassword PRODUCT_ONLY_PASSWORD
  then (Some product_only, L"", None)
  else (authRole, L"", Some L"비밀번호가 틀렸습니다.").

(** The memo [stats]. *)
Definition partCount (items : store) : nat :=
  length (filter (fun i => negb (isProduct (Item.type i))) items).

Definition productCount (items : store) : nat :=
  length (filter (fun i => isProduct (Item.type i)) items).

(** The memo [allUsedSerials]: the upper-cased non-empty serial numbers of
    all transactions of all items, without repetition. *)
Definition allUsedSerials (items : store) : list str :=
  uniq (flat_map
          (fun item =>
             flat_map
               (fun t =>
                  match Transaction.serialNumber t with
                  | Some s => if truthy s then [toUpperCase s] else []
                  | None => []
                  end)
               (Item.transactions item))
          items).

(** [items.map(i => i.code)], the [existingCodes] handed to both modals *)
Definition existingCodes (items : store) : list str := map Item.code items.

(** [handleAddItem]; [itemId] and [tId] are the values of [generateId] and
    [now] the time stamp. *)
Definition handleAddItem (itemData : ItemData) (initialQuantity : Z)
    (itemId tId now : str) (prev : store) : store :=
  let transactions :=
    if initialQuantity >? 0 then
      [Transaction.mk tId purchase initialQuantity now L"초기 수량 등록"
                      None None None None None None]
    else [] in
  let newItem :=
    Item.mk itemId (i_type itemData) (i_registrationDate itemData)
            (i_code itemData) (i_name itemData) (i_spec itemData)
            (i_modelName itemData) (i_drawingNumber itemData)
            (i_application itemData) (i_remarks itemData) transactions in
  newItem :: prev.

(** The state that [handleDeleteItemConfirm] reads and writes. *)
Record deleteDialog : Type := mkDeleteDialog {
  itemToDelete : option str;
  deletePassword : str
}.

(** [handleDeleteItemConfirm]: the alert shown, if any, the next store and
    the next state of the dialog. *)
Definition handleDeleteItemConfirm (authRole : option Role) (d : deleteDialog)
    (items : store) : option str * store * deleteDialog :=
  let currentPass :=
    match authRole with
    | Some admin => ADMIN_PASSWORD
    | _ => PRODUCT_ONLY_PASSWORD
    end in
  if negb (JS.eqb (deletePassword d) currentPass) then
    (Some L"비밀번호가 틀렸습니다.", items, d)
  else
    match itemToDelete d with
    | Some id =>
        (None, filter (fun i => negb (JS.eqb (Item.id i) id)) items,
         mkDeleteDialog None L"")
    | None => (None, items, d)
    end.

Definition handleUpdateItem (itemId : str) (updatedData : Item.partial)
    (prev : store) : store :=
  map (fun item =>
         if JS.eqb (Item.id item) itemId then Item.merge item updatedData
         else item) prev.

(** [handleAddTransaction]; [newId] is the value of [generateId]. *)
Definition handleAddTransaction (itemId : str) (transaction : TransactionData)
    (newId : str) (prev : store) : store :=
  let newTransaction := withId transaction newId in
  map (fun item =>
         if JS.eqb (Item.id item) itemId then
           Item.withTransactions item (Item.transactions item ++ [newTransaction])
         else item) prev.

Definition handleUpdateTransaction (itemId transactionId : str)
    (updatedData : Transaction.partial) (prev : store) : store :=
  map (fun item =>
         if JS.eqb (Item.id item) itemId then
           Item.withTransactions item
             (map (fun t =>
                     if JS.eqb (Transaction.id t) transactionId
                     then Transaction.merge t updatedData else t)
                  (Item.transactions item))
         else item) prev.

Definition handleDeleteTransaction (itemId transactionId : str)
    (prev : store) : store :=
  map (fun item =>
         if JS.eqb (Item.id item) itemId then
           Item.withTransactions item
             (filter (fun t => negb (JS.eqb (Transaction.id t) transactionId))
                     (Item.transactions item))
         else item) prev.

(** The memo [filteredInventory]: the items of the active tab that the
    search term selects. *)
Definition filteredInventory (items : store) (searchTerm : str)
    (activeTab : ItemType) : store :=
  let term := trim (toLowerCase searchTerm) in
  filter
    (fun item =>
       let matchesTab :=
         match activeTab, Item.type item with
         | part, part => true
         | product, product => true
         | _, _ => false
         end in
       if negb matchesTab then false
       else
         let basicMatch :=
           includesStr (toLowerCase (Item.name item)) term ||
           includesStr (toLowerCase (Item.code item)) term in
         if basicMatch then true
         else if isProduct activeTab then
           existsb (fun t =>
                      match Transaction.serialNumber t with
                      | Some s => includesStr (toLowerCase s) term
                      | None => false
                      end)
                   (Item.transactions item)
         else false)
    items.

End App.

(** What a form handler does: it either alerts and returns, or goes
    through; the handler of the transaction form does not return when the
    expansion of its range does not. *)
Inductive outcome (A : Type) : Type :=
| Rejected (alert : str)
| Accepted (a : A)
| Unfinished.

Arguments Rejected {A} alert.
Arguments Accepted {A} a.
Arguments Unfinished {A}.

(* ================================================================= *)
(** ** Item creation form (AddItemModal) *)

Module AddItemModal.

Record formData : Type := mkForm {
  registrationDate : str;
  code : str;
  name : str;
  drawingNumber : str;
  spec : str;
  remarks : str;
  initialQuantity : str
}.

(** The pattern built from the prefix, [^PREFIX(\d+)$].  The prefix is
    pasted into the source of the pattern: a prefix of letters and digits
    stands for itself, and this is the case that is modelled; for any
    other prefix there is no pattern here. *)
Definition isAlphanumeric (c : ascii) : bool := isLetter c || isDigit c.

Definition codePattern (upperPrefix : str) : option Regex.t :=
  if forallb isAlphanumeric upperPrefix then
    Some (fold_right (fun c r => Regex.Cat (Regex.Class (Ascii.eqb c)) r)
                     (Regex.Cat
                        (Regex.Group 1 (Regex.Plus true (Regex.Class isDigit)))
                        Regex.Eos)
                     upperPrefix)
  else None.

(** The body of the loop over the existing codes. *)
Definition codeStep (regex : Regex.t) (maxNum : Number.t) (code : str)
    : Number.t :=
  if negb (truthy code) then maxNum
  else
    match Regex.exec regex (toUpperCase code) with
    | Some m =>
        let num :=
          Number.parseInt
            (match m 1%nat with Some v => v | None => L"undefined" end) in
        if Number.gtb num maxNum then num else maxNum
    | None => maxNum
    end.

(** The effect that proposes a code from the prefix field: the code it
    sets, when the prefix is in the modelled case. *)
Definition suggestCode (prefix : str) (existingCodes : list str) : option str :=
  let upperPrefix := toUpperCase prefix in
  if negb (truthy (trim upperPrefix)) then Some L""
  else
    match codePattern upperPrefix with
    | None => None
    | Some regex =>
        let maxNum := fold_left (codeStep regex) existingCodes (Number.Fin 0) in
        Some (upperPrefix ++
              Number.toString (Number.add maxNum (Number.Fin 1)))
    end.

Definition isCodeDuplicate (existingCodes : list str) (f : formData) : bool :=
  if negb (truthy (trim (code f))) then false
  else existsb (fun c => JS.eqb (toUpperCase c) (toUpperCase (trim (code f))))
               existingCodes.

(** [handleSubmit]: the arguments of the call of [onAddItem], if any. *)
Definition handleSubmit (existingCodes : list str) (itemType : ItemType)
    (f : formData) : outcome (ItemData * Z) :=
  if negb (truthy (code f)) || negb (truthy (name f)) then
    Rejected L"품명과 코드는 필수 항목입니다."
  else if isCodeDuplicate existingCodes f then
    Rejected L"이미 사용 중인 코드입니다. 코드를 변경해주세요."
  else
    let quantity := orZero (parseInt (initialQuantity f)) in
    Accepted (mkItemData itemType (registrationDate f) (code f) (name f)
                         (spec f) L"" (drawingNumber f) L"" (remarks f),
              quantity).

End AddItemModal.

(** Submitting the creation form against the store: the form is given the
    codes of the current items and its [onAddItem] is [App.handleAddItem]. *)
Definition addItem (itemType : ItemType) (f : AddItemModal.formData)
    (itemId tId now : str) (items : App.store) : outcome unit * App.store :=
  match AddItemModal.handleSubmit (App.existingCodes items) itemType f with
  | Rejected alert => (Rejected alert, items)
  | Accepted (itemData, quantity) =>
      (Accepted tt, App.handleAddItem itemData quantity itemId tId now items)
  | Unfinished => (Unfinished, items)
  end.

(* ================================================================= *)
(** ** Transaction form (ItemDetailModal) *)

Module ItemDetailModal.

(** The state of the transaction form. *)
Record form : Type := mkForm {
  transactionType : TransactionType;
  quantity : str;
  transRemarks : str;
  transModelName : str;
  transUserId : str;
  serialNumber : str;
  customerName : str;
  address : str;
  phoneNumber : str
}.

(** [a.join(sep)] *)
Fixpoint join (sep : str) (a : list str) : str :=
  match a with
  | [] => []
  | [s] => s
  | s :: a' => s ++ sep ++ join sep a'
  end.

Definition duplicateAlert (duplicates : list str) : str :=
  L"중복 번호 존재: " ++ join L", " (firstn 5 duplicates) ++ L"...".

Definition rangeAlert (n : nat) : str :=
  toString (Z.of_nat n) ++ L"건이 일련번호 기반으로 개별 등록되었습니다.".

(** The serials the form refers to and whether they come from the range
    syntax; the error of [parseSerialRange] is caught by the caller. *)
Definition targetSerialsOf (item : Item.t) (f : form) : result (list str * bool) :=
  if isProduct (Item.type item) && includesChar (serialNumber f) isTilde then
    match parseSerialRange (toUpperCase (serialNumber f)) with
    | Ok targetSerials => Ok (targetSerials, true)
    | Error message => Error message
    | Diverges => Diverges
    end
  else Ok ([trim (toUpperCase (serialNumber f))], false).

(** The payloads of the calls of [onAddTransaction] in the range case, one
    per serial; [now k] is the time stamp read by the [k]-th call. *)
Fixpoint rangeCalls (f : form) (now : nat -> str) (k : nat)
    (targetSerials : list str) : list TransactionData :=
  match targetSerials with
  | [] => []
  | s :: rest =>
      mkTransactionData (transactionType f) 1 (now k) (transRemarks f)
        (Some (transModelName f)) (Some s) (Some (customerName f))
        (Some (address f)) (Some (phoneNumber f)) (Some (transUserId f))
      :: rangeCalls f now (S k) rest
  end.

Definition singleCall (item : Item.t) (f : form) (now : nat -> str)
    (count : Z) : TransactionData :=
  let onlyProduct (v : str) := if isProduct (Item.type item) then v else L"" in
  mkTransactionData (transactionType f) count (now O) (transRemarks f)
    (Some (transModelName f))
    (Some (onlyProduct (toUpperCase (serialNumber f))))
    (Some (onlyProduct (customerName f)))
    (Some (onlyProduct (address f)))
    (Some (onlyProduct (phoneNumber f)))
    (Some (transUserId f)).

(** The form once a submission went through. *)
Definition resetForm (f : form) (allUsedSerials targetSerials : list str) : form :=
  mkForm (transactionType f) L"" L"" L"" L""
         (suggestNextSerial (allUsedSerials ++ targetSerials)) L"" L"" L"".

(** What an accepted submission does: the calls of [onAddTransaction] in
    order, the confirmation shown, and the next state of the form. *)
Record accepted : Type := mkAccepted {
  calls : list TransactionData;
  notice : option str;
  nextForm : form
}.

(** The quantity the submission asks for: the number of serials of a
    range, or the quantity field. *)
Definition countOf (f : form) (targetSerials : list str) (isRange : bool) : Z :=
  if isRange then Z.of_nat (length targetSerials)
  else orZero (parseInt (quantity f)).

(** [handleAddTransaction] *)
Definition handleAddTransaction (item : Item.t) (allUsedSerials : list str)
    (now : nat -> str) (f : form) : outcome accepted :=
  match targetSerialsOf item f with
  | Error message => Rejected message
  | Diverges => Unfinished
  | Ok (targetSerials, isRange) =>
      let duplicates :=
        filter (fun s => truthy s && includes allUsedSerials s) targetSerials in
      if (0 <? length duplicates)%nat then Rejected (duplicateAlert duplicates)
      else
        let count := countOf f targetSerials isRange in
        if count <=? 0 then Rejected L"수량을 확인하세요."
        else if isRelease (transactionType f) && (count >? currentStock item)
        then Rejected L"재고 부족!"
        else if isRange then
          Accepted (mkAccepted (rangeCalls f now O targetSerials)
                               (Some (rangeAlert (length targetSerials)))
                               (resetForm f allUsedSerials targetSerials))
        else
          Accepted (mkAccepted [singleCall item f now count] None
                               (resetForm f allUsedSerials targetSerials))
  end.

(** The memo [isSerialDuplicate], which marks the serial field. *)
Definition isSerialDuplicate (serialNumber : str) (allUsedSerials : list str)
    : bool :=
  if negb (truthy (trim serialNumber)) || includesChar serialNumber isTilde
  then false
  else includes allUsedSerials (toUpperCase serialNumber).

(** [v?.toLowerCase().includes(term)] on an optional field *)
Definition fieldIncludes (v : option str) (term : str) : bool :=
  match v with
  | Some s => includesStr (toLowerCase s) term
  | None => false
  end.

(** The memo [filteredHistory]: the transactions, newest first, that the
    search term of the history selects. *)
Definition filteredHistory (item : Item.t) (historySearchTerm : str)
    : list Transaction.t :=
  let term := trim (toLowerCase historySearchTerm) in
  if negb (truthy term) then rev (Item.transactions item)
  else
    filter (fun t =>
              fieldIncludes (Transaction.serialNumber t) term ||
              fieldIncludes (Transaction.customerName t) term ||
              includesStr (toLowerCase (Transaction.remarks t)) term)
           (rev (Item.transactions item)).

End ItemDetailModal.

(** The calls of [onAddTransaction] of one submission, applied to the store
    in order; [genId k] is the identifier generated by the [k]-th call. *)
Fixpoint applyCalls (itemId : str) (genId : nat -> str) (k : nat)
    (calls : list TransactionData) (items : App.store) : App.store :=
  match calls with
  | [] => items
  | transaction :: rest =>
      applyCalls itemId genId (S k) rest
                 (App.handleAddTransaction itemId transaction (genId k) items)
  end.

(** Submitting the transaction form of [item] against the store: the form
    is given [App.allUsedSerials] and its [onAddTransaction] is
    [App.handleAddTransaction]. *)
Definition addTransaction (item : Item.t) (f : ItemDetailModal.form)
    (now genId : nat -> str) (items : App.store)
    : outcome ItemDetailModal.accepted * App.store :=
  match ItemDetailModal.handleAddTransaction
          item (App.allUsedSerials items) now f with
  | Rejected alert => (Rejected alert, items)
  | Accepted a =>
      (Accepted a,
       applyCalls (Item.id item) genId O (ItemDetailModal.calls a) items)
  | Unfinished => (Unfinished, items)
  end.

(* ================================================================= *)
(** ** Export of the inventory (App) *)

Module AppExport.

Definition quote : ascii := ascii_of_nat 34.

Definition isQuote (c : ascii) : bool := (code c =? 34)%nat.

Definition crlf : str := [ascii_of_nat 13; ascii_of_nat 10].

(** The byte-order mark that opens the content, as its UTF-8 bytes. *)
Definition bom : str := [ascii_of_nat 239; ascii_of_nat 187; ascii_of_nat 191].

(** [String(v).replace]: every quote of the value is written twice. *)
Definition doubleQuotes (v : str) : str :=
  flat_map (fun c => if isQuote c then [c; c] else [c]) v.

(** One field of a row: the value between quotes, its quotes doubled. *)
Definition csvField (v : str) : str := quote :: doubleQuotes v ++ [quote].

(** One line of the content: the fields of a row joined by commas. *)
Definition csvLine (row : list str) : str :=
  ItemDetailModal.join L"," (map csvField row) ++ crlf.

Definition headers (activeTab : ItemType) : list str :=
  match activeTab with
  | part => [L"코드"; L"품명"; L"도번"; L"현재재고"]
  | product => [L"코드"; L"제품명"; L"현재재고"]
  end.

(** The row of an item; the stock is written by [String]. *)
Definition rowOf (activeTab : ItemType) (item : Item.t) : list str :=
  match activeTab with
  | part => [Item.code item; Item.name item; Item.drawingNumber item;
             toString (calculateStock item)]
  | product => [Item.code item; Item.name item;
                toString (calculateStock item)]
  end.

(** [exportToExcel]: the content of the file that is downloaded. *)
Definition exportToExcel (items : App.store) (searchTerm : str)
    (activeTab : ItemType) : str :=
  fold_left
    (fun csvContent item => csvContent ++ csvLine (rowOf activeTab item))
    (App.filteredInventory items searchTerm activeTab)
    (bom ++ ItemDetailModal.join L"," (headers activeTab) ++ crlf).

End AppExport.

(* ================================================================= *)
(** ** Definitions used to state the properties *)

(** The contribution of one transaction to the stock. *)
Definition signedQuantity (t : Transaction.t) : Z :=
  match Transaction.type t with
  | purchase => Transaction.quantity t
  | release => - Transaction.quantity t
  end.

(** The signed sum of a transaction list, as the specification words it. *)
Fixpoint signedSum (ts : list Transaction.t) : Z :=
  match ts with
  | [] => 0
  | t :: rest => signedQuantity t + signedSum rest
  end.

(** The mutations of the store that are scoped to an item id. *)
Inductive mutation : Type :=
| AddTransaction (itemId : str) (transaction : TransactionData) (newId : str)
| UpdateTransaction (itemId transactionId : str)
                    (updatedData : Transaction.partial)
| DeleteTransaction (itemId transactionId : str)
| UpdateItem (itemId : str) (updatedData : Item.partial).

Definition target (m : mutation) : str :=
  match m with
  | AddTransaction itemId _ _ => itemId
  | UpdateTransaction itemId _ _ => itemId
  | DeleteTransaction itemId _ => itemId
  | UpdateItem itemId _ => itemId
  end.

Definition apply (m : mutation) (items : App.store) : App.store :=
  match m with
  | AddTransaction itemId transaction newId =>
      App.handleAddTransaction itemId transaction newId items
  | UpdateTransaction itemId transactionId updatedData =>
      App.handleUpdateTransaction itemId transactionId updatedData items
  | DeleteTransaction itemId transactionId =>
      App.handleDeleteTransaction itemId transactionId items
  | UpdateItem itemId updatedData =>
      App.handleUpdateItem itemId updatedData items
  end.

(* ================================================================= *)
(** ** Editing in the detail view (ItemDetailModal) *)

Module ItemDetailEdit.

(** The memo [isCodeDuplicate] of the edit form of an item. *)
Definition isCodeDuplicate (editFormData : Item.partial) (item : Item.t)
    (existingCodes : list str) : bool :=
  match Item.p_code editFormData with
  | None => false
  | Some code =>
      if negb (truthy code) || JS.eqb code (Item.code item) then false
      else existsb (fun c => JS.eqb (toUpperCase c) (toUpperCase code))
                   existingCodes
  end.

(** The action that waits for the password: its [type] and [targetId]. *)
Inductive actionType : Type := item_action | trans_save | trans_delete.

Record pendingAction : Type := mkAction {
  a_type : actionType;
  targetId : option str
}.

(** What [handleToggleEdit] does. *)
Inductive toggled : Type :=
| ToggleAlert (alert : str)
| AskPassword (action : pendingAction)
| StartEditing.

Definition truthyField (v : option str) : bool :=
  match v with Some s => truthy s | None => false end.

Definition handleToggleEdit (isEditing : bool) (editFormData : Item.partial)
    (item : Item.t) (existingCodes : list str) : toggled :=
  if isEditing then
    if negb (truthyField (Item.p_name editFormData)) ||
       negb (truthyField (Item.p_code editFormData))
    then ToggleAlert L"필수 항목 누락."
    else if isCodeDuplicate editFormData item existingCodes
    then ToggleAlert L"중복 코드."
    else AskPassword (mkAction item_action None)
  else StartEditing.

(** [handleActionConfirm]: the alert of a wrong password, or the callback
    that is invoked, if any. *)
Definition handleActionConfirm (authRole : Role) (password : str)
    (showPasswordInput : option pendingAction) (item : Item.t)
    (editFormData : Item.partial) (transEditData : Transaction.partial)
    : outcome (option mutation) :=
  let requiredPass :=
    match authRole with admin => L"5200" | product_only => L"3281" end in
  if negb (JS.eqb password requiredPass) then Rejected L"비밀번호 오류."
  else
    Accepted
      match showPasswordInput with
      | Some (mkAction item_action _) =>
          Some (UpdateItem (Item.id item) editFormData)
      | Some (mkAction trans_save (Some id)) =>
          if truthy id
          then Some (UpdateTransaction (Item.id item) id transEditData)
          else None
      | Some (mkAction trans_delete (Some id)) =>
          if truthy id then Some (DeleteTransaction (Item.id item) id)
          else None
      | _ => None
      end.

(** [handleEditTransaction]: the edit data are the transaction itself. *)
Definition handleEditTransaction (t : Transaction.t) : Transaction.partial :=
  Transaction.asPartial t.

(** The inputs of the row of a transaction under edit, by their [name]. *)
Inductive transField : Type :=
| f_quantity | f_modelName | f_serialNumber | f_customerName
| f_phoneNumber | f_address | f_remarks.

(** [handleTransEditChange] on the input [name] holding [value]. *)
Definition handleTransEditChange (name : transField) (value : str)
    (prev : Transaction.partial) : Transaction.partial :=
  let '(Transaction.mkPartial i ty q d r mn sn cn ad ph us) := prev in
  match name with
  | f_quantity =>
      Transaction.mkPartial i ty (Some (orZero (parseInt value))) d r mn sn cn
                            ad ph us
  | f_modelName =>
      Transaction.mkPartial i ty q d r (Some (Some value)) sn cn ad ph us
  | f_serialNumber =>
      Transaction.mkPartial i ty q d r mn (Some (Some (toUpperCase value))) cn
                            ad ph us
  | f_customerName =>
      Transaction.mkPartial i ty q d r mn sn (Some (Some value)) ad ph us
  | f_phoneNumber =>
      Transaction.mkPartial i ty q d r mn sn cn ad (Some (Some value)) us
  | f_address =>
      Transaction.mkPartial i ty q d r mn sn cn (Some (Some value)) ph us
  | f_remarks =>
      Transaction.mkPartial i ty q d (Some value) mn sn cn ad ph us
  end.

End ItemDetailEdit.

(** Confirming the pending action of the detail view of [item] against the
    store: the callbacks are the handlers of [App]. *)
Definition confirmAction (authRole : Role) (password : str)
    (showPasswordInput : option ItemDetailEdit.pendingAction) (item : Item.t)
    (editFormData : Item.partial) (transEditData : Transaction.partial)
    (items : App.store) : outcome unit * App.store :=
  match ItemDetailEdit.handleActionConfirm authRole password showPasswordInput
          item editFormData transEditData with
  | Rejected alert => (Rejected alert, items)
  | Accepted (Some m) => (Accepted tt, apply m items)
  | Accepted None => (Accepted tt, items)
  | Unfinished => (Unfinished, items)
  end.

(** Two codes that differ by the case of letters only are the same code:
    the codes of the store, upper-cased. *)
Definition upperCodes (items : App.store) : list str :=
  map toUpperCase (App.existingCodes items).

(** *** A reader of the exported lines *)

(** The content of a quoted field, from after its opening quote: a doubled
    quote stands for a quote, a single one closes the field.  The result is
    the value and what follows the closing quote. *)
Fixpoint readQuoted (s : str) : option (str * str) :=
  match s with
  | [] => None
  | c :: r =>
      if AppExport.isQuote c then
        match r with
        | c2 :: r2 =>
            if AppExport.isQuote c2 then
              match readQuoted r2 with
              | Some (v, rest) => Some (c :: v, rest)
              | None => None
              end
            else Some ([], r)
        | [] => Some ([], [])
        end
      else
        match readQuoted r with
        | Some (v, rest) => Some (c :: v, rest)
        | None => None
        end
  end.

Definition readField (s : str) : option (str * str) :=
  match s with
  | c :: r => if AppExport.isQuote c then readQuoted r else None
  | [] => None
  end.

(** One line: quoted fields separated by commas, up to the line break.
    The result is the fields and what follows the line break. *)
Fixpoint readLine (fuel : nat) (s : str) : option (list str * str) :=
  match fuel with
  | O => None
  | S n =>
      match readField s with
      | None => None
      | Some (v, rest) =>
          match rest with
          | c :: r =>
              if (code c =? 44)%nat then
                match readLine n r with
                | Some (vs, rest') => Some (v :: vs, rest')
                | None => None
                end
              else if (code c =? 13)%nat then
                match r with
                | l :: r' => if (code l =? 10)%nat then Some ([v], r') else None
                | [] => None
                end
              else None
          | [] => None
          end
      end
  end.

(** [k] lines, after which nothing is left. *)
Fixpoint readLines (k : nat) (s : str) : option (list (list str)) :=
  match k with
  | O => match s with [] => Some [] | _ :: _ => None end
  | S k' =>
      match readLine (length s) s with
      | Some (row, rest) =>
          match readLines k' rest with
          | Some rows => Some (row :: rows)
          | None => None
          end
      | None => None
      end
  end.

(** A transaction with no optional field. *)
Definition plainTransaction (id : str) (ty : TransactionType) (q : Z)
    : Transaction.t :=
  Transaction.mk id ty q L"2024-01-01T00:00:00.000Z" L"" None None None None
                 None None.

Definition plainData (ty : TransactionType) (q : Z) : TransactionData :=
  mkTransactionData ty q L"2024-01-02T00:00:00.000Z" L"" None None None None
                    None None.

Definition plainItem (id : str) (ty : ItemType) (code : str)
    (ts : list Transaction.t) : Item.t :=
  Item.mk id ty L"2024-01-01" code L"WIDGET" L"" L"" L"" L"" L"" ts.

(** A store with one item holding five units, bought in one transaction. *)
Definition oneItemStore : App.store :=
  [plainItem L"item-1" part L"P1" [plainTransaction L"t-1" purchase 5]].

(** The integers [a], [a + 1], ..., [n] of them. *)
Fixpoint zrange (a : Z) (n : nat) : list Z :=
  match n with
  | O => []
  | S n' => a :: zrange (a + 1) n'
  end.

(** The doubles from 2^53 on: 53 bits followed by zeros, below 2^1024. *)
Definition wideDouble (z : Z) : Prop :=
  exists e q, 53 <= e /\ 2 ^ 52 <= q < 2 ^ 53 /\ z = q * 2 ^ (e - 52) /\
              z < 2 ^ 1024.

(** The serial of number [i]: the prefix, then the number padded with
    zeros to [padLength] digits. *)
Definition renderSerial (prefix : str) (padLength : nat) (i : Z) : str :=
  prefix ++ padStart (toString i) padLength char0.

(** The range expressions [p d1 ~ d2] on which the properties of
    [parseSerialRange] below are stated: [p] has no line terminator and no
    tilde and ends with a character that is not a digit, and [d1] and [d2]
    are non-empty runs of digits. *)
Definition rangePrefix (p : str) : bool :=
  forallb isDot p && negb (existsb isTilde p) && negb (isDigit (last p char0)).

Definition digitRun (d : str) : bool := truthy d && forallb isDigit d.

(** An end token of one digit, or one that starts with the digit zero. *)
Definition plainEnd (d2 : str) : bool :=
  match d2 with
  | [] => false
  | [_] => true
  | c :: _ => Ascii.eqb c char0
  end.

(** The number of a code under the prefix [P]: the code, upper-cased, is
    [P] followed by a run of digits. *)
Definition codeNumber (P : str) (code : str) : option Z :=
  let u := toUpperCase code in
  if truthy code && startsWith u P && digitRun (skipn (length P) u)
  then Some (digitsValue (skipn (length P) u))
  else None.

(** *** The suggestion, as the specification words it *)

(** A serial read against [<letters><digits>], after upper-casing. *)
Definition splitSerial (s : str) : option (str * Z) :=
  let u := toUpperCase s in
  let letters := takeWhile isLetter u in
  let digits := dropWhile isLetter u in
  if truthy letters && truthy digits && forallb isDigit digits
  then Some (letters, digitsValue digits)
  else None.

(** The serials that match, in the order of the list. *)
Definition matchesOf (usedSerials : list str) : list (str * Z) :=
  flat_map (fun s => match splitSerial s with Some x => [x] | None => [] end)
           usedSerials.

(** The largest number of a list, 0 for the empty list. *)
Definition maximum (l : list Z) : Z :=
  match l with
  | [] => 0
  | n :: rest => fold_left Z.max rest n
  end.

Definition suggestSpec (usedSerials : list str) : str :=
  match usedSerials with
  | [] => L"SN00001"
  | _ =>
      let matches := matchesOf usedSerials in
      let prefix := last (map fst matches) L"SN" in
      let nextNum := maximum (map snd matches) + 1 in
      prefix ++ padStart (toString nextNum)
                         (Nat.max 5 (length (toString nextNum))) char0
  end.

(** *** Scenarios *)

(** The transactions that [applyCalls] appends: the payloads with their
    generated identifiers. *)
Fixpoint stamp (genId : nat -> str) (k : nat) (calls : list TransactionData)
    : list Transaction.t :=
  match calls with
  | [] => []
  | transaction :: rest => withId transaction (genId k) :: stamp genId (S k) rest
  end.

Definition clock (k : nat) : str := L"2024-02-01T00:00:00.000Z".

Definition ids (k : nat) : str := L"t-" ++ toString (Z.of_nat (100 + k)).

(** A transaction form that asks for [q] units under the serial [serial]. *)
Definition simpleForm (ty : TransactionType) (q serial : str)
    : ItemDetailModal.form :=
  ItemDetailModal.mkForm ty q L"" L"" L"" serial L"" L"" L"".

(** A product with no transaction yet, and the store that holds it. *)
Definition emptyProduct : Item.t := plainItem L"item-7" product L"M1" [].

(** A creation form for the code [code]. *)
Definition simpleItemForm (code name : str) : AddItemModal.formData :=
  AddItemModal.mkForm L"2024-02-01" code name L"" L"" L"" L"0".

Unset Implicit Arguments.

(* ================================================================= *)
(** ** Strings *)

Lemma eqb_refl (s : str) : JS.eqb s s = true.
Proof.
  induction s as [|a s IH]; simpl; [reflexivity|].
  now rewrite Ascii.eqb_refl.
Qed.

Lemma eqb_eq (s u : str) : JS.eqb s u = true <-> s = u.
Proof.
  revert u; induction s as [|a s IH]; intros [|b u]; simpl;
    try (split; [discriminate|discriminate]); try tauto.
  rewrite andb_true_iff, Ascii.eqb_eq, IH.
  split; [intros [-> ->]; reflexivity|intros [= -> ->]; auto].
Qed.

Lemma eqb_neq (s u : str) : JS.eqb s u = false <-> s <> u.
Proof.
  rewrite <- eqb_eq. destruct (JS.eqb s u); split; congruence.
Qed.

Lemma includes_In (l : list str) (s : str) : includes l s = true <-> In s l.
Proof.
  unfold includes. rewrite existsb_exists. split.
  - intros (x & Hx & E). apply eqb_eq in E. now subst.
  - intros H. exists s. split; [assumption|apply eqb_refl].
Qed.

(* ================================================================= *)
(** ** The ledger *)

Lemma fold_stockStep (ts : list Transaction.t) (acc : Z) :
  fold_left stockStep ts acc = acc + signedSum ts.
Proof.
  revert acc; induction ts as [|t ts IH]; intros acc; simpl.
  - lia.
  - rewrite IH. unfold stockStep, signedQuantity.
    destruct (Transaction.type t); lia.
Qed.

Lemma calculateStock_signedSum (item : Item.t) :
  calculateStock item = signedSum (Item.transactions item).
Proof. unfold calculateStock. now rewrite fold_stockStep. Qed.

Lemma signedSum_app (ts us : list Transaction.t) :
  signedSum (ts ++ us) = signedSum ts + signedSum us.
Proof. induction ts as [|t ts IH]; simpl; lia. Qed.

(** C1. For every item, the stock computed by the application (by
    [calculateStock] in the main view and by [currentStock] in the detail
    view) is the signed sum of the quantities of its transactions, a
    purchase counting positively and a release negatively; the value is a
    function of the transaction list alone, no field of the item holds it. *)
Theorem stock_is_signed_sum (item : Item.t) :
  calculateStock item = signedSum (Item.transactions item) /\
  currentStock item = signedSum (Item.transactions item).
Proof.
  split; [apply calculateStock_signedSum|].
  change (currentStock item) with (calculateStock item).
  apply calculateStock_signedSum.
Qed.

(* ================================================================= *)
(** ** The store: frame and inverse properties *)

Lemma withTransactions_same (item : Item.t) :
  Item.withTransactions item (Item.transactions item) = item.
Proof. now destruct item. Qed.

Lemma map_other_id (f : Item.t -> Item.t) (itemId : str) (items : App.store) :
  (forall item, In item items -> JS.eqb (Item.id item) itemId = false) ->
  map (fun item => if JS.eqb (Item.id item) itemId then f item else item) items
  = items.
Proof.
  intros H. rewrite <- (map_id items) at 2. apply map_ext_in.
  intros item Hin. now rewrite (H item Hin).
Qed.

(** Every mutation maps over the store, touching the items that bear the
    target id only. *)
Lemma apply_as_map (m : mutation) :
  exists f, forall items,
    apply m items =
    map (fun item => if JS.eqb (Item.id item) (target m) then f item else item)
        items.
Proof.
  destruct m; simpl; eexists; intros items; reflexivity.
Qed.

(** C10. A transaction mutation (add, update, delete) or an item update
    keeps the number and the order of the items, leaves every item whose id
    differs from the given id as it was, and, when no item bears the given
    id, returns the store it was given. *)
Theorem mutation_frame (m : mutation) (items : App.store) :
  length (apply m items) = length items /\
  (forall k item,
      nth_error items k = Some item ->
      JS.eqb (Item.id item) (target m) = false ->
      nth_error (apply m items) k = Some item) /\
  ((forall item, In item items -> JS.eqb (Item.id item) (target m) = false) ->
   apply m items = items).
Proof.
  destruct (apply_as_map m) as [f Hf]. rewrite Hf.
  split; [apply length_map|split].
  - intros k item Hk Hid. rewrite nth_error_map, Hk. simpl. now rewrite Hid.
  - apply map_other_id.
Qed.

Lemma mutation_frame_witness :
  nth_error
    (apply (DeleteTransaction L"item-2" L"t-1") oneItemStore) 0
  = nth_error oneItemStore 0 /\
  apply (UpdateItem L"item-2" (Item.mkPartial None None None (Some L"P9") None
                                 None None None None None None)) oneItemStore
  = oneItemStore.
Proof.
  split.
  - apply (proj1 (proj2 (mutation_frame (DeleteTransaction L"item-2" L"t-1")
                                        oneItemStore)) 0%nat);
      reflexivity.
  - apply (proj2 (proj2 (mutation_frame _ oneItemStore))).
    intros item [<-|[]]. reflexivity.
Defined.

Lemma filter_other_ids (newId : str) (ts : list Transaction.t) :
  (forall t, In t ts -> JS.eqb (Transaction.id t) newId = false) ->
  filter (fun t => negb (JS.eqb (Transaction.id t) newId)) ts = ts.
Proof.
  induction ts as [|t ts IH]; intros H; simpl; [reflexivity|].
  rewrite (H t (or_introl eq_refl)). simpl. f_equal.
  apply IH. intros u Hu. apply H. now right.
Qed.

(** With a fresh identifier, deleting the transaction that was just added
    gives back the store. *)
Lemma delete_after_add (items : App.store) (itemId : str)
    (transaction : TransactionData) (newId : str) :
  (forall item, In item items -> JS.eqb (Item.id item) itemId = true ->
     forall t, In t (Item.transactions item) ->
       JS.eqb (Transaction.id t) newId = false) ->
  App.handleDeleteTransaction itemId newId
    (App.handleAddTransaction itemId transaction newId items) = items.
Proof.
  intros fresh. unfold App.handleDeleteTransaction, App.handleAddTransaction.
  rewrite map_map. rewrite <- (map_id items) at 2. apply map_ext_in.
  intros item Hin. destruct (JS.eqb (Item.id item) itemId) eqn:E.
  - cbn [Item.withTransactions Item.id Item.transactions]. rewrite E.
    rewrite filter_app. cbn [filter withId Transaction.id].
    rewrite eqb_refl. cbn [negb]. rewrite app_nil_r.
    rewrite (filter_other_ids newId (Item.transactions item) (fresh item Hin E)).
    now destruct item.
  - now rewrite E.
Qed.

(** C8, amended. When the identifier generated for the new transaction is
    borne by no transaction already in the items of the given id, adding
    the transaction and then deleting the transaction of that identifier
    restores the stock of every item of the store. *)
Theorem add_then_delete_restores_stock (items : App.store) (itemId : str)
    (transaction : TransactionData) (newId : str) :
  (forall item, In item items -> JS.eqb (Item.id item) itemId = true ->
     forall t, In t (Item.transactions item) ->
       JS.eqb (Transaction.id t) newId = false) ->
  map calculateStock
      (App.handleDeleteTransaction itemId newId
         (App.handleAddTransaction itemId transaction newId items))
  = map calculateStock items.
Proof.
  intros fresh. now rewrite delete_after_add.
Qed.

Lemma add_then_delete_restores_stock_witness :
  map calculateStock
      (App.handleDeleteTransaction L"item-1" L"t-2"
         (App.handleAddTransaction L"item-1" (plainData purchase 3) L"t-2"
                                   oneItemStore))
  = map calculateStock oneItemStore.
Proof.
  apply add_then_delete_restores_stock.
  intros item [<-|[]] _ t [<-|[]]. reflexivity.
Defined.

(** C8 as stated fails when the generated identifier collides with the
    identifier of a transaction of the item: the deletion removes both,
    and a stock of 5 becomes 0. *)
Lemma add_then_delete_id_collision :
  map calculateStock
      (App.handleDeleteTransaction L"item-1" L"t-1"
         (App.handleAddTransaction L"item-1" (plainData purchase 3) L"t-1"
                                   oneItemStore))
  <> map calculateStock oneItemStore.
Proof. intros H. vm_compute in H. discriminate H. Qed.

(* ================================================================= *)
(** ** Character classes *)

Ltac char_cases a :=
  destruct a as [[] [] [] [] [] [] [] []]; try reflexivity; try discriminate.

Lemma digit_not_space (a : ascii) : isDigit a = true -> isWhiteSpace a = false.
Proof. char_cases a. Qed.

Lemma digit_not_tilde (a : ascii) : isDigit a = true -> isTilde a = false.
Proof. char_cases a. Qed.

Lemma digit_is_dot (a : ascii) : isDigit a = true -> isDot a = true.
Proof. char_cases a. Qed.

Lemma letter_not_digit (a : ascii) : isLetter a = true -> isDigit a = false.
Proof. char_cases a. Qed.

Lemma space_not_tilde (a : ascii) : isWhiteSpace a = true -> isTilde a = false.
Proof. char_cases a. Qed.

Lemma tilde_not_space (a : ascii) : isTilde a = true -> isWhiteSpace a = false.
Proof. char_cases a. Qed.

Lemma tilde_not_digit (a : ascii) : isTilde a = true -> isDigit a = false.
Proof. char_cases a. Qed.

Lemma dropWhile_nil_iff (p : ascii -> bool) (s : str) :
  dropWhile p s = [] <-> forallb p s = true.
Proof.
  induction s as [|a s IH]; simpl; [tauto|].
  destruct (p a); simpl; [exact IH|]. split; discriminate.
Qed.

Lemma dropWhile_all (p : ascii -> bool) (u v : str) :
  forallb p u = true -> dropWhile p (u ++ v) = dropWhile p v.
Proof.
  induction u as [|a u IH]; simpl; [reflexivity|].
  destruct (p a); simpl; [exact IH|discriminate].
Qed.

Lemma takeWhile_dropWhile (p : ascii -> bool) (s : str) :
  takeWhile p s ++ dropWhile p s = s.
Proof.
  induction s as [|a s IH]; simpl; [reflexivity|].
  destruct (p a); simpl; [now rewrite IH|reflexivity].
Qed.

Lemma firstn_takeWhile (p : ascii -> bool) (s : str) :
  firstn (length s - length (dropWhile p s)) s = takeWhile p s.
Proof.
  rewrite <- (takeWhile_dropWhile p s) at 1 3.
  rewrite length_app, Nat.add_sub.
  rewrite firstn_app, Nat.sub_diag, firstn_all. simpl. apply app_nil_r.
Qed.

(* ================================================================= *)
(** ** The matcher on the shapes the patterns use *)

Module RegexFacts.

Import Regex.

Lemma run_Star (greedy : bool) (r1 : Regex.t) (k : cont) (s : str) (c : caps) :
  run (Star greedy r1) k s c = starLoop greedy r1 k (length s) s c.
Proof. reflexivity. Qed.

Lemma run_Cat (r1 r2 : Regex.t) (k : cont) (s : str) (c : caps) :
  run (Cat r1 r2) k s c = run r1 (run r2 k) s c.
Proof. reflexivity. Qed.

Lemma run_Plus (greedy : bool) (r1 : Regex.t) (k : cont) (s : str) (c : caps) :
  run (Plus greedy r1) k s c = run r1 (run (Star greedy r1) k) s c.
Proof. reflexivity. Qed.

Lemma run_Class (p : ascii -> bool) (k : cont) (s : str) (c : caps) :
  run (Class p) k s c =
  match s with
  | a :: s' => if p a then k s' c else None
  | [] => None
  end.
Proof. reflexivity. Qed.

Lemma run_Group (i : nat) (r1 : Regex.t) (k : cont) (s : str) (c : caps) :
  run (Group i r1) k s c =
  run r1 (fun s' c' => k s' (setCap i (firstn (length s - length s') s) c')) s c.
Proof. reflexivity. Qed.

Lemma run_Opt (r1 : Regex.t) (k : cont) (s : str) (c : caps) :
  run (Opt r1) k s c =
  match run r1 (fun s' c' =>
                  if (length s' <? length s)%nat then k s' c' else None) s c
  with
  | Some m => Some m
  | None => k s c
  end.
Proof. reflexivity. Qed.

Lemma run_Eos (k : cont) (s : str) (c : caps) :
  run Eos k s c = match s with [] => k s c | _ :: _ => None end.
Proof. reflexivity. Qed.

Section ClassStar.

Variable p : ascii -> bool.
Variable k : cont.

(** Greedy [[p]*] before such a continuation: the whole run of [p] is
    taken. *)
Lemma starLoop_greedy_class (n : nat) (s : str) (c : caps) :
  rejectsHead p k -> (length s <= n)%nat ->
  starLoop true (Class p) k n s c = k (dropWhile p s) c.
Proof.
  intros Hk. revert s c.
  induction n as [|n IH]; intros [|a s] c Hlen; simpl in *; try reflexivity;
    try lia.
  destruct (p a) eqn:Pa; [|reflexivity].
  replace (length s <? S (length s))%nat with true
    by (symmetry; apply Nat.ltb_lt; lia).
  rewrite (IH s c) by lia.
  destruct (k (dropWhile p s) c); [reflexivity|].
  now apply Hk.
Qed.

Lemma run_greedy_class (s : str) (c : caps) :
  rejectsHead p k -> run (Star true (Class p)) k s c = k (dropWhile p s) c.
Proof.
  intros Hk. rewrite run_Star. now apply starLoop_greedy_class.
Qed.

(** [[p]*] on an input whose head is not in the class takes nothing. *)
Lemma run_star_class_stop (greedy : bool) (s : str) (c : caps) :
  match s with [] => True | a :: _ => p a = false end ->
  run (Star greedy (Class p)) k s c = k s c.
Proof.
  rewrite run_Star. destruct s as [|a s]; simpl.
  - intros _. destruct greedy; [reflexivity|now destruct (k [] c)].
  - intros ->. destruct greedy; [reflexivity|now destruct (k (a :: s) c)].
Qed.

(** Lazy [[p]*?]: the shortest run after which the continuation succeeds
    is taken. *)
Lemma starLoop_lazy_class (n : nat) (u v : str) (c : caps) (m : caps) :
  (length (u ++ v) <= n)%nat ->
  forallb p u = true ->
  k v c = Some m ->
  (forall w0 w, u = w0 ++ w -> w <> [] -> k (w ++ v) c = None) ->
  starLoop false (Class p) k n (u ++ v) c = Some m.
Proof.
  revert n. induction u as [|a u IH]; intros n Hlen Hu Hv Hfail.
  - destruct n; simpl; now rewrite Hv.
  - simpl in Hu. apply andb_true_iff in Hu as [Pa Hu].
    destruct n as [|n]; [simpl in Hlen; lia|].
    cbn [starLoop app]. change (a :: u ++ v) with ((a :: u) ++ v).
    rewrite (Hfail [] (a :: u) eq_refl) by discriminate.
    cbn [run app]. rewrite Pa.
    replace (length (u ++ v) <? length (a :: u ++ v))%nat with true
      by (symmetry; apply Nat.ltb_lt; simpl; lia).
    apply IH; try assumption.
    + simpl in Hlen. lia.
    + intros w0 w -> Hw. apply (Hfail (a :: w0) w eq_refl Hw).
Qed.

End ClassStar.

End RegexFacts.

(* ================================================================= *)
(** ** Doubles *)

Module NumberFacts.
Import Number.

(** Up to 2^53 the doubles are the integers: an integer is its own
    double, one more is one more, and [toString] writes all the digits. *)
Lemma ofZ_exact (z : Z) : Z.abs z <= 2 ^ 53 -> ofZ z = Fin z.
Proof.
  intros H. unfold ofZ.
  now replace (Z.abs z <=? 2 ^ 53) with true
    by (symmetry; apply Z.leb_le; exact H).
Qed.

Lemma add_one_exact (z : Z) :
  0 <= z < 2 ^ 53 -> add (Fin z) (Fin 1) = Fin (z + 1).
Proof. intros H. cbn [add]. apply ofZ_exact. lia. Qed.

Lemma toString_exact (z : Z) :
  0 <= z <= 2 ^ 53 -> toString (Fin z) = JS.toString z.
Proof.
  intros H. unfold toString, toStringPos.
  replace (z <? 0) with false by (symmetry; apply Z.ltb_ge; lia).
  now replace (z <=? 2 ^ 53) with true by (symmetry; apply Z.leb_le; lia).
Qed.

(** The unit of the last of 53 leading bits of a number of [e + 1] bits. *)
Lemma unit_bounds (e : Z) :
  53 <= e ->
  2 <= 2 ^ (e - 52) /\ 2 ^ e = 2 ^ 52 * 2 ^ (e - 52) /\
  2 ^ (e + 1 - 52) = 2 * 2 ^ (e - 52).
Proof.
  intros He. split; [|split].
  - change 2 with (2 ^ 1) at 1. apply Z.pow_le_mono_r; lia.
  - rewrite <- Z.pow_add_r by lia. f_equal. lia.
  - replace (e + 1 - 52) with (Z.succ (e - 52)) by lia.
    apply Z.pow_succ_r. lia.
Qed.

(** The rounding of an integer given by its 53 leading bits [q] and its
    rest [r]. *)
Lemma round_of (e q r : Z) :
  53 <= e -> 2 ^ 52 <= q < 2 ^ 53 -> 0 <= r < 2 ^ (e - 52) ->
  round (q * 2 ^ (e - 52) + r) =
  if 2 * r <? 2 ^ (e - 52) then q * 2 ^ (e - 52)
  else if 2 ^ (e - 52) <? 2 * r then (q + 1) * 2 ^ (e - 52)
  else if Z.even q then q * 2 ^ (e - 52) else (q + 1) * 2 ^ (e - 52).
Proof.
  intros He Hq Hr. destruct (unit_bounds e He) as (Hu & He2 & _).
  set (u := 2 ^ (e - 52)) in *.
  assert (Hlog : Z.log2 (q * u + r) = e).
  { apply Z.log2_unique; [lia|]. rewrite Z.pow_succ_r by lia. rewrite He2. nia. }
  unfold round. rewrite Hlog. fold u.
  assert (Q : (q * u + r) / u = q).
  { symmetry. apply (Z.div_unique_pos _ _ _ r); [lia|]. ring. }
  assert (R : (q * u + r) mod u = r).
  { symmetry. apply (Z.mod_unique_pos _ _ q r); [lia|]. ring. }
  rewrite Q, R. reflexivity.
Qed.

(** Every integer above 2^53 splits into 53 leading bits and a rest. *)
Lemma leading_bits (z : Z) :
  2 ^ 53 < z ->
  exists e q r,
    53 <= e /\ 2 ^ 52 <= q < 2 ^ 53 /\ 0 <= r < 2 ^ (e - 52) /\
    z = q * 2 ^ (e - 52) + r.
Proof.
  intros Hz. set (e := Z.log2 z).
  assert (Hpos : 0 < z) by lia.
  destruct (Z.log2_spec z Hpos) as [Lo Hi]. fold e in Lo, Hi.
  assert (He : 53 <= e).
  { destruct (Z_lt_le_dec e 53) as [C|C]; [|exact C]. exfalso.
    assert (2 ^ Z.succ e <= 2 ^ 53) by (apply Z.pow_le_mono_r; lia). lia. }
  destruct (unit_bounds e He) as (Hu & He2 & _).
  rewrite Z.pow_succ_r in Hi by lia. rewrite He2 in Lo, Hi.
  set (u := 2 ^ (e - 52)) in *.
  exists e, (z / u), (z mod u).
  pose proof (Z.div_mod z u ltac:(lia)) as D.
  pose proof (Z.mod_pos_bound z u ltac:(lia)) as M.
  split; [exact He|]. split; [|split; [exact M|lia]].
  split.
  - apply Z.div_le_lower_bound; lia.
  - apply Z.div_lt_upper_bound; lia.
Qed.


(** [ofZ] on a positive integer above 2^53. *)
Lemma ofZ_above (v : Z) :
  2 ^ 53 < v ->
  ofZ v = if round v <? 2 ^ 1024 then Fin (round v) else Inf false.
Proof.
  intros H. unfold ofZ.
  replace (Z.abs v <=? 2 ^ 53) with false by (symmetry; apply Z.leb_gt; lia).
  rewrite Z.abs_eq by lia. rewrite Z.sgn_pos by lia.
  replace (v <? 0) with false by (symmetry; apply Z.ltb_ge; lia).
  cbv zeta. now rewrite Z.mul_1_l.
Qed.

(** A wide double is 2^53 at least, and is its own double. *)
Lemma wide_ge (z : Z) : wideDouble z -> 2 ^ 53 <= z.
Proof.
  intros (e & q & He & Hq & -> & _).
  destruct (unit_bounds e He) as (Hu & _). nia.
Qed.

Lemma wide_double (z : Z) : wideDouble z -> ofZ z = Fin z.
Proof.
  intros W. pose proof (wide_ge z W) as Hz.
  destruct W as (e & q & He & Hq & -> & Hlt).
  destruct (unit_bounds e He) as (Hu & _).
  destruct (Z.eq_dec (q * 2 ^ (e - 52)) (2 ^ 53)) as [E|N].
  - apply ofZ_exact. rewrite E. simpl. lia.
  - rewrite ofZ_above by lia.
    assert (R : round (q * 2 ^ (e - 52)) = q * 2 ^ (e - 52)).
    { pose proof (round_of e q 0 He Hq ltac:(lia)) as R.
      rewrite Z.add_0_r in R. rewrite R.
      now replace (2 * 0 <? 2 ^ (e - 52)) with true
        by (symmetry; apply Z.ltb_lt; lia). }
    rewrite R.
    now replace (q * 2 ^ (e - 52) <? 2 ^ 1024) with true
      by (symmetry; apply Z.ltb_lt; lia).
Qed.

(** The double of an integer above 2^53 is a wide double or infinity. *)
Lemma ofZ_wide (v : Z) :
  2 ^ 53 < v -> (exists z, ofZ v = Fin z /\ wideDouble z) \/ ofZ v = Inf false.
Proof.
  intros Hv. rewrite ofZ_above by assumption.
  destruct (round v <? 2 ^ 1024) eqn:B; [left|now right].
  apply Z.ltb_lt in B. exists (round v). split; [reflexivity|].
  destruct (leading_bits v Hv) as (e & q & r & He & Hq & Hr & ->).
  destruct (unit_bounds e He) as (Hu & He2 & He3).
  rewrite round_of in B |- * by assumption.
  assert (Up : 2 ^ 53 <= q + 1 -> (q + 1) * 2 ^ (e - 52) < 2 ^ 1024 ->
               wideDouble ((q + 1) * 2 ^ (e - 52))).
  { intros Hq1 Hb. assert (q + 1 = 2 ^ 53) as E by lia.
    exists (e + 1), (2 ^ 52). split; [lia|]. split; [simpl; lia|].
    split; [|exact Hb]. rewrite He3, E.
    change (2 ^ 53) with (2 ^ 52 * 2). ring. }
  assert (Same : forall q', 2 ^ 52 <= q' < 2 ^ 53 ->
                            q' * 2 ^ (e - 52) < 2 ^ 1024 ->
                            wideDouble (q' * 2 ^ (e - 52))).
  { intros q' Hq' Hb. exists e, q'. auto. }
  assert (Next : (q + 1) * 2 ^ (e - 52) < 2 ^ 1024 ->
                 wideDouble ((q + 1) * 2 ^ (e - 52))).
  { intros Hb. destruct (Z_lt_le_dec (q + 1) (2 ^ 53)) as [C|C].
    - apply Same; [lia|exact Hb].
    - now apply Up. }
  destruct (2 * r <? 2 ^ (e - 52)); [now apply Same|].
  destruct (2 ^ (e - 52) <? 2 * r); [now apply Next|].
  destruct (Z.even q); [now apply Same|now apply Next].
Qed.

(** One more than a wide double is the same double, or the next one,
    which is then followed by itself. *)
Lemma wide_succ (z : Z) :
  wideDouble z ->
  add (Fin z) (Fin 1) = Fin z \/
  (add (Fin z) (Fin 1) = Fin (z + 2) /\ wideDouble (z + 2) /\
   add (Fin (z + 2)) (Fin 1) = Fin (z + 2)).
Proof.
  intros W. pose proof (wide_ge z W) as Hz.
  destruct W as (e & q & He & Hq & -> & Hlt).
  destruct (unit_bounds e He) as (Hu & He2 & He3).
  cbn [add]. rewrite ofZ_above by lia. rewrite round_of by lia.
  destruct (2 * 1 <? 2 ^ (e - 52)) eqn:B.
  { left. now replace (q * 2 ^ (e - 52) <? 2 ^ 1024) with true
      by (symmetry; apply Z.ltb_lt; lia). }
  apply Z.ltb_ge in B.
  assert (U : 2 ^ (e - 52) = 2) by lia.
  assert (E : e = 53).
  { destruct (Z.eq_dec e 53) as [C|C]; [exact C|]. exfalso.
    destruct (unit_bounds (e - 1)) as (Hu' & _ & He3'); [lia|].
    replace (e - 1 + 1 - 52) with (e - 52) in He3' by lia. lia. }
  subst e. rewrite U in *.
  replace (2 <? 2 * 1) with false by reflexivity.
  destruct (Z.even q) eqn:Ev.
  { left. now replace (q * 2 <? 2 ^ 1024) with true
      by (symmetry; apply Z.ltb_lt; lia). }
  right.
  assert (Big : 2 ^ 54 < 2 ^ 1024) by reflexivity.
  assert (H54 : 2 ^ 54 = 2 ^ 53 * 2) by reflexivity.
  replace ((q + 1) * 2 <? 2 ^ 1024) with true by (symmetry; apply Z.ltb_lt; lia).
  replace (q * 2 + 2) with ((q + 1) * 2) by ring.
  split; [reflexivity|].
  assert (Ev' : Z.even (q + 1) = true).
  { rewrite Z.even_add, Ev. reflexivity. }
  destruct (Z_lt_le_dec (q + 1) (2 ^ 53)) as [C|C].
  - split.
    + exists 53, (q + 1). rewrite U. repeat split; lia.
    + rewrite ofZ_above by lia.
      pose proof (round_of 53 (q + 1) 1) as R. rewrite U in R.
      rewrite R by lia.
      replace (2 * 1 <? 2) with false by reflexivity.
      replace (2 <? 2 * 1) with false by reflexivity.
      rewrite Ev'.
      now replace ((q + 1) * 2 <? 2 ^ 1024) with true
        by (symmetry; apply Z.ltb_lt; lia).
  - assert (q + 1 = 2 ^ 53) as -> by lia.
    split.
    + exists 54, (2 ^ 52). repeat split; simpl; lia.
    + reflexivity.
Qed.

(** [x >= 100] on the double of a difference. *)
Lemma geb_ofZ_100 (d : Z) : 0 <= d -> geb (ofZ d) (Fin 100) = (100 <=? d).
Proof.
  intros Hd. destruct (Z_le_gt_dec d (2 ^ 53)) as [C|C].
  - rewrite ofZ_exact by lia. unfold geb, leb, ltb.
    rewrite Z.leb_antisym. reflexivity.
  - replace (100 <=? d) with true by (symmetry; apply Z.leb_le; lia).
    destruct (ofZ_wide d) as [(z & -> & W)| ->]; [lia| |reflexivity].
    apply wide_ge in W. unfold geb, leb, ltb.
    apply negb_true_iff, Z.ltb_ge. lia.
Qed.

End NumberFacts.

Module PatternFacts.

Import Regex RegexFacts NumberFacts.

(** [(\d+)$] as the [i]-th group: the rest of the input must be a
    non-empty run of digits, which the group captures. *)
Lemma run_digits_to_end (i : nat) (k : cont) (s : str) (c : caps) :
  run (Cat (Group i (Plus true (Class isDigit))) Eos) k s c =
  if truthy s && forallb isDigit s then k [] (setCap i s c) else None.
Proof.
  rewrite run_Cat, run_Group, run_Plus, run_Class.
  destruct s as [|a s]; [reflexivity|].
  cbn [truthy andb forallb].
  destruct (isDigit a) eqn:Da; [|reflexivity].
  cbn [andb].
  rewrite run_greedy_class.
  - destruct (dropWhile isDigit s) eqn:E.
    + apply dropWhile_nil_iff in E. rewrite E.
      cbn [length]. rewrite Nat.sub_0_r.
      change (S (length s)) with (length (a :: s)). now rewrite firstn_all.
    + destruct (forallb isDigit s) eqn:F; [|reflexivity].
      apply dropWhile_nil_iff in F. congruence.
  - intros b t c' _. now rewrite run_Eos.
Qed.

(** [parseInt] on a non-empty run of digits reads all of it. *)
Lemma parseInt_digits (s : str) :
  truthy s = true -> forallb isDigit s = true ->
  parseInt s = Some (digitsValue s).
Proof.
  destruct s as [|a s]; [discriminate|]. intros _ H.
  assert (T : takeWhile isDigit (a :: s) = a :: s).
  { rewrite <- (takeWhile_dropWhile isDigit (a :: s)) at 2.
    apply dropWhile_nil_iff in H. rewrite H. now rewrite app_nil_r. }
  simpl in H. apply andb_true_iff in H as [Da _].
  unfold parseInt. cbn [dropWhile].
  rewrite (digit_not_space a Da).
  replace (code a =? 45)%nat with false by (clear T; revert Da; char_cases a).
  replace (code a =? 43)%nat with false by (clear T; revert Da; char_cases a).
  rewrite T. f_equal. lia.
Qed.

(** The pattern of [suggestNextSerial] splits its input into the leading
    letters and the rest, which has to be a non-empty run of digits. *)
Lemma exec_serialPattern (u : str) :
  exec serialPattern u =
  let letters := takeWhile isLetter u in
  let digits := dropWhile isLetter u in
  if truthy letters && truthy digits && forallb isDigit digits then
    Some (setCap 2 digits (setCap 1 letters noCaps))
  else None.
Proof.
  unfold exec, serialPattern.
  rewrite run_Cat, run_Group, run_Plus, run_Class.
  destruct u as [|a u]; [reflexivity|].
  cbn [takeWhile dropWhile].
  destruct (isLetter a) eqn:La; [|reflexivity].
  cbn [truthy andb].
  rewrite run_greedy_class.
  - rewrite run_digits_to_end.
    replace (firstn (length (a :: u) - length (dropWhile isLetter u)) (a :: u))
      with (a :: takeWhile isLetter u); [reflexivity|].
    pose proof (firstn_takeWhile isLetter (a :: u)) as H.
    cbn [dropWhile takeWhile] in H. rewrite La in H. now rewrite H.
  - intros b t c' Lb.
    rewrite run_Cat, run_Group, run_Plus, run_Class.
    now rewrite (letter_not_digit b Lb).
Qed.

Lemma starLoop_lazy_now (r1 : Regex.t) (k : cont) (n : nat) (s : str)
    (c m : caps) :
  k s c = Some m -> starLoop false r1 k n s c = Some m.
Proof. destruct n; simpl; intros ->; reflexivity. Qed.

Lemma firstn_drop_length {A : Type} (u v : list A) :
  firstn (length (u ++ v) - length v) (u ++ v) = u.
Proof.
  rewrite length_app, Nat.add_sub, firstn_app, Nat.sub_diag, firstn_all.
  simpl. apply app_nil_r.
Qed.

Lemma run_rangeTail_digits (e : ascii) (d : str) (c : caps) :
  forallb isDigit (e :: d) = true ->
  run rangeTail (fun (_ : str) (c0 : caps) => Some c0) (e :: d) c =
  Some (match d with
        | [] => setCap 4 [e] c
        | _ :: _ => setCap 4 d (setCap 3 [e] c)
        end).
Proof.
  intros H. pose proof H as H'. cbn [forallb] in H'.
  apply andb_true_iff in H' as [De Hd].
  unfold rangeTail.
  rewrite run_Cat, run_Opt, run_Group, run_Plus, run_Class.
  rewrite (digit_is_dot e De), run_Star.
  destruct d as [|b d].
  - cbn [starLoop length]. rewrite !run_digits_to_end.
    cbn [truthy andb Nat.ltb Nat.leb]. now rewrite H.
  - erewrite starLoop_lazy_now; [reflexivity|].
    cbv beta.
    replace (length (b :: d) <? length (e :: b :: d))%nat with true
      by (symmetry; apply Nat.ltb_lt; simpl; lia).
    change (e :: b :: d) with ([e] ++ b :: d).
    rewrite (firstn_drop_length [e] (b :: d)).
    rewrite run_digits_to_end. cbn [truthy andb]. now rewrite Hd.
Qed.

(** What follows the first group, on [d1 ~ d2] with two non-empty runs of digits. *)
Lemma run_rangeRest_digits (b e : ascii) (d1 d2 : str) (c : caps) :
  forallb isDigit (b :: d1) = true ->
  forallb isDigit (e :: d2) = true ->
  run rangeRest (fun (_ : str) (c0 : caps) => Some c0) ((b :: d1) ++ L"~" ++ e :: d2) c =
  Some (match d2 with
        | [] => setCap 4 [e] (setCap 2 (b :: d1) c)
        | _ :: _ => setCap 4 d2 (setCap 3 [e] (setCap 2 (b :: d1) c))
        end).
Proof.
  intros H1 H2. pose proof H1 as H1'. cbn [forallb] in H1'.
  apply andb_true_iff in H1' as [Db Hd1].
  pose proof H2 as H2'. cbn [forallb] in H2'.
  apply andb_true_iff in H2' as [De Hd2].
  unfold rangeRest.
  rewrite run_Cat, run_Group, run_Plus, run_Class.
  cbn [app]. rewrite Db.
  rewrite run_greedy_class.
  - rewrite (dropWhile_all isDigit d1 _ Hd1).
    change (L"~" ++ e :: d2) with ("~"%char :: e :: d2).
    cbn [dropWhile]. change (isDigit "~") with false. cbv iota.
    change (b :: d1 ++ "~"%char :: e :: d2) with ((b :: d1) ++ "~"%char :: e :: d2).
    rewrite firstn_drop_length.
    rewrite run_Cat, run_star_class_stop by reflexivity.
    rewrite run_Cat, run_Class. change (isTilde "~") with true. cbv iota.
    rewrite run_Cat, run_star_class_stop by (now apply digit_not_space).
    rewrite run_rangeTail_digits by assumption.
    now destruct d2.
  - intros a t c' Da.
    rewrite run_Cat, run_star_class_stop by (now apply digit_not_space).
    rewrite run_Cat, run_Class. now rewrite (digit_not_tilde a Da).
Qed.

Lemma dropWhile_app_stop (p : ascii -> bool) (u v : str) :
  forallb p u = false -> dropWhile p (u ++ v) = dropWhile p u ++ v.
Proof.
  induction u as [|a u IH]; simpl; [discriminate|].
  destruct (p a); simpl; [exact IH|reflexivity].
Qed.

Lemma existsb_dropWhile (p q : ascii -> bool) (u : str) :
  existsb p u = false -> existsb p (dropWhile q u) = false.
Proof.
  induction u as [|a u IH]; simpl; [reflexivity|].
  intros H. apply orb_false_iff in H as [Ha Hu].
  destruct (q a); [now apply IH|]. simpl. now rewrite Ha, Hu.
Qed.

(** After the white space at the head of a tilde-free text followed by a
    digit comes a character that is not a tilde. *)
Lemma no_tilde_after_spaces (t : str) (d : ascii) (rest : str) :
  existsb isTilde t = false -> isDigit d = true ->
  match dropWhile isWhiteSpace (t ++ d :: rest) with
  | [] => False
  | y :: _ => isTilde y = false
  end.
Proof.
  intros Ht Dd. induction t as [|a t IH]; simpl.
  - rewrite (digit_not_space d Dd). now apply digit_not_tilde.
  - simpl in Ht. apply orb_false_iff in Ht as [Ha Ht].
    destruct (isWhiteSpace a); [now apply IH|assumption].
Qed.

(** What follows the first group does not match at a tilde-free text that
    holds a character other than a digit and is followed by a digit. *)
Lemma run_rangeRest_fails (k : cont) (w : str) (d : ascii) (rest : str) (c : caps) :
  forallb isDigit w = false -> existsb isTilde w = false -> isDigit d = true ->
  run rangeRest k (w ++ d :: rest) c = None.
Proof.
  intros Hw Ht Dd. unfold rangeRest.
  rewrite run_Cat, run_Group, run_Plus, run_Class.
  destruct w as [|x w]; [discriminate|]. cbn [app].
  simpl in Hw, Ht. apply orb_false_iff in Ht as [_ Ht].
  destruct (isDigit x) eqn:Dx; [|reflexivity]. simpl in Hw.
  assert (R : forall (r' : Regex.t) (k' : cont) s c',
             match dropWhile isWhiteSpace s with
             | [] => False
             | y :: _ => isTilde y = false
             end ->
             run (Cat (Star true (Class isWhiteSpace)) (Cat (Class isTilde) r'))
                 k' s c' = None).
  { intros r' k' s c' Hs. rewrite run_Cat, run_greedy_class.
    - rewrite run_Cat, run_Class.
      destruct (dropWhile isWhiteSpace s) as [|y s']; [reflexivity|].
      now rewrite Hs.
    - intros a s' c'' Wa. rewrite run_Cat, run_Class.
      now rewrite (space_not_tilde a Wa). }
  rewrite run_greedy_class.
  - rewrite dropWhile_app_stop by assumption.
    apply R. apply no_tilde_after_spaces; [|assumption].
    now apply existsb_dropWhile.
  - intros a s c' Da. apply R. cbn [dropWhile].
    rewrite (digit_not_space a Da). now apply digit_not_tilde.
Qed.

Lemma last_suffix_not_digit (w0 w : str) :
  isDigit (last (w0 ++ w) char0) = false -> w <> [] ->
  forallb isDigit w = false.
Proof.
  intros H Hw.
  assert (E : last (w0 ++ w) char0 = last w char0).
  { clear H. induction w0 as [|a w0 IH]; [reflexivity|].
    cbn [app]. destruct (w0 ++ w) eqn:E0.
    - apply app_eq_nil in E0 as [_ ->]. contradiction.
    - rewrite <- IH. reflexivity. }
  rewrite E in H. clear E Hw.
  induction w as [|a w IH]; [vm_compute in H; discriminate H|].
  cbn [forallb]. destruct w as [|b w].
  - simpl in H. now rewrite H.
  - rewrite IH by exact H. apply andb_false_r.
Qed.

(** The range pattern on [p d1 ~ d2]: the first group is [p], the second
    [d1]; when [d2] has two digits or more, the optional third group takes
    its first digit and the fourth group the others. *)
Lemma exec_rangePattern_digits (p : str) (b e : ascii) (d1 d2 : str) :
  forallb isDot p = true -> existsb isTilde p = false ->
  isDigit (last p char0) = false ->
  forallb isDigit (b :: d1) = true ->
  forallb isDigit (e :: d2) = true ->
  exec rangePattern (p ++ (b :: d1) ++ L"~" ++ e :: d2) =
  Some (match d2 with
        | [] => setCap 4 [e] (setCap 2 (b :: d1) (setCap 1 p noCaps))
        | _ :: _ => setCap 4 d2 (setCap 3 [e]
                      (setCap 2 (b :: d1) (setCap 1 p noCaps)))
        end).
Proof.
  intros Hdot Hno Hlast H1 H2.
  destruct p as [|a p]; [discriminate Hlast|].
  cbn [forallb] in Hdot. apply andb_true_iff in Hdot as [Da Hdot].
  cbn [existsb] in Hno. apply orb_false_iff in Hno as [_ Hno].
  unfold exec, rangePattern.
  rewrite run_Cat, run_Group, run_Plus, run_Class. cbn [app]. rewrite Da.
  rewrite run_Star. apply starLoop_lazy_class.
  - apply le_n.
  - assumption.
  - cbv beta.
    pose proof (firstn_drop_length (a :: p) (b :: d1 ++ L"~" ++ e :: d2)) as E.
    cbn [app] in E. rewrite E.
    now apply run_rangeRest_digits.
  - intros w0 w -> Hw. cbn [app].
    apply run_rangeRest_fails.
    + apply (last_suffix_not_digit (a :: w0) w Hlast Hw).
    + rewrite existsb_app in Hno. now apply orb_false_iff in Hno as [_ ?].
    + cbn [forallb] in H1. now apply andb_true_iff in H1 as [? _].
Qed.

Lemma run_needsTilde (r : Regex.t) :
  forall k, needsTilde k -> needsTilde (run r k).
Proof.
  induction r as [p|r1 IH1 r2 IH2|g r1 IH1|r1 IH1|i r1 IH1|];
    intros k Hk s c Hs.
  - rewrite run_Class. destruct s as [|a s]; [reflexivity|].
    simpl in Hs. apply orb_false_iff in Hs as [_ Hs].
    destruct (p a); [now apply Hk|reflexivity].
  - rewrite run_Cat. apply IH1; [|assumption]. now apply IH2.
  - rewrite run_Star. generalize (length s) as n. intros n.
    revert s c Hs.
    induction n as [|n IHn]; intros s c Hs; cbn [starLoop];
      rewrite (Hk s c Hs); [now destruct g|].
    assert (E : run r1 (fun s' c' =>
                          if (length s' <? length s)%nat
                          then starLoop g r1 k n s' c' else None) s c = None).
    { apply IH1; [|assumption].
      intros s' c' Hs'. destruct (length s' <? length s)%nat; [|reflexivity].
      now apply IHn. }
    rewrite E. now destruct g.
  - rewrite run_Opt. rewrite IH1; [now apply Hk| |assumption].
    intros s' c' Hs'. destruct (length s' <? length s)%nat; [|reflexivity].
    now apply Hk.
  - rewrite run_Group. apply IH1; [|assumption].
    intros s' c' Hs'. now apply Hk.
  - rewrite run_Eos. destruct s; [now apply Hk|reflexivity].
Qed.

(** An input without a tilde does not match the range pattern. *)
Lemma exec_rangePattern_no_tilde (input : str) :
  includesChar input isTilde = false -> exec rangePattern input = None.
Proof.
  intros H. unfold exec, rangePattern, rangeRest.
  rewrite run_Cat. apply run_needsTilde; [|exact H].
  intros s c Hs. rewrite run_Cat. apply run_needsTilde; [|exact Hs].
  intros s1 c1 Hs1. rewrite run_Cat. apply run_needsTilde; [|exact Hs1].
  intros s2 c2 Hs2. rewrite run_Cat, run_Class.
  destruct s2 as [|a s2]; [reflexivity|].
  simpl in Hs2. apply orb_false_iff in Hs2 as [-> _]. reflexivity.
Qed.

Lemma zrange_length (a : Z) (n : nat) : length (zrange a n) = n.
Proof. revert a; induction n; intros a; simpl; [reflexivity|now rewrite IHn]. Qed.

Lemma zrange_In (a : Z) (n : nat) (i : Z) :
  In i (zrange a n) -> a <= i < a + Z.of_nat n.
Proof.
  revert a; induction n as [|n IH]; intros a; simpl; [tauto|].
  intros [<-|H]; [lia|]. apply IH in H. lia.
Qed.

Lemma zrange_NoDup (a : Z) (n : nat) : NoDup (zrange a n).
Proof.
  revert a; induction n as [|n IH]; intros a; simpl; constructor.
  - intros H. apply zrange_In in H. lia.
  - apply IH.
Qed.

(** *** Decimal notation *)

Lemma digitsValue_snoc (u : str) (c : ascii) :
  digitsValue (u ++ [c]) = digitsValue u * 10 + digitVal c.
Proof. unfold digitsValue. now rewrite fold_left_app. Qed.

Lemma digitVal_digitChar (d : Z) : 0 <= d < 10 -> digitVal (digitChar d) = d.
Proof.
  intros H. unfold digitVal, digitChar, code.
  rewrite nat_ascii_embedding by lia. lia.
Qed.

Lemma isDigit_digitChar (d : Z) : 0 <= d < 10 -> isDigit (digitChar d) = true.
Proof.
  intros H. unfold isDigit, inRange, digitChar, code.
  rewrite nat_ascii_embedding by lia.
  apply andb_true_iff; split; apply Nat.leb_le; lia.
Qed.


Lemma digitsOf_spec (fuel : nat) (n : Z) (acc : str) :
  0 <= n < 10 ^ Z.of_nat (S fuel) ->
  exists ds, digitsOf (S fuel) n acc = ds ++ acc /\ digitsValue ds = n /\
             forallb isDigit ds = true /\ ds <> [].
Proof.
  revert n acc. induction fuel as [|f IH]; intros n acc H;
    assert (Hm : 0 <= n mod 10 < 10) by (apply Z.mod_pos_bound; lia);
    pose proof (Z.div_mod n 10 ltac:(lia)) as Hdm.
  - change (10 ^ Z.of_nat 1) with 10 in H.
    assert (E : n / 10 = 0) by (apply Z.div_small; lia).
    exists [digitChar (n mod 10)].
    split; [|split; [|split]].
    + cbn [digitsOf]. rewrite E. reflexivity.
    + unfold digitsValue. cbn [fold_left].
      rewrite digitVal_digitChar by assumption. lia.
    + cbn [forallb]. now rewrite isDigit_digitChar.
    + discriminate.
  - remember (S f) as g eqn:Eg.
    cbn [digitsOf]. destruct (n / 10 =? 0) eqn:E.
    + apply Z.eqb_eq in E. exists [digitChar (n mod 10)].
      split; [|split; [|split]].
      * reflexivity.
      * unfold digitsValue. cbn [fold_left].
        rewrite digitVal_digitChar by assumption. lia.
      * cbn [forallb]. now rewrite isDigit_digitChar.
      * discriminate.
    + assert (B : 0 <= n / 10 < 10 ^ Z.of_nat g).
      { split; [apply Z.div_pos; lia|].
        apply Z.div_lt_upper_bound; [lia|].
        rewrite Nat2Z.inj_succ, Z.pow_succ_r in H by lia. exact (proj2 H). }
      subst g.
      destruct (IH (n / 10) (digitChar (n mod 10) :: acc) B)
        as (ds & E1 & E2 & E3 & E4).
      exists (ds ++ [digitChar (n mod 10)]).
      split; [|split; [|split]].
      * rewrite E1, <- app_assoc. reflexivity.
      * rewrite digitsValue_snoc, E2, digitVal_digitChar by assumption. lia.
      * rewrite forallb_app, E3. cbn [forallb]. now rewrite isDigit_digitChar.
      * intros C. apply app_eq_nil in C as [_ C]. discriminate.
Qed.

Lemma toString_spec (n : Z) :
  0 <= n ->
  digitsValue (toString n) = n /\ forallb isDigit (toString n) = true /\
  toString n <> [].
Proof.
  intros H. unfold toString.
  replace (n <? 0) with false by (symmetry; apply Z.ltb_ge; lia).
  destruct (digitsOf_spec (Z.to_nat (Z.log2 n)) n []) as (ds & E & V & D & N).
  - split; [assumption|].
    rewrite Nat2Z.inj_succ, Z2Nat.id by apply Z.log2_nonneg.
    destruct (Z.eq_dec n 0) as [->|Hn]; [reflexivity|].
    apply Z.lt_le_trans with (2 ^ Z.succ (Z.log2 n)).
    + apply Z.log2_spec. lia.
    + apply Z.pow_le_mono_l. pose proof (Z.log2_nonneg n). lia.
  - rewrite E, app_nil_r. auto.
Qed.

Lemma digitsValue_zeros (k : nat) (s : str) :
  digitsValue (repeat char0 k ++ s) = digitsValue s.
Proof.
  unfold digitsValue. rewrite fold_left_app. f_equal.
  induction k as [|k IH]; [reflexivity|]. simpl. exact IH.
Qed.

Lemma digitsValue_padStart (n : Z) (w : nat) :
  0 <= n -> digitsValue (padStart (toString n) w char0) = n.
Proof.
  intros H. unfold padStart. rewrite digitsValue_zeros.
  now apply toString_spec.
Qed.

Lemma renderSerial_NoDup (prefix : str) (padLength : nat) (a : Z) (n : nat) :
  0 <= a -> NoDup (map (renderSerial prefix padLength) (zrange a n)).
Proof.
  intros Ha.
  apply (NoDup_map_inv (fun s => digitsValue (skipn (length prefix) s))).
  rewrite map_map.
  erewrite map_ext_in; [rewrite map_id; apply zrange_NoDup|].
  intros i Hi. apply zrange_In in Hi. unfold renderSerial.
  rewrite skipn_app, Nat.sub_diag, skipn_all. simpl.
  apply digitsValue_padStart. lia.
Qed.

Lemma digitVal_nonneg (c : ascii) : isDigit c = true -> 0 <= digitVal c < 10.
Proof.
  unfold isDigit, inRange, digitVal. intros H.
  apply andb_true_iff in H as [H1 H2].
  apply Nat.leb_le in H1, H2. lia.
Qed.

Lemma fold_digits_nonneg (d : str) (acc : Z) :
  0 <= acc -> forallb isDigit d = true ->
  0 <= fold_left (fun a c => a * 10 + digitVal c) d acc.
Proof.
  revert acc. induction d as [|c d IH]; intros acc Hacc H; simpl;
    [assumption|].
  simpl in H. apply andb_true_iff in H as [Hc Hd].
  apply IH; [|assumption]. pose proof (digitVal_nonneg c Hc). lia.
Qed.

Lemma digitsValue_nonneg (d : str) :
  forallb isDigit d = true -> 0 <= digitsValue d.
Proof. apply fold_digits_nonneg. lia. Qed.

(** *** The loop of the expansion *)

Import Number.

(** Below 2^53 the loop counts: it ends, with one serial per number from
    [a] to [b]. *)
Lemma rangeLoop_exact (fuel : nat) (prefix : str) (padLength : nat)
    (a b : Z) (results : list str) :
  0 <= a <= b + 1 -> b < 2 ^ 53 -> b - a + 1 < Z.of_nat fuel ->
  rangeLoop fuel prefix padLength (Fin a) (Fin b) results =
  Some (results ++ map (renderSerial prefix padLength)
                       (zrange a (Z.to_nat (b - a + 1)))).
Proof.
  revert a results. induction fuel as [|f IH]; intros a results Ha Hb Hf;
    [lia|].
  cbn [rangeLoop]. unfold leb, ltb.
  destruct (b <? a) eqn:C; cbn [negb].
  - apply Z.ltb_lt in C. replace (b - a + 1) with 0 by lia.
    cbn [Z.to_nat zrange map]. now rewrite app_nil_r.
  - apply Z.ltb_ge in C.
    rewrite add_one_exact by lia. rewrite toString_exact by lia.
    rewrite IH by lia.
    replace (Z.to_nat (b - a + 1)) with (S (Z.to_nat (b - (a + 1) + 1))) by lia.
    cbn [zrange map]. rewrite <- app_assoc. reflexivity.
Qed.

(** Once [i + 1] is [i] the loop does not end. *)
Lemma rangeLoop_stuck (fuel : nat) (prefix : str) (padLength : nat)
    (i endNum : Number.t) (results : list str) :
  leb i endNum = true -> add i (Fin 1) = i ->
  rangeLoop fuel prefix padLength i endNum results = None.
Proof.
  intros Hle Hi. revert results.
  induction fuel as [|f IH]; intros results; [reflexivity|].
  cbn [rangeLoop]. rewrite Hle, Hi. apply IH.
Qed.

Lemma add_one_limit : add (Fin (2 ^ 53)) (Fin 1) = Fin (2 ^ 53).
Proof. reflexivity. Qed.

(** A loop that has to go through 2^53 does not end. *)
Lemma rangeLoop_crossing (fuel : nat) (prefix : str) (padLength : nat)
    (a : Z) (endNum : Number.t) (results : list str) :
  0 <= a <= 2 ^ 53 -> leb (Fin (2 ^ 53)) endNum = true ->
  rangeLoop fuel prefix padLength (Fin a) endNum results = None.
Proof.
  intros Ha Hend. revert a results Ha.
  induction fuel as [|f IH]; intros a results Ha; [reflexivity|].
  destruct (Z.eq_dec a (2 ^ 53)) as [->|Hne].
  - apply rangeLoop_stuck; [exact Hend|exact add_one_limit].
  - cbn [rangeLoop].
    assert (leb (Fin a) endNum = true) as ->.
    { destruct endNum as [b|[|]|]; try discriminate; [|reflexivity].
      unfold leb, ltb in *. apply negb_true_iff, Z.ltb_ge.
      apply negb_true_iff, Z.ltb_ge in Hend. lia. }
    rewrite add_one_exact by lia. apply IH. lia.
Qed.

(** From a wide double the loop either does not end, or ends after one
    round. *)
Lemma rangeLoop_wide (prefix : str) (padLength : nat) (z : Z)
    (endNum : Number.t) :
  wideDouble z -> leb (Fin z) endNum = true ->
  (forall fuel results,
      rangeLoop fuel prefix padLength (Fin z) endNum results = None) \/
  (forall fuel results,
      (2 <= fuel)%nat ->
      rangeLoop fuel prefix padLength (Fin z) endNum results =
      Some (results ++
            [prefix ++ padStart (Number.toString (Fin z)) padLength char0])).
Proof.
  intros W Hle. destruct (wide_succ z W) as [Stuck|(Next & W' & Stuck)].
  - left. intros fuel results. now apply rangeLoop_stuck.
  - destruct (leb (Fin (z + 2)) endNum) eqn:Hle'.
    + left. intros [|fuel] results; [reflexivity|].
      cbn [rangeLoop]. rewrite Hle, Next. now apply rangeLoop_stuck.
    + right. intros [|[|fuel]] results Hf; [lia|lia|].
      cbn [rangeLoop]. rewrite Hle, Next, Hle'. reflexivity.
Qed.

End PatternFacts.

Import RegexFacts NumberFacts PatternFacts.

(* ================================================================= *)
(** ** What a match of the range pattern captures *)

Lemma starLoop_class_split (g : bool) (p : ascii -> bool) (k : cont)
    (n : nat) (s : str) (c m : caps) :
  starLoop g (Class p) k n s c = Some m ->
  exists u v, s = u ++ v /\ forallb p u = true /\ k v c = Some m.
Proof.
  revert s. induction n as [|n IH]; intros s H.
  - exists [], s. cbn [starLoop] in H.
    destruct g; [|destruct (k s c)]; try discriminate; auto.
  - cbn [starLoop] in H. rewrite run_Class in H.
    assert (A : forall s', (if (length s' <? length s)%nat
                            then starLoop g (Class p) k n s' c else None)
                           = Some m ->
                           exists u v, s' = u ++ v /\ forallb p u = true /\
                                       k v c = Some m).
    { intros s' Hs'. destruct (length s' <? length s)%nat; [|discriminate].
      now apply IH. }
    assert (B : k s c = Some m ->
                exists u v, s = u ++ v /\ forallb p u = true /\ k v c = Some m)
      by (intros Hk; exists [], s; auto).
    destruct s as [|a s'].
    + destruct g; [|destruct (k [] c) eqn:K]; try discriminate;
        apply B; congruence.
    + destruct (p a) eqn:Pa.
      * assert (A' : (if (length s' <? length (a :: s'))%nat
                      then starLoop g (Class p) k n s' c else None) = Some m ->
                     exists u v, a :: s' = u ++ v /\ forallb p u = true /\
                                 k v c = Some m).
        { intros Hs'. destruct (A s' Hs') as (u & v & -> & Hu & Hk).
          exists (a :: u), v. cbn [forallb app]. rewrite Pa, Hu. auto. }
        destruct g.
        -- destruct (if (length s' <? length (a :: s'))%nat
                     then starLoop true (Class p) k n s' c else None) eqn:E.
           ++ apply A'. congruence.
           ++ now apply B.
        -- destruct (k (a :: s') c) eqn:K.
           ++ apply B. congruence.
           ++ now apply A'.
      * destruct g; [|destruct (k (a :: s') c) eqn:K]; try discriminate;
          apply B; congruence.
Qed.

(** A group [([p]+)], greedy or lazy, captures a non-empty run of [p] at
    the head of the input. *)
Lemma run_group_plus_class (g : bool) (i : nat) (p : ascii -> bool) (k : cont)
    (s : str) (c m : caps) :
  run (Group i (Plus g (Class p))) k s c = Some m ->
  exists u v, s = u ++ v /\ truthy u = true /\ forallb p u = true /\
              k v (setCap i u c) = Some m.
Proof.
  rewrite run_Group, run_Plus, run_Class.
  destruct s as [|a s]; [discriminate|].
  destruct (p a) eqn:Pa; [|discriminate].
  rewrite run_Star. intros H.
  apply starLoop_class_split in H as (u & v & -> & Hu & Hk).
  exists (a :: u), v. cbn [forallb truthy]. rewrite Pa, Hu.
  repeat split. cbv beta in Hk.
  pose proof (firstn_drop_length (a :: u) v) as E. cbn [app] in E.
  now rewrite E in Hk.
Qed.

(** Matching a pattern without a group of index [i] leaves the capture of
    index [i] as it was. *)
Lemma run_keeps_cap (i : nat) (r : Regex.t) :
  hasGroup i r = false ->
  forall k, (forall s c m, k s c = Some m -> m i = c i) ->
  forall s c m, run r k s c = Some m -> m i = c i.
Proof.
  induction r as [p|r1 IH1 r2 IH2|g r1 IH1|r1 IH1|j r1 IH1|];
    cbn [hasGroup]; intros Hg k Hk s c m H.
  - rewrite run_Class in H. destruct s as [|a s]; [discriminate|].
    destruct (p a); [|discriminate]. now apply Hk in H.
  - apply orb_false_iff in Hg as [Hg1 Hg2]. rewrite run_Cat in H.
    apply (IH1 Hg1 (run r2 k)) in H; [assumption|].
    intros s' c' m'. now apply IH2.
  - rewrite run_Star in H. remember (length s) as n eqn:En. clear En.
    revert s c m H.
    induction n as [|n IHn]; intros s c m H; cbn [starLoop] in H.
    + destruct g; [|destruct (k s c) eqn:K]; try discriminate.
      * now apply Hk in H.
      * apply (Hk s c). congruence.
    + assert (A : run r1 (fun s' c' =>
                            if (length s' <? length s)%nat
                            then starLoop g r1 k n s' c' else None) s c = Some m ->
                  m i = c i).
      { intros HH. eapply (IH1 Hg); [|exact HH]. intros s' c' m' Hm'.
        cbv beta in Hm'.
        destruct (length s' <? length s)%nat; [|discriminate].
        exact (IHn _ _ _ Hm'). }
      destruct g.
      * destruct (run r1 _ s c) eqn:E; [apply A; congruence|now apply Hk in H].
      * destruct (k s c) eqn:K; [apply (Hk s c); congruence|now apply A].
  - rewrite run_Opt in H.
    destruct (run r1 _ s c) eqn:E.
    + apply (IH1 Hg) in E; [congruence|].
      intros s' c' m' Hm'. cbv beta in Hm'. destruct (length s' <? length s)%nat; [|discriminate].
      now apply Hk in Hm'.
    + now apply Hk in H.
  - apply orb_false_iff in Hg as [Hj Hg]. rewrite run_Group in H.
    apply (IH1 Hg) in H; [assumption|].
    intros s' c' m' Hm'. apply Hk in Hm'. rewrite Hm'.
    unfold setCap. rewrite Nat.eqb_sym. now rewrite Hj.
  - rewrite run_Eos in H. destruct s; [|discriminate]. now apply Hk in H.
Qed.

(** Whenever the range pattern matches, its second group is a non-empty
    run of digits. *)
Lemma exec_rangePattern_start (input : str) (m : caps) :
  exec rangePattern input = Some m ->
  exists d, m 2%nat = Some d /\ digitRun d = true.
Proof.
  unfold exec, rangePattern. rewrite run_Cat. intros H.
  apply run_group_plus_class in H as (u & v & _ & _ & _ & H).
  unfold rangeRest in H. rewrite run_Cat in H.
  apply run_group_plus_class in H as (d & v' & _ & Td & Hd & H).
  exists d. split; [|unfold digitRun; now rewrite Td, Hd].
  apply (run_keeps_cap 2) in H; [exact H|reflexivity|].
  intros s c m' [= <-]. reflexivity.
Qed.

(* ================================================================= *)
(** ** The suggestion of the next serial *)

(** [parseInt] as a double, on a non-empty run of digits. *)
Lemma Number_parseInt_digits (s : str) :
  truthy s = true -> forallb isDigit s = true ->
  Number.parseInt s = Number.ofZ (digitsValue s).
Proof.
  intros T D. unfold Number.parseInt. now rewrite (parseInt_digits s T D).
Qed.

(** One step of the loop of [suggestNextSerial], in terms of
    [splitSerial], for a number that a double holds as it is. *)
Lemma suggestStep_split (maxNum : Z) (currentPrefix s : str) :
  (forall letters num, splitSerial s = Some (letters, num) -> num <= 2 ^ 53) ->
  suggestStep (Number.Fin maxNum, currentPrefix) s =
  match splitSerial s with
  | Some (letters, num) => (Number.Fin (Z.max maxNum num), letters)
  | None => (Number.Fin maxNum, currentPrefix)
  end.
Proof.
  unfold suggestStep, splitSerial. rewrite exec_serialPattern. cbv zeta.
  destruct (truthy (takeWhile isLetter (toUpperCase s)) &&
            truthy (dropWhile isLetter (toUpperCase s)) &&
            forallb isDigit (dropWhile isLetter (toUpperCase s))) eqn:E;
    [|reflexivity].
  intros Hb. specialize (Hb _ _ eq_refl).
  apply andb_true_iff in E as [E E3]. apply andb_true_iff in E as [E1 E2].
  change (group (setCap 2 (dropWhile isLetter (toUpperCase s))
                   (setCap 1 (takeWhile isLetter (toUpperCase s)) noCaps)) 2)
    with (dropWhile isLetter (toUpperCase s)).
  change (group (setCap 2 (dropWhile isLetter (toUpperCase s))
                   (setCap 1 (takeWhile isLetter (toUpperCase s)) noCaps)) 1)
    with (takeWhile isLetter (toUpperCase s)).
  rewrite Number_parseInt_digits by assumption.
  pose proof (digitsValue_nonneg _ E3) as Hpos.
  rewrite ofZ_exact by lia.
  unfold Number.gtb, Number.ltb.
  destruct (maxNum <? digitsValue (dropWhile isLetter (toUpperCase s))) eqn:C.
  - rewrite Z.max_r; [reflexivity|]. apply Z.ltb_lt in C. lia.
  - rewrite Z.max_l; [reflexivity|]. apply Z.ltb_ge in C. lia.
Qed.

Lemma last_default (l : list str) (x d d' : str) :
  last (x :: l) d = last (x :: l) d'.
Proof.
  revert x. induction l as [|y l IH]; intros x; [reflexivity|].
  change (last (y :: l) d = last (y :: l) d'). apply IH.
Qed.

Lemma fold_suggestStep (usedSerials : list str) (maxNum : Z) (prefix : str) :
  Forall (fun num => num <= 2 ^ 53) (map snd (matchesOf usedSerials)) ->
  fold_left suggestStep usedSerials (Number.Fin maxNum, prefix) =
  (Number.Fin (fold_left Z.max (map snd (matchesOf usedSerials)) maxNum),
   last (map fst (matchesOf usedSerials)) prefix).
Proof.
  revert maxNum prefix.
  induction usedSerials as [|s l IH]; intros maxNum prefix Hb; [reflexivity|].
  unfold matchesOf in Hb. cbn [flat_map] in Hb. fold (matchesOf l) in Hb.
  cbn [fold_left]. rewrite suggestStep_split.
  - unfold matchesOf. cbn [flat_map]. fold (matchesOf l).
    destruct (splitSerial s) as [[letters num]|];
      cbn [app map fst snd fold_left] in Hb |- *.
    + inversion Hb as [|? ? _ Hl]; subst. rewrite (IH _ _ Hl). f_equal.
      destruct (map fst (matchesOf l)) as [|x xs]; [reflexivity|].
      change (last (letters :: x :: xs) prefix) with (last (x :: xs) prefix).
      apply last_default.
    + apply IH. exact Hb.
  - intros letters num E. rewrite E in Hb. cbn [app map snd] in Hb.
    now inversion Hb.
Qed.

Lemma splitSerial_nonneg (s letters : str) (num : Z) :
  splitSerial s = Some (letters, num) -> 0 <= num.
Proof.
  unfold splitSerial.
  destruct (truthy _ && truthy _ && forallb isDigit _) eqn:E; [|discriminate].
  intros [= _ <-]. apply andb_true_iff in E as [_ E].
  now apply digitsValue_nonneg.
Qed.

Lemma matchesOf_nonneg (usedSerials : list str) :
  Forall (fun n => 0 <= n) (map snd (matchesOf usedSerials)).
Proof.
  induction usedSerials as [|s l IH]; [constructor|].
  unfold matchesOf. cbn [flat_map]. fold (matchesOf l).
  destruct (splitSerial s) as [[letters num]|] eqn:E; [|exact IH].
  constructor; [|exact IH]. exact (splitSerial_nonneg _ _ _ E).
Qed.

Lemma fold_max_from_zero (l : list Z) :
  Forall (fun n => 0 <= n) l -> fold_left Z.max l 0 = maximum l.
Proof.
  intros H. destruct H as [|n l Hn Hl]; [reflexivity|].
  cbn [fold_left maximum]. now rewrite Z.max_r.
Qed.

Lemma matchesOf_In (usedSerials : list str) (x : str * Z) :
  In x (matchesOf usedSerials) <->
  exists s, In s usedSerials /\ splitSerial s = Some x.
Proof.
  unfold matchesOf. rewrite in_flat_map. split.
  - intros (s & Hs & H). exists s. split; [assumption|].
    destruct (splitSerial s); [destruct H as [->|[]]; reflexivity|destruct H].
  - intros (s & Hs & E). exists s. split; [assumption|]. rewrite E. now left.
Qed.

Lemma fold_max_ge (l : list Z) (a : Z) :
  a <= fold_left Z.max l a /\ forall x, In x l -> x <= fold_left Z.max l a.
Proof.
  revert a. induction l as [|y l IH]; intros a; cbn [fold_left].
  - split; [lia|intros x []].
  - destruct (IH (Z.max a y)) as [H1 H2]. split; [lia|].
    intros x [<-|Hx]; [lia|now apply H2].
Qed.

Lemma maximum_ge (l : list Z) (x : Z) : In x l -> x <= maximum l.
Proof.
  destruct l as [|y l]; [intros []|]. cbn [maximum].
  destruct (fold_max_ge l y) as [H1 H2].
  intros [<-|Hx]; [assumption|now apply H2].
Qed.

Lemma maximum_nonneg (l : list Z) :
  Forall (fun n => 0 <= n) l -> 0 <= maximum l.
Proof.
  intros H. destruct H as [|y l Hy _]; [cbn; lia|].
  cbn [maximum]. destruct (fold_max_ge l y) as [H1 _]. lia.
Qed.

(** While the largest number read is below 2^53 the loop computes on
    integers, and the suggestion is the one of [suggestSpec]. *)
Lemma suggestNextSerial_refines (usedSerials : list str) :
  maximum (map snd (matchesOf usedSerials)) < 2 ^ 53 ->
  suggestNextSerial usedSerials = suggestSpec usedSerials.
Proof.
  intros Hmax. destruct usedSerials as [|s l]; [reflexivity|].
  unfold suggestNextSerial, suggestSpec.
  pose proof (maximum_nonneg _ (matchesOf_nonneg (s :: l))) as Hpos.
  rewrite fold_suggestStep, fold_max_from_zero by
    (try apply matchesOf_nonneg;
     apply Forall_forall; intros n Hn; apply maximum_ge in Hn; lia).
  rewrite add_one_exact by lia. rewrite toString_exact by lia.
  reflexivity.
Qed.

(** C5, amended. [suggestNextSerial] returns the seed [SN00001] on the
    empty list.  On any other list, as long as the largest number read is
    below 2^53, it returns the letters of the last serial of the list that
    reads as letters followed by digits (after upper-casing; [SN] when none
    does), followed by one more than the largest number read (0 when none),
    written with at least five digits, zeros in front, and with all its
    digits when it has more than five.  In particular the suggestion after
    [SN00007] is [SN00008]. *)
Theorem suggestNextSerial_spec :
  (forall usedSerials,
      maximum (map snd (matchesOf usedSerials)) < 2 ^ 53 ->
      suggestNextSerial usedSerials = suggestSpec usedSerials) /\
  suggestNextSerial [] = L"SN00001" /\
  suggestNextSerial [L"SN00007"] = L"SN00008".
Proof.
  split; [exact suggestNextSerial_refines|]. split; reflexivity.
Qed.

Lemma suggestNextSerial_spec_witness :
  suggestNextSerial [L"ab12"; L"x-1"; L"CT00099"] = L"CT00100".
Proof.
  rewrite (proj1 suggestNextSerial_spec [L"ab12"; L"x-1"; L"CT00099"]);
    reflexivity.
Defined.

(** C5 as stated fails: the numbers are doubles, and one more than 2^53
    is 2^53 again.  After the serial of number 9007199254740992 the
    suggestion is that same serial, where the claim has the number
    9007199254740993. *)
Lemma suggestNextSerial_repeats :
  suggestNextSerial [L"SN9007199254740992"] = L"SN9007199254740992" /\
  suggestSpec [L"SN9007199254740992"] = L"SN9007199254740993".
Proof. split; vm_compute; reflexivity. Qed.

(* ================================================================= *)
(** ** The expansion of a range *)

Lemma isNaN_ofZ (v : Z) : Number.isNaN (Number.ofZ v) = false.
Proof.
  unfold Number.ofZ. destruct (Z.abs v <=? 2 ^ 53); [reflexivity|].
  cbv zeta. now destruct (_ <? 2 ^ 1024).
Qed.

(** The double of an integer that is not negative: the integer itself up
    to 2^53, a wide double beyond, or infinity. *)
Lemma ofZ_nonneg (v : Z) :
  0 <= v ->
  (v <= 2 ^ 53 /\ Number.ofZ v = Number.Fin v) \/
  (2 ^ 53 < v /\ exists z, Number.ofZ v = Number.Fin z /\ wideDouble z) \/
  (2 ^ 53 < v /\ Number.ofZ v = Number.Inf false).
Proof.
  intros Hv. destruct (Z_le_gt_dec v (2 ^ 53)) as [C|C].
  - left. split; [exact C|]. apply ofZ_exact. lia.
  - right. destruct (ofZ_wide v) as [W|I]; [lia|left|right]; split; auto; lia.
Qed.

(** The loop of [parseSerialRange], entered from [startNum], the double of
    [v], with [startNum <= endNum] and [endNum - startNum] below 100:
    either it does not end, however many rounds it is given, or it ends
    within 101 tests of its condition, and then with a single serial or
    with the serials of the integers from [v] to the end number, which is
    below 2^53. *)
Lemma rangeLoop_101 (prefix : str) (padLength : nat) (v : Z)
    (endNum : Number.t) :
  0 <= v -> Number.isNaN endNum = false ->
  Number.gtb (Number.ofZ v) endNum = false ->
  Number.geb (Number.sub endNum (Number.ofZ v)) (Number.Fin 100) = false ->
  (forall fuel,
      rangeLoop fuel prefix padLength (Number.ofZ v) endNum [] = None) \/
  (exists l,
      (forall fuel, (101 <= fuel)%nat ->
                    rangeLoop fuel prefix padLength (Number.ofZ v) endNum []
                    = Some l) /\
      ((exists x, l = [x]) \/
       (exists b, endNum = Number.Fin b /\ v <= b < 2 ^ 53 /\ b - v < 100 /\
                  l = map (renderSerial prefix padLength)
                          (zrange v (Z.to_nat (b - v + 1)))))).
Proof.
  intros Hv Hnan Hgt Hge.
  destruct (ofZ_nonneg v Hv) as [[Hs E]|[[Hb (z & E & W)]|[Hb E]]];
    rewrite E in *.
  - destruct endNum as [b|[|]|]; try discriminate.
    + unfold Number.gtb, Number.ltb in Hgt. apply Z.ltb_ge in Hgt.
      unfold Number.sub in Hge. cbn [Number.opp Number.add] in Hge.
      rewrite geb_ofZ_100 in Hge by lia. apply Z.leb_gt in Hge.
      destruct (Z_lt_le_dec b (2 ^ 53)) as [C|C].
      * right. eexists. split.
        -- intros fuel Hf. apply rangeLoop_exact; lia.
        -- right. exists b. repeat split; try lia.
      * left. intros fuel. apply rangeLoop_crossing; [lia|].
        unfold Number.leb, Number.ltb. apply negb_true_iff, Z.ltb_ge. lia.
  - assert (Hle : Number.leb (Number.Fin z) endNum = true).
    { unfold Number.gtb in Hgt. unfold Number.leb.
      destruct endNum as [b|[|]|]; try discriminate; now rewrite Hgt. }
    destruct (rangeLoop_wide prefix padLength z endNum W Hle) as [N|S].
    + left. intros fuel. apply N.
    + right. eexists. split.
      * intros fuel Hf. apply S. lia.
      * left. eexists. reflexivity.
  - destruct endNum as [b|[|]|]; try discriminate.
    left. intros fuel. now apply rangeLoop_stuck.
Qed.

(** What an expansion that returns holds: a single serial, or the serials
    of consecutive integers, 100 at most. *)
Lemma parseSerialRange_Ok (input : str) (l : list str) :
  parseSerialRange input = Ok l ->
  (exists x, l = [x]) \/
  (exists prefix padLength a n,
      0 <= a /\ (1 <= n <= 100)%nat /\
      l = map (renderSerial prefix padLength) (zrange a n)).
Proof.
  unfold parseSerialRange.
  destruct (exec rangePattern input) as [m|] eqn:Em;
    [|intros [= <-]; left; eexists; reflexivity].
  destruct (exec_rangePattern_start input m Em) as (d & Hd & Dd).
  unfold digitRun in Dd. apply andb_true_iff in Dd as [Td Dd].
  assert (G2 : group m 2 = d) by (unfold group; now rewrite Hd).
  rewrite G2, (Number_parseInt_digits d Td Dd).
  pose proof (digitsValue_nonneg d Dd) as Hv.
  cbv zeta. rewrite isNaN_ofZ. cbn [orb].
  destruct (Number.isNaN (Number.parseInt (group m 4))) eqn:Hnan;
    [intros [= <-]; left; eexists; reflexivity|].
  cbn [orb].
  destruct (Number.gtb _ _) eqn:Hgt;
    [intros [= <-]; left; eexists; reflexivity|].
  destruct (Number.geb _ _) eqn:Hge; [discriminate|].
  destruct (rangeLoop_101 (group m 1) (length d) (digitsValue d)
              (Number.parseInt (group m 4)) Hv Hnan Hgt Hge)
    as [N|(l' & S & Shape)].
  - rewrite N. discriminate.
  - rewrite S by lia. intros [= <-].
    destruct Shape as [X|(b & _ & Hb & Hlt & ->)]; [now left|].
    right. exists (group m 1), (length d), (digitsValue d),
             (Z.to_nat (b - digitsValue d + 1)).
    split; [exact Hv|]. split; [lia|reflexivity].
Qed.

(** An expansion that does not return is one whose loop does not end,
    however many rounds it is given. *)
Lemma parseSerialRange_Diverges (input : str) :
  parseSerialRange input = Diverges ->
  exists m,
    exec rangePattern input = Some m /\
    forall fuel,
      rangeLoop fuel (group m 1) (length (group m 2))
                (Number.parseInt (group m 2)) (Number.parseInt (group m 4)) []
      = None.
Proof.
  unfold parseSerialRange.
  destruct (exec rangePattern input) as [m|] eqn:Em; [|discriminate].
  intros H. exists m. split; [reflexivity|].
  destruct (exec_rangePattern_start input m Em) as (d & Hd & Dd).
  unfold digitRun in Dd. apply andb_true_iff in Dd as [Td Dd].
  assert (G2 : group m 2 = d) by (unfold group; now rewrite Hd).
  rewrite G2, (Number_parseInt_digits d Td Dd) in H |- *.
  pose proof (digitsValue_nonneg d Dd) as Hv.
  cbv zeta in H. rewrite isNaN_ofZ in H. cbn [orb] in H.
  destruct (Number.isNaN (Number.parseInt (group m 4))) eqn:Hnan;
    [discriminate|].
  cbn [orb] in H.
  destruct (Number.gtb _ _) eqn:Hgt; [discriminate|].
  destruct (Number.geb _ _) eqn:Hge; [discriminate|].
  destruct (rangeLoop_101 (group m 1) (length d) (digitsValue d)
              (Number.parseInt (group m 4)) Hv Hnan Hgt Hge)
    as [N|(l' & S & _)]; [exact N|].
  rewrite S in H by lia. discriminate.
Qed.

(** An expansion that returns has between 1 and 100 serials. *)
Lemma parseSerialRange_length (input : str) (l : list str) :
  parseSerialRange input = Ok l -> (1 <= length l <= 100)%nat.
Proof.
  intros H. apply parseSerialRange_Ok in H
    as [(x & ->)|(prefix & padLength & a & n & _ & Hn & ->)].
  - simpl. lia.
  - now rewrite length_map, zrange_length.
Qed.

(** The serials of an expansion are pairwise distinct. *)
Lemma parseSerialRange_NoDup (input : str) (l : list str) :
  parseSerialRange input = Ok l -> NoDup l.
Proof.
  intros H. apply parseSerialRange_Ok in H
    as [(x & ->)|(prefix & padLength & a & n & Ha & _ & ->)].
  - constructor; [intros []|constructor].
  - now apply renderSerial_NoDup.
Qed.

(** An expression that spans 101 serials or more. *)
Lemma parseSerialRange_oversized (m : caps) (d1 d4 : str) (input : str) :
  exec rangePattern input = Some m -> group m 2 = d1 -> group m 4 = d4 ->
  digitRun d1 = true -> digitRun d4 = true ->
  digitsValue d1 + 100 <= 2 ^ 53 ->
  100 <= digitsValue d4 - digitsValue d1 ->
  parseSerialRange input = Error rangeError.
Proof.
  intros Em G2 G4 H1 H4 Hs Hbig. unfold parseSerialRange.
  rewrite Em, G2, G4. cbv zeta.
  unfold digitRun in H1, H4.
  apply andb_true_iff in H1 as [T1 H1]. apply andb_true_iff in H4 as [T4 H4].
  rewrite (Number_parseInt_digits d1 T1 H1), (Number_parseInt_digits d4 T4 H4).
  pose proof (digitsValue_nonneg d1 H1) as Hv1.
  pose proof (digitsValue_nonneg d4 H4) as Hv4.
  rewrite !isNaN_ofZ. cbn [orb].
  rewrite (ofZ_exact (digitsValue d1)) by lia.
  destruct (ofZ_nonneg (digitsValue d4) Hv4)
    as [[Hs4 E]|[[Hb (z & E & W)]|[Hb E]]]; rewrite E.
  - unfold Number.gtb, Number.ltb.
    replace (digitsValue d4 <? digitsValue d1) with false
      by (symmetry; apply Z.ltb_ge; lia).
    unfold Number.sub. cbn [Number.opp Number.add].
    rewrite geb_ofZ_100 by lia.
    now replace (100 <=? digitsValue d4 + - digitsValue d1) with true
      by (symmetry; apply Z.leb_le; lia).
  - apply wide_ge in W. unfold Number.gtb, Number.ltb.
    replace (z <? digitsValue d1) with false by (symmetry; apply Z.ltb_ge; lia).
    unfold Number.sub. cbn [Number.opp Number.add].
    rewrite geb_ofZ_100 by lia.
    now replace (100 <=? z + - digitsValue d1) with true
      by (symmetry; apply Z.leb_le; lia).
  - reflexivity.
Qed.

Lemma digitsValue_leading_zero (d : str) :
  digitsValue (char0 :: d) = digitsValue d.
Proof. reflexivity. Qed.

(** The digits of the end token that the fourth group of the range pattern
    receives: all of a one-digit token, and all but the first digit of a
    longer one, which the optional third group takes. *)
Lemma exec_rangePattern_groups (p d1 d2 : str) :
  rangePrefix p = true -> digitRun d1 = true -> digitRun d2 = true ->
  exists m,
    exec rangePattern (p ++ d1 ++ L"~" ++ d2) = Some m /\
    group m 1 = p /\ group m 2 = d1 /\
    group m 4 = match d2 with
                | [e] => [e]
                | _ :: rest => rest
                | [] => []
                end.
Proof.
  unfold rangePrefix, digitRun. intros Hp H1 H2.
  apply andb_true_iff in Hp as [Hp Hlast].
  apply andb_true_iff in Hp as [Hdot Hno].
  apply negb_true_iff in Hlast, Hno.
  apply andb_true_iff in H1 as [T1 H1]. apply andb_true_iff in H2 as [T2 H2].
  destruct d1 as [|b d1]; [discriminate|].
  destruct d2 as [|e d2]; [discriminate|].
  eexists. split.
  - now apply exec_rangePattern_digits.
  - destruct d2; repeat split; reflexivity.
Qed.

(** The end number of [p d1 ~ d2] is read whole when the end token has one
    digit or starts with a zero. *)
Lemma exec_rangePattern_plain (p d1 d2 : str) :
  rangePrefix p = true -> digitRun d1 = true -> digitRun d2 = true ->
  plainEnd d2 = true ->
  exists m d4,
    exec rangePattern (p ++ d1 ++ L"~" ++ d2) = Some m /\
    group m 1 = p /\ group m 2 = d1 /\ group m 4 = d4 /\
    digitRun d4 = true /\ digitsValue d4 = digitsValue d2.
Proof.
  intros Hp H1 H2 Hend.
  destruct (exec_rangePattern_groups p d1 d2 Hp H1 H2) as (m & Em & G1 & G2 & G4).
  exists m. eexists. repeat (split; [eassumption|]).
  unfold digitRun in H2 |- *. apply andb_true_iff in H2 as [T2 H2].
  destruct d2 as [|e [|e' d2]]; [discriminate| |].
  - split; [now rewrite H2|reflexivity].
  - cbn [plainEnd] in Hend. apply Ascii.eqb_eq in Hend. subst e.
    cbn [forallb] in H2. apply andb_true_iff in H2 as [_ H2].
    split; [exact H2|reflexivity].
Qed.

(** The expansion of [p d1 ~ d2] when the end token has one digit or
    starts with a zero, and the end number is below 2^53. *)
Lemma parseSerialRange_plain (p d1 d2 : str) :
  rangePrefix p = true -> digitRun d1 = true -> digitRun d2 = true ->
  plainEnd d2 = true -> digitsValue d2 < 2 ^ 53 ->
  parseSerialRange (p ++ d1 ++ L"~" ++ d2) =
  if digitsValue d1 >? digitsValue d2 then Ok [trim (p ++ d1 ++ L"~" ++ d2)]
  else if digitsValue d2 - digitsValue d1 >=? 100 then Error rangeError
  else Ok (map (renderSerial p (length d1))
               (zrange (digitsValue d1)
                       (Z.to_nat (digitsValue d2 - digitsValue d1 + 1)))).
Proof.
  intros Hp H1 H2 Hend Hb.
  destruct (exec_rangePattern_plain p d1 d2 Hp H1 H2 Hend)
    as (m & d4 & Em & G1 & G2 & G4 & H4 & V4).
  rewrite <- V4 in *. clear V4 H2 Hend.
  destruct (digitsValue d4 - digitsValue d1 >=? 100) eqn:Big.
  { rewrite Z.geb_leb in Big. apply Z.leb_le in Big.
    replace (digitsValue d1 >? digitsValue d4) with false
      by (symmetry; rewrite Z.gtb_ltb; apply Z.ltb_ge; lia).
    apply (parseSerialRange_oversized m d1 d4); auto. lia. }
  rewrite Z.geb_leb in Big. apply Z.leb_gt in Big.
  unfold parseSerialRange. rewrite Em, G1, G2, G4. cbv zeta.
  unfold digitRun in H1, H4.
  apply andb_true_iff in H1 as [T1 H1]. apply andb_true_iff in H4 as [T4 H4].
  rewrite (Number_parseInt_digits d1 T1 H1), (Number_parseInt_digits d4 T4 H4).
  pose proof (digitsValue_nonneg d1 H1) as Hv1.
  pose proof (digitsValue_nonneg d4 H4) as Hv4.
  rewrite !isNaN_ofZ. cbn [orb].
  rewrite (ofZ_exact (digitsValue d4)) by lia.
  destruct (digitsValue d1 >? digitsValue d4) eqn:C.
  - rewrite Z.gtb_ltb in C. apply Z.ltb_lt in C.
    assert (Number.gtb (Number.ofZ (digitsValue d1))
                       (Number.Fin (digitsValue d4)) = true) as ->;
      [|reflexivity].
    unfold Number.gtb.
    destruct (ofZ_nonneg (digitsValue d1) Hv1)
      as [[_ E]|[[_ (z & E & W)]|[_ E]]]; rewrite E; cbn [Number.ltb].
    + apply Z.ltb_lt. lia.
    + apply wide_ge in W. apply Z.ltb_lt. lia.
    + reflexivity.
  - rewrite Z.gtb_ltb in C. apply Z.ltb_ge in C.
    rewrite (ofZ_exact (digitsValue d1)) by lia.
    unfold Number.gtb, Number.ltb.
    replace (digitsValue d4 <? digitsValue d1) with false
      by (symmetry; apply Z.ltb_ge; lia).
    unfold Number.sub. cbn [Number.opp Number.add].
    rewrite geb_ofZ_100 by lia.
    replace (100 <=? digitsValue d4 + - digitsValue d1) with false
      by (symmetry; apply Z.leb_gt; lia).
    rewrite rangeLoop_exact by lia. reflexivity.
Qed.

(** C2, amended. An expansion that returns has at most 100 serials.  The
    error is signalled for the expressions of 101 serials or more: on
    [p d1 ~ d2], where the prefix [p] has no tilde and no line break and
    does not end with a digit, [d1] and [d2] are runs of digits, [d2] has
    one digit or starts with a zero, and the start number is at most
    2^53 - 100, the error is signalled as soon as the end number is 100 or
    more above the start number. *)
Theorem parseSerialRange_limit :
  (forall input l, parseSerialRange input = Ok l -> (length l <= 100)%nat) /\
  (forall p d1 d2,
      rangePrefix p = true -> digitRun d1 = true -> digitRun d2 = true ->
      plainEnd d2 = true ->
      digitsValue d1 + 100 <= 2 ^ 53 ->
      101 <= digitsValue d2 - digitsValue d1 + 1 ->
      parseSerialRange (p ++ d1 ++ L"~" ++ d2) = Error rangeError).
Proof.
  split.
  - intros input l H. now apply parseSerialRange_length in H.
  - intros p d1 d2 Hp H1 H2 Hend Hs Hbig.
    destruct (exec_rangePattern_plain p d1 d2 Hp H1 H2 Hend)
      as (m & d4 & Em & G1 & G2 & G4 & H4 & V4).
    apply (parseSerialRange_oversized m d1 d4); auto. lia.
Qed.

Lemma parseSerialRange_limit_witness :
  parseSerialRange L"CT0001~0101" = Error rangeError /\
  (length [L"AJP00001"; L"AJP00002"; L"AJP00003"] <= 100)%nat.
Proof.
  split.
  - apply (proj2 parseSerialRange_limit L"CT" L"0001" L"0101");
      try reflexivity; vm_compute; discriminate.
  - apply (proj1 parseSerialRange_limit L"AJP00001~00003"). reflexivity.
Defined.

(** C2 as stated fails: an expression that spans exactly 100 serials is
    expanded, no error is signalled. *)
Lemma parseSerialRange_hundred :
  exists l, parseSerialRange L"CT0001~0100" = Ok l /\ length l = 100%nat.
Proof. eexists. split; [vm_compute; reflexivity|reflexivity]. Qed.

(** C6, amended. [parseSerialRange] returns its input, trimmed of the
    white space around it, as a single serial when the input does not
    match the range pattern, which is the case of every input without a
    tilde.  On [p d1 ~ d2], where the prefix [p] has no tilde and no line
    break and does not end with a digit, [d1] and [d2] are runs of digits,
    [d2] has one digit or starts with a zero, and the end number is below
    2^53, it returns the trimmed input as a single serial when the start
    number exceeds the end number, and otherwise, within the size limit,
    the serials from the start to the end number, each number padded with
    zeros to the width of [d1].  The expansion of [CT0001~0010] is the ten
    serials [CT0001] to [CT0010]. *)
Theorem parseSerialRange_spec :
  (forall input, exec rangePattern input = None ->
                 parseSerialRange input = Ok [trim input]) /\
  (forall input, includesChar input isTilde = false ->
                 parseSerialRange input = Ok [trim input]) /\
  (forall p d1 d2,
      rangePrefix p = true -> digitRun d1 = true -> digitRun d2 = true ->
      plainEnd d2 = true -> digitsValue d2 < 2 ^ 53 ->
      parseSerialRange (p ++ d1 ++ L"~" ++ d2) =
      if digitsValue d1 >? digitsValue d2
      then Ok [trim (p ++ d1 ++ L"~" ++ d2)]
      else if digitsValue d2 - digitsValue d1 >=? 100 then Error rangeError
      else Ok (map (renderSerial p (length d1))
                   (zrange (digitsValue d1)
                           (Z.to_nat (digitsValue d2 - digitsValue d1 + 1))))) /\
  parseSerialRange L"CT0001~0010" =
  Ok [L"CT0001"; L"CT0002"; L"CT0003"; L"CT0004"; L"CT0005";
      L"CT0006"; L"CT0007"; L"CT0008"; L"CT0009"; L"CT0010"].
Proof.
  split; [|split; [|split]].
  - intros input H. unfold parseSerialRange. now rewrite H.
  - intros input H. unfold parseSerialRange.
    now rewrite (exec_rangePattern_no_tilde input H).
  - exact parseSerialRange_plain.
  - reflexivity.
Qed.

Lemma parseSerialRange_spec_witness :
  parseSerialRange L"AJP00001~00005" =
  Ok [L"AJP00001"; L"AJP00002"; L"AJP00003"; L"AJP00004"; L"AJP00005"] /\
  parseSerialRange L"  sn 12 " = Ok [L"sn 12"].
Proof.
  split.
  - apply (proj1 (proj2 (proj2 parseSerialRange_spec)) L"AJP" L"00001" L"00005");
      reflexivity.
  - apply (proj1 (proj2 parseSerialRange_spec) L"  sn 12 "). reflexivity.
Defined.

(** C6 as stated fails: an input that does not match the pattern is
    returned without the white space around it, not whole. *)
Lemma parseSerialRange_trims :
  exec rangePattern L" A~B " = None /\
  parseSerialRange L" A~B " = Ok [L"A~B"] /\
  parseSerialRange L" A~B " <> Ok [L" A~B "].
Proof. split; [reflexivity|split; [reflexivity|discriminate]]. Qed.

(** The first digit of an end token of two digits or more is taken by the
    optional group of the pattern, not by the end number: [CT1~15] expands
    to five serials. *)
Lemma parseSerialRange_drops_digit :
  parseSerialRange L"CT1~15" = Ok [L"CT1"; L"CT2"; L"CT3"; L"CT4"; L"CT5"].
Proof. reflexivity. Qed.

(** Beyond 2^53 two numbers that are 100 apart can be read as doubles
    that are less than 100 apart: no error is signalled, and the loop does
    not end. *)
Lemma parseSerialRange_rounds :
  digitsValue L"18014398509482090" - digitsValue L"18014398509481990" = 100 /\
  parseSerialRange L"CT18014398509481990~018014398509482090" = Diverges.
Proof. split; vm_compute; reflexivity. Qed.

(** From 2^53 on the counter of the loop is rounded back to itself: the
    range from 9007199254740992 to itself is not expanded to its one
    serial, the call does not return. *)
Lemma parseSerialRange_no_return :
  parseSerialRange L"SN9007199254740992~09007199254740992" = Diverges /\
  forall fuel results,
    rangeLoop fuel L"SN" 16 (Number.Fin (2 ^ 53)) (Number.Fin (2 ^ 53)) results
    = None.
Proof.
  split; [vm_compute; reflexivity|].
  intros fuel results. apply rangeLoop_stuck; reflexivity.
Qed.

(* ================================================================= *)
(** ** Submitting the transaction form *)

Import ItemDetailModal.

(** The quantity a submission asks for, when its serials can be read. *)
Lemma handleAddTransaction_accepted (item : Item.t) (used : list str)
    (now : nat -> str) (f : form) (a : accepted) :
  handleAddTransaction item used now f = Accepted a ->
  exists targetSerials isRange,
    targetSerialsOf item f = Ok (targetSerials, isRange) /\
    filter (fun s => truthy s && includes used s) targetSerials = [] /\
    0 < countOf f targetSerials isRange /\
    (transactionType f = release ->
     countOf f targetSerials isRange <= currentStock item) /\
    calls a = (if isRange then rangeCalls f now O targetSerials
               else [singleCall item f now (countOf f targetSerials isRange)]).
Proof.
  unfold handleAddTransaction.
  destruct (targetSerialsOf item f) as [[targetSerials isRange]| |];
    [|discriminate|discriminate].
  destruct (filter _ targetSerials) as [|d ds] eqn:F; [|discriminate].
  cbn [length Nat.ltb Nat.leb].
  destruct (countOf f targetSerials isRange <=? 0) eqn:C; [discriminate|].
  destruct (isRelease (transactionType f) &&
            (countOf f targetSerials isRange >? currentStock item)) eqn:R;
    [discriminate|].
  intros H. exists targetSerials, isRange.
  split; [reflexivity|]. split; [exact F|].
  split; [apply Z.leb_gt in C; lia|]. split.
  - intros Hrel. rewrite Hrel in R. cbn [isRelease andb] in R.
    rewrite Z.gtb_ltb in R. apply Z.ltb_ge in R. exact R.
  - destruct isRange; injection H as <-; reflexivity.
Qed.

(** The handler does not return only when the expansion of its range does
    not. *)
Lemma handleAddTransaction_unfinished (item : Item.t) (used : list str)
    (now : nat -> str) (f : form) :
  handleAddTransaction item used now f = Unfinished ->
  targetSerialsOf item f = Diverges.
Proof.
  unfold handleAddTransaction.
  destruct (targetSerialsOf item f) as [[targetSerials isRange]| |];
    [|discriminate|reflexivity].
  destruct (0 <? length _)%nat; [discriminate|].
  destruct (countOf f targetSerials isRange <=? 0); [discriminate|].
  destruct (isRelease (transactionType f) && _); [discriminate|].
  destruct isRange; discriminate.
Qed.

(** C4. A release that asks for more than the computed stock of the item
    is rejected with an alert, and the store is the one before the
    submission: no transaction list, hence no stock, has changed.  The
    quantity asked for is the number of serials of a range, or the
    quantity field. *)
Theorem release_beyond_stock_rejected (item : Item.t) (f : form)
    (now genId : nat -> str) (items : App.store)
    (targetSerials : list str) (isRange : bool) :
  transactionType f = release ->
  targetSerialsOf item f = Ok (targetSerials, isRange) ->
  countOf f targetSerials isRange > currentStock item ->
  exists alert, addTransaction item f now genId items = (Rejected alert, items).
Proof.
  intros Hrel Ht Hc. unfold addTransaction.
  destruct (handleAddTransaction item (App.allUsedSerials items) now f)
    as [alert|a|] eqn:E;
    [now exists alert| |apply handleAddTransaction_unfinished in E; congruence].
  apply handleAddTransaction_accepted in E
    as (ts & r & Ht' & _ & _ & Hle & _).
  rewrite Ht in Ht'. injection Ht' as <- <-.
  specialize (Hle Hrel). lia.
Qed.

Lemma release_beyond_stock_rejected_witness :
  exists alert,
    addTransaction (plainItem L"item-1" part L"P1" [plainTransaction L"t-1" purchase 5])
                   (simpleForm release L"6" L"") clock ids oneItemStore
    = (Rejected alert, oneItemStore).
Proof.
  apply (release_beyond_stock_rejected _ _ _ _ _ [L""] false);
    [reflexivity|reflexivity|vm_compute; reflexivity].
Defined.

(* ================================================================= *)
(** ** Submitting a range *)

Lemma withTransactions_id (item : Item.t) (ts : list Transaction.t) :
  Item.id (Item.withTransactions item ts) = Item.id item.
Proof. reflexivity. Qed.

(** The calls of one submission append their transactions, in order, to
    the items of the given id. *)
Lemma applyCalls_append (itemId : str) (genId : nat -> str) (k : nat)
    (calls : list TransactionData) (items : App.store) :
  applyCalls itemId genId k calls items =
  map (fun it =>
         if JS.eqb (Item.id it) itemId then
           Item.withTransactions it (Item.transactions it ++ stamp genId k calls)
         else it) items.
Proof.
  revert k items. induction calls as [|t rest IH]; intros k items.
  - cbn [applyCalls stamp]. rewrite <- (map_id items) at 1.
    apply map_ext. intros it. destruct (JS.eqb (Item.id it) itemId);
      [|reflexivity].
    now rewrite app_nil_r, withTransactions_same.
  - cbn [applyCalls stamp]. rewrite IH. unfold App.handleAddTransaction.
    rewrite map_map. apply map_ext. intros it.
    destruct (JS.eqb (Item.id it) itemId) eqn:E.
    + rewrite withTransactions_id, E.
      cbn [Item.withTransactions Item.transactions Item.id Item.type
           Item.registrationDate Item.code Item.name Item.spec Item.modelName
           Item.drawingNumber Item.application Item.remarks].
      now rewrite <- app_assoc.
    + now rewrite E.
Qed.

Lemma stamp_length (genId : nat -> str) (k : nat) (calls : list TransactionData) :
  length (stamp genId k calls) = length calls.
Proof.
  revert k; induction calls as [|t rest IH]; intros k; simpl;
    [reflexivity|now rewrite IH].
Qed.

Lemma rangeCalls_length (f : form) (now : nat -> str) (k : nat)
    (serials : list str) :
  length (rangeCalls f now k serials) = length serials.
Proof.
  revert k; induction serials as [|s rest IH]; intros k; simpl;
    [reflexivity|now rewrite IH].
Qed.

Lemma rangeCalls_serials (f : form) (now genId : nat -> str) (k k' : nat)
    (serials : list str) :
  map Transaction.serialNumber (stamp genId k (rangeCalls f now k' serials))
  = map Some serials.
Proof.
  revert k k'; induction serials as [|s rest IH]; intros k k'; simpl;
    [reflexivity|now rewrite IH].
Qed.

Lemma rangeCalls_units (f : form) (now genId : nat -> str) (k k' : nat)
    (serials : list str) :
  Forall (fun t => Transaction.quantity t = 1 /\
                   Transaction.type t = transactionType f)
         (stamp genId k (rangeCalls f now k' serials)).
Proof.
  revert k k'; induction serials as [|s rest IH]; intros k k'; simpl;
    constructor; [split; reflexivity|apply IH].
Qed.

Lemma signedSum_units (ty : TransactionType) (ts : list Transaction.t) :
  Forall (fun t => Transaction.quantity t = 1 /\ Transaction.type t = ty) ts ->
  signedSum ts =
  (match ty with purchase => 1 | release => -1 end) * Z.of_nat (length ts).
Proof.
  induction 1 as [|t ts [Hq Ht] _ IH]; [destruct ty; reflexivity|].
  cbn [signedSum length]. rewrite IH, Nat2Z.inj_succ.
  unfold signedQuantity. rewrite Hq, Ht. destruct ty; lia.
Qed.

(** C9. When the form of a product holds a range expression that expands
    to more than one serial and the submission goes through, the store
    changes in the items of that id only, to which as many transactions
    are appended as the range has serials: each of quantity 1 and of the
    chosen type, the k-th bearing the k-th serial of the range, and these
    serials are pairwise distinct.  The stock of such an item goes up by
    the number of serials for a purchase, and down by it for a release. *)
Theorem range_submission_appends (item : Item.t) (f : form)
    (now genId : nat -> str) (items items' : App.store)
    (serials : list str) (a : accepted) :
  Item.type item = product ->
  includesChar (serialNumber f) isTilde = true ->
  parseSerialRange (toUpperCase (serialNumber f)) = Ok serials ->
  (1 < length serials)%nat ->
  addTransaction item f now genId items = (Accepted a, items') ->
  exists added,
    items' = map (fun it =>
                    if JS.eqb (Item.id it) (Item.id item) then
                      Item.withTransactions it (Item.transactions it ++ added)
                    else it) items /\
    length added = length serials /\
    map Transaction.serialNumber added = map Some serials /\
    NoDup serials /\
    Forall (fun t => Transaction.quantity t = 1 /\
                     Transaction.type t = transactionType f) added /\
    forall it,
      calculateStock (Item.withTransactions it (Item.transactions it ++ added))
      = calculateStock it
        + (match transactionType f with purchase => 1 | release => -1 end)
          * Z.of_nat (length serials).
Proof.
  intros Hprod Htilde Hparse Hlen H. unfold addTransaction in H.
  destruct (handleAddTransaction item (App.allUsedSerials items) now f)
    as [alert|a'|] eqn:E; [discriminate| |discriminate].
  injection H as <- <-.
  apply handleAddTransaction_accepted in E as (ts & r & Ht & _ & _ & _ & Hcalls).
  unfold targetSerialsOf in Ht.
  rewrite Hprod, Htilde, Hparse in Ht. cbn [isProduct andb] in Ht.
  injection Ht as <- <-.
  exists (stamp genId O (rangeCalls f now O serials)).
  rewrite Hcalls. split; [apply applyCalls_append|].
  split; [now rewrite stamp_length, rangeCalls_length|].
  split; [apply rangeCalls_serials|].
  split; [exact (parseSerialRange_NoDup _ _ Hparse)|].
  split; [apply rangeCalls_units|].
  intros it. rewrite !calculateStock_signedSum.
  cbn [Item.withTransactions Item.transactions].
  rewrite signedSum_app.
  rewrite (signedSum_units (transactionType f)
                           (stamp genId O (rangeCalls f now O serials)))
    by apply rangeCalls_units.
  now rewrite stamp_length, rangeCalls_length.
Qed.

Lemma range_submission_appends_witness :
  exists added,
    snd (addTransaction emptyProduct (simpleForm purchase L"" L"ct0001~0003")
                        clock ids [emptyProduct])
    = [Item.withTransactions emptyProduct added] /\
    length added = 3%nat /\
    map Transaction.serialNumber added
    = [Some L"CT0001"; Some L"CT0002"; Some L"CT0003"].
Proof.
  destruct (range_submission_appends
              emptyProduct (simpleForm purchase L"" L"ct0001~0003") clock ids
              [emptyProduct]
              (snd (addTransaction emptyProduct
                      (simpleForm purchase L"" L"ct0001~0003") clock ids
                      [emptyProduct]))
              [L"CT0001"; L"CT0002"; L"CT0003"]
              (mkAccepted
                 (rangeCalls (simpleForm purchase L"" L"ct0001~0003") clock O
                             [L"CT0001"; L"CT0002"; L"CT0003"])
                 (Some (rangeAlert 3))
                 (resetForm (simpleForm purchase L"" L"ct0001~0003") []
                            [L"CT0001"; L"CT0002"; L"CT0003"])))
    as (added & E & Hl & Hs & _);
    [reflexivity|reflexivity|reflexivity|vm_compute; lia|reflexivity|].
  exists added. split; [|split; assumption].
  rewrite E. reflexivity.
Defined.

(* ================================================================= *)
(** ** Serial numbers across the store *)

(** A submission is rejected, and the store kept, as soon as one of the
    serials it refers to is a non-empty member of the used serials. *)
Lemma used_serial_rejected (item : Item.t) (f : form) (now genId : nat -> str)
    (items : App.store) (targetSerials : list str) (isRange : bool) (s : str) :
  targetSerialsOf item f = Ok (targetSerials, isRange) ->
  In s targetSerials -> truthy s = true ->
  In s (App.allUsedSerials items) ->
  exists alert, addTransaction item f now genId items = (Rejected alert, items).
Proof.
  intros Ht Hin Hs Hused. unfold addTransaction.
  destruct (handleAddTransaction item (App.allUsedSerials items) now f)
    as [alert|a|] eqn:E;
    [now exists alert| |apply handleAddTransaction_unfinished in E; congruence].
  apply handleAddTransaction_accepted in E as (ts & r & Ht' & F & _).
  rewrite Ht in Ht'. injection Ht' as <- <-.
  assert (In s (filter (fun s => truthy s && includes (App.allUsedSerials items) s)
                       targetSerials)) as C.
  { apply filter_In. split; [assumption|].
    rewrite Hs. now apply includes_In. }
  rewrite F in C. destruct C.
Qed.

(** C3: the code at the failing input.  A product has no transaction yet.
    The form holds the serial [SN1] preceded by a space, and is submitted
    twice: both submissions go through, although the serial of the second
    is, letter for letter, a used serial of the store; the item ends with
    two transactions of the same serial.  The check reads the serial
    trimmed, the transaction stores it untrimmed. *)
Theorem spaced_serial_accepted_twice :
  let f := simpleForm purchase L"1" L" SN1" in
  exists a1 item1 a2 item2,
    addTransaction emptyProduct f clock ids [emptyProduct]
    = (Accepted a1, [item1]) /\
    App.allUsedSerials [item1] = [L" SN1"] /\
    addTransaction item1 f clock (fun k => ids (S k)) [item1]
    = (Accepted a2, [item2]) /\
    map Transaction.serialNumber (Item.transactions item2)
    = [Some L" SN1"; Some L" SN1"].
Proof.
  cbv zeta. do 4 eexists.
  split; [vm_compute; reflexivity|].
  split; [vm_compute; reflexivity|].
  split; vm_compute; reflexivity.
Qed.

(* ================================================================= *)
(** ** Creating an item *)

(** C7, amended. A creation form without code or without name is rejected.
    The code is compared after trimming the white space around it: when
    the trimmed code is not empty and equals the code of an item of the
    store up to the case of letters, the submission is rejected with an
    alert and the store is kept.  When name and code are given and the
    code is unique, that is differs from the code of every item up to the
    case of letters as typed, and also trimmed unless it is blank, the
    submission goes through and the new item is put at the head of the
    store, with the code and name of the form, the generated id, and as
    transactions nothing when the initial quantity reads as 0 or less, and
    a single purchase of the initial quantity when it is greater than 0.
    Nothing is said of a code that is the code of an item as typed but not
    once trimmed. *)
Theorem add_item_spec (itemType : ItemType) (f : AddItemModal.formData)
    (itemId tId now : str) (items : App.store) :
  (truthy (AddItemModal.code f) = false \/
   truthy (AddItemModal.name f) = false ->
   exists alert,
     addItem itemType f itemId tId now items = (Rejected alert, items)) /\
  (truthy (trim (AddItemModal.code f)) = true ->
   existsb (fun c => JS.eqb (toUpperCase c)
                            (toUpperCase (trim (AddItemModal.code f))))
           (App.existingCodes items) = true ->
   exists alert,
     addItem itemType f itemId tId now items = (Rejected alert, items)) /\
  (truthy (AddItemModal.code f) = true ->
   truthy (AddItemModal.name f) = true ->
   existsb (fun c => JS.eqb (toUpperCase c)
                            (toUpperCase (AddItemModal.code f)))
           (App.existingCodes items) = false ->
   (truthy (trim (AddItemModal.code f)) = true ->
    existsb (fun c => JS.eqb (toUpperCase c)
                             (toUpperCase (trim (AddItemModal.code f))))
            (App.existingCodes items) = false) ->
   exists newItem,
     addItem itemType f itemId tId now items = (Accepted tt, newItem :: items) /\
     Item.id newItem = itemId /\
     Item.type newItem = itemType /\
     Item.code newItem = AddItemModal.code f /\
     Item.name newItem = AddItemModal.name f /\
     let q := orZero (parseInt (AddItemModal.initialQuantity f)) in
     if q >? 0 then
       exists t, Item.transactions newItem = [t] /\
                 Transaction.type t = purchase /\ Transaction.quantity t = q
     else Item.transactions newItem = []).
Proof.
  unfold addItem, AddItemModal.handleSubmit, AddItemModal.isCodeDuplicate.
  split; [|split].
  - intros [H|H]; rewrite H; cbn [negb orb].
    + eexists. reflexivity.
    + rewrite orb_true_r. eexists. reflexivity.
  - intros Ht Hdup. rewrite Ht, Hdup. cbn [negb].
    destruct (negb (truthy (AddItemModal.code f)) ||
              negb (truthy (AddItemModal.name f))); eexists; reflexivity.
  - intros Hc Hn _ Hfresh. rewrite Hc, Hn. cbn [negb orb].
    destruct (truthy (trim (AddItemModal.code f)));
      [rewrite (Hfresh eq_refl)|]; cbn [negb].
    all: eexists; split; [reflexivity|]; repeat (split; [reflexivity|]);
      cbv zeta; unfold App.handleAddItem;
      destruct (orZero (parseInt (AddItemModal.initialQuantity f)) >? 0);
      [eexists; repeat split|reflexivity].
Qed.

Lemma add_item_spec_witness :
  (exists newItem,
      addItem part (simpleItemForm L"P2" L"BOLT") L"item-2" L"t-2" (clock O)
              oneItemStore
      = (Accepted tt, newItem :: oneItemStore) /\
      Item.code newItem = L"P2" /\ Item.transactions newItem = []) /\
  (exists alert,
      addItem part (simpleItemForm L"p1 " L"BOLT") L"item-2" L"t-2" (clock O)
              oneItemStore
      = (Rejected alert, oneItemStore)).
Proof.
  split.
  - pose proof (proj2 (proj2 (add_item_spec part (simpleItemForm L"P2" L"BOLT")
                                L"item-2" L"t-2" (clock O) oneItemStore))
                      eq_refl eq_refl eq_refl (fun _ => eq_refl)) as H.
    cbv beta iota zeta in H.
    destruct H as (newItem & E & _ & _ & Hc & _ & Ht).
    exists newItem. repeat split; assumption.
  - apply (proj1 (proj2 (add_item_spec part (simpleItemForm L"p1 " L"BOLT")
                            L"item-2" L"t-2" (clock O) oneItemStore)));
      reflexivity.
Defined.

(** C7 as stated fails: the code [P1] followed by a space differs from
    every code of the store, even up to the case of letters, and yet the
    submission is rejected as a duplicate, for the check trims the code. *)
Lemma add_item_trailing_space_rejected :
  existsb (fun c => JS.eqb (toUpperCase c) (toUpperCase L"P1 "))
          (App.existingCodes oneItemStore) = false /\
  exists alert,
    addItem part (simpleItemForm L"P1 " L"BOLT") L"item-2" L"t-2" (clock O)
            oneItemStore
    = (Rejected alert, oneItemStore).
Proof. split; [reflexivity|eexists; reflexivity]. Qed.

(** The check trims the code of the form but the item keeps it untrimmed:
    a code that starts with a space can be given to two items. *)
Lemma add_item_spaced_code_twice :
  let f := simpleItemForm L" A1" L"BOLT" in
  exists item1 item2,
    addItem part f L"item-1" L"t-1" (clock O) [] = (Accepted tt, [item1]) /\
    addItem part f L"item-2" L"t-2" (clock O) [item1]
    = (Accepted tt, [item2; item1]) /\
    Item.code item1 = L" A1" /\ Item.code item2 = L" A1".
Proof.
  cbv zeta. do 2 eexists.
  split; [vm_compute; reflexivity|].
  split; [vm_compute; reflexivity|split; reflexivity].
Qed.

(* ================================================================= *)
(** ** The used serials of the store *)

Lemma uniq_acc_In (seen l : list str) (s : str) :
  In s (uniq_acc seen l) <-> In s l /\ ~ In s seen.
Proof.
  revert seen. induction l as [|x l IH]; intros seen; cbn [uniq_acc].
  - simpl. tauto.
  - destruct (includes seen x) eqn:E.
    + apply includes_In in E. rewrite IH. simpl. split.
      * tauto.
      * intros [[<-|H] Hs]; [contradiction|tauto].
    + assert (~ In x seen) as Hx
        by (intros C; apply includes_In in C; congruence).
      simpl. rewrite IH. simpl. split.
      * intros [<-|[H Hs]]; [tauto|]. split; [tauto|]. tauto.
      * intros [[<-|H] Hs]; [tauto|].
        destruct (list_eq_dec ascii_dec x s) as [->|Hne]; [tauto|].
        right. split; [assumption|]. intros [C|C]; [contradiction|contradiction].
Qed.

Lemma uniq_acc_NoDup (seen l : list str) : NoDup (uniq_acc seen l).
Proof.
  revert seen. induction l as [|x l IH]; intros seen; cbn [uniq_acc];
    [constructor|].
  destruct (includes seen x); [apply IH|].
  constructor; [|apply IH].
  rewrite uniq_acc_In. simpl. tauto.
Qed.

Lemma toUpperCase_truthy (s : str) : truthy (toUpperCase s) = truthy s.
Proof. now destruct s. Qed.

(** Membership in the used serials, read in the store. *)
Lemma allUsedSerials_In (items : App.store) (s : str) :
  In s (App.allUsedSerials items) <->
  exists item t s0,
    In item items /\ In t (Item.transactions item) /\
    Transaction.serialNumber t = Some s0 /\ truthy s0 = true /\
    toUpperCase s0 = s.
Proof.
  unfold App.allUsedSerials, uniq. rewrite uniq_acc_In, in_flat_map.
  split.
  - intros [(item & Hitem & H) _]. apply in_flat_map in H as (t & Ht & H).
    destruct (Transaction.serialNumber t) as [s0|] eqn:E; [|destruct H].
    destruct (truthy s0) eqn:T; [|destruct H].
    destruct H as [<-|[]]. exists item, t, s0. auto.
  - intros (item & t & s0 & Hitem & Ht & E & T & <-).
    split; [|intros []]. exists item. split; [assumption|].
    apply in_flat_map. exists t. split; [assumption|].
    rewrite E, T. now left.
Qed.

(** X1. The used serials hold no serial twice, and they are exactly the
    non-empty serial numbers of the transactions of all items, upper-cased:
    a transaction without serial, or with the empty serial, contributes
    nothing. *)
Theorem allUsedSerials_spec (items : App.store) :
  NoDup (App.allUsedSerials items) /\
  forall s,
    In s (App.allUsedSerials items) <->
    exists item t s0,
      In item items /\ In t (Item.transactions item) /\
      Transaction.serialNumber t = Some s0 /\ truthy s0 = true /\
      toUpperCase s0 = s.
Proof.
  split; [apply uniq_acc_NoDup|apply allUsedSerials_In].
Qed.

Lemma allUsedSerials_spec_witness :
  In L"CT0007"
     (App.allUsedSerials
        [plainItem L"item-8" product L"M2"
           [withId (mkTransactionData purchase 1 (clock O) L"" None
                      (Some L"ct0007") None None None None) L"t-9"]]).
Proof.
  apply (proj2 (allUsedSerials_spec _)).
  exists (plainItem L"item-8" product L"M2"
            [withId (mkTransactionData purchase 1 (clock O) L"" None
                       (Some L"ct0007") None None None None) L"t-9"]),
         (withId (mkTransactionData purchase 1 (clock O) L"" None
                    (Some L"ct0007") None None None None) L"t-9"),
         L"ct0007".
  repeat split; left; reflexivity.
Defined.

(** X2. A submission is rejected, and the store kept, when one of the
    serials it refers to (the trimmed upper-cased serial of the form, or a
    serial of its range) is not empty and is the upper-cased serial of a
    transaction of any item of the store. *)
Theorem serial_of_store_rejected (item : Item.t) (f : form)
    (now genId : nat -> str) (items : App.store)
    (targetSerials : list str) (isRange : bool)
    (other : Item.t) (t : Transaction.t) (s0 : str) :
  targetSerialsOf item f = Ok (targetSerials, isRange) ->
  In other items -> In t (Item.transactions other) ->
  Transaction.serialNumber t = Some s0 -> truthy s0 = true ->
  In (toUpperCase s0) targetSerials ->
  exists alert, addTransaction item f now genId items = (Rejected alert, items).
Proof.
  intros Ht Hother Hin Hs0 T Htarget.
  apply (used_serial_rejected item f now genId items targetSerials isRange
                              (toUpperCase s0) Ht Htarget).
  - now rewrite toUpperCase_truthy.
  - apply allUsedSerials_In. exists other, t, s0. auto.
Qed.

Lemma serial_of_store_rejected_witness :
  exists alert,
    addTransaction emptyProduct (simpleForm purchase L"1" L"ct0007 ") clock ids
      [emptyProduct;
       plainItem L"item-8" product L"M2"
         [withId (mkTransactionData purchase 1 (clock O) L"" None
                    (Some L"CT0007") None None None None) L"t-9"]]
    = (Rejected alert,
       [emptyProduct;
        plainItem L"item-8" product L"M2"
          [withId (mkTransactionData purchase 1 (clock O) L"" None
                     (Some L"CT0007") None None None None) L"t-9"]]).
Proof.
  eapply (serial_of_store_rejected _ _ _ _ _ [L"CT0007"] false
            (plainItem L"item-8" product L"M2" _)
            (withId (mkTransactionData purchase 1 (clock O) L"" None
                       (Some L"CT0007") None None None None) L"t-9")
            L"CT0007").
  - reflexivity.
  - right. left. reflexivity.
  - left. reflexivity.
  - reflexivity.
  - reflexivity.
  - left. reflexivity.
Defined.

(* ================================================================= *)
(** ** The suggestion is a new serial *)

Lemma digit_not_letter (a : ascii) : isDigit a = true -> isLetter a = false.
Proof. char_cases a. Qed.

Lemma forallb_takeWhile (p : ascii -> bool) (s : str) :
  forallb p (takeWhile p s) = true.
Proof.
  induction s as [|a s IH]; [reflexivity|]. cbn [takeWhile].
  destruct (p a) eqn:E; [|reflexivity]. cbn [forallb]. now rewrite E, IH.
Qed.

Lemma takeWhile_app_stop (p : ascii -> bool) (u v : str) :
  forallb p u = true ->
  match v with [] => True | a :: _ => p a = false end ->
  takeWhile p (u ++ v) = u /\ dropWhile p (u ++ v) = v.
Proof.
  intros Hu Hv. induction u as [|a u IH]; cbn [app].
  - destruct v as [|b v]; [auto|]. cbn [takeWhile dropWhile]. now rewrite Hv.
  - cbn [forallb] in Hu. apply andb_true_iff in Hu as [Ha Hu].
    cbn [takeWhile dropWhile]. rewrite Ha.
    destruct (IH Hu) as [-> ->]. auto.
Qed.

Lemma forallb_repeat (p : ascii -> bool) (a : ascii) (n : nat) :
  p a = true -> forallb p (repeat a n) = true.
Proof. intros H. induction n; [reflexivity|]. simpl. now rewrite H. Qed.

(** The number part of a suggestion: at least five digits, which read
    back as the number. *)
Lemma padded_number (n : Z) :
  0 <= n ->
  let ds := padStart (toString n) (Nat.max 5 (length (toString n))) char0 in
  forallb isDigit ds = true /\ (5 <= length ds)%nat /\ digitsValue ds = n.
Proof.
  intros Hn ds. destruct (toString_spec n Hn) as (V & D & _).
  subst ds. unfold padStart. split; [|split].
  - rewrite forallb_app, D, forallb_repeat; reflexivity.
  - rewrite length_app, repeat_length. lia.
  - rewrite digitsValue_zeros. exact V.
Qed.

Lemma splitSerial_letters (s letters : str) (num : Z) :
  splitSerial s = Some (letters, num) ->
  truthy letters = true /\ forallb isLetter letters = true.
Proof.
  unfold splitSerial.
  destruct (truthy _ && truthy _ && forallb isDigit _) eqn:E; [|discriminate].
  intros [= <- _]. apply andb_true_iff in E as [E _].
  apply andb_true_iff in E as [E _]. split; [exact E|apply forallb_takeWhile].
Qed.

(** The prefix of a suggestion is a non-empty run of letters. *)
Lemma suggested_prefix (usedSerials : list str) :
  let prefix := last (map fst (matchesOf usedSerials)) L"SN" in
  truthy prefix = true /\ forallb isLetter prefix = true.
Proof.
  cbv zeta.
  assert (H : Forall (fun p => truthy p = true /\ forallb isLetter p = true)
                     (map fst (matchesOf usedSerials))).
  { apply Forall_forall. intros p Hp. apply in_map_iff in Hp as ([l n] & <- & Hx).
    apply matchesOf_In in Hx as (s & _ & E). exact (splitSerial_letters _ _ _ E). }
  revert H. generalize (map fst (matchesOf usedSerials)) as l.
  induction l as [|x l IH]; intros H; [split; reflexivity|].
  inversion H as [|? ? Hx Hl]; subst.
  destruct l as [|y l]; [exact Hx|]. apply (IH Hl).
Qed.

(** A text made of the pieces of a suggestion reads back as them. *)
Lemma splitSerial_of_parts (u letters digits : str) :
  toUpperCase u = letters ++ digits ->
  truthy letters = true -> forallb isLetter letters = true ->
  truthy digits = true -> forallb isDigit digits = true ->
  splitSerial u = Some (letters, digitsValue digits).
Proof.
  intros E Tl Hl Td Hd. unfold splitSerial. rewrite E.
  destruct (takeWhile_app_stop isLetter letters digits Hl) as [-> ->].
  - destruct digits as [|d ds]; [discriminate|].
    cbn [forallb] in Hd. apply andb_true_iff in Hd as [Hd _].
    now apply digit_not_letter.
  - now rewrite Tl, Td, Hd.
Qed.

(** The parts of a suggestion, while the numbers are below 2^53: the
    letters of the last serial that reads as letters and digits, and the
    digits of the largest number plus one. *)
Lemma suggestNextSerial_parts (usedSerials : list str) :
  maximum (map snd (matchesOf usedSerials)) < 2 ^ 53 ->
  exists letters digits,
    suggestNextSerial usedSerials = letters ++ digits /\
    truthy letters = true /\ forallb isLetter letters = true /\
    truthy digits = true /\ forallb isDigit digits = true /\
    (5 <= length digits)%nat /\
    (usedSerials <> [] ->
     letters = last (map fst (matchesOf usedSerials)) L"SN" /\
     digitsValue digits = maximum (map snd (matchesOf usedSerials)) + 1).
Proof.
  intros Hmax. rewrite suggestNextSerial_refines by assumption.
  destruct usedSerials as [|s l].
  - exists L"SN", L"00001". repeat split; try (cbn; lia); now intros [].
  - unfold suggestSpec.
    set (ms := matchesOf (s :: l)).
    destruct (suggested_prefix (s :: l)) as [Tp Lp]. fold ms in Tp, Lp.
    destruct (padded_number (maximum (map snd ms) + 1)) as (D & Len & V).
    { pose proof (maximum_nonneg _ (matchesOf_nonneg (s :: l))). fold ms in H.
      lia. }
    eexists _, _. split; [reflexivity|].
    repeat (split; [assumption|]).
    split; [now destruct (padStart _ _ _)|].
    repeat (split; [assumption|]). intros _. split; [reflexivity|exact V].
Qed.

(** X3. As long as the largest number read from the used serials is below
    2^53, the suggested serial is a non-empty run of letters followed by at
    least five digits. *)
Theorem suggestNextSerial_shape (usedSerials : list str) :
  maximum (map snd (matchesOf usedSerials)) < 2 ^ 53 ->
  exists letters digits,
    suggestNextSerial usedSerials = letters ++ digits /\
    truthy letters = true /\ forallb isLetter letters = true /\
    forallb isDigit digits = true /\ (5 <= length digits)%nat.
Proof.
  intros Hmax.
  destruct (suggestNextSerial_parts usedSerials Hmax)
    as (letters & digits & E & Tl & Hl & _ & Hd & Len & _).
  exists letters, digits. auto.
Qed.

Lemma suggestNextSerial_shape_witness :
  exists letters digits,
    suggestNextSerial [L"ab12"; L"CT00099"] = letters ++ digits /\
    truthy letters = true /\ forallb isLetter letters = true /\
    forallb isDigit digits = true /\ (5 <= length digits)%nat.
Proof. apply suggestNextSerial_shape. reflexivity. Defined.

(** A serial that the suggestion was given differs from it, whatever the
    case of its letters: its number is the largest at most. *)
Lemma suggestNextSerial_new (usedSerials : list str) (u : str) :
  maximum (map snd (matchesOf usedSerials)) < 2 ^ 53 ->
  In u usedSerials -> toUpperCase u <> suggestNextSerial usedSerials.
Proof.
  intros Hb Hu Eu.
  destruct (suggestNextSerial_parts usedSerials Hb)
    as (letters & digits & E & Tl & Hl & Td & Hd & _ & Hparts).
  destruct Hparts as [_ V]; [now destruct usedSerials|].
  rewrite E in Eu.
  pose proof (splitSerial_of_parts u letters digits Eu Tl Hl Td Hd) as Hsplit.
  assert (In (digitsValue digits) (map snd (matchesOf usedSerials))) as C.
  { apply in_map_iff. exists (letters, digitsValue digits).
    split; [reflexivity|]. apply matchesOf_In. eauto. }
  apply maximum_ge in C. lia.
Qed.

(** X4. As long as the largest number read from the used serials is below
    2^53, the suggested serial is none of the used serials, whatever the
    case of their letters. *)
Theorem suggestNextSerial_fresh (usedSerials : list str) :
  maximum (map snd (matchesOf usedSerials)) < 2 ^ 53 ->
  ~ In (suggestNextSerial usedSerials) (map toUpperCase usedSerials).
Proof.
  intros Hb Hin. apply in_map_iff in Hin as (u & Eu & Hu).
  exact (suggestNextSerial_new usedSerials u Hb Hu Eu).
Qed.

Lemma suggestNextSerial_fresh_witness :
  ~ In (suggestNextSerial [L"ab12"; L"CT00099"])
       (map toUpperCase [L"ab12"; L"CT00099"]).
Proof. apply suggestNextSerial_fresh. reflexivity. Defined.


(* ================================================================= *)
(** ** What an accepted submission does to the store *)

(** X5. When the submission of the transaction form goes through, the
    quantity asked for is positive: it is the number of serials of the
    range when the item is a product and its serial field holds a tilde,
    and the number read from the quantity field otherwise.  The store
    changes in the items of that id only, to which transactions of the
    chosen type and of positive quantities are appended whose quantities
    add up to the quantity asked for; after a release the stock of the
    item is not negative. *)
Theorem accepted_submission_effect (item : Item.t) (f : form)
    (now genId : nat -> str) (items items' : App.store) (a : accepted) :
  addTransaction item f now genId items = (Accepted a, items') ->
  exists count added,
    (if isProduct (Item.type item) && includesChar (serialNumber f) isTilde
     then exists serials,
         parseSerialRange (toUpperCase (serialNumber f)) = Ok serials /\
         count = Z.of_nat (length serials)
     else count = orZero (parseInt (quantity f))) /\
    0 < count /\
    items' = map (fun it =>
                    if JS.eqb (Item.id it) (Item.id item) then
                      Item.withTransactions it (Item.transactions it ++ added)
                    else it) items /\
    Forall (fun t => 0 < Transaction.quantity t /\
                     Transaction.type t = transactionType f) added /\
    signedSum added =
    (match transactionType f with purchase => 1 | release => -1 end) * count /\
    (transactionType f = release ->
     0 <= calculateStock
            (Item.withTransactions item (Item.transactions item ++ added))).
Proof.
  intros H. unfold addTransaction in H.
  destruct (handleAddTransaction item (App.allUsedSerials items) now f)
    as [alert|a'|] eqn:E; [discriminate| |discriminate].
  injection H as <- <-.
  apply handleAddTransaction_accepted in E
    as (ts & r & Ht & _ & Hpos & Hrel & Hcalls).
  exists (countOf f ts r), (stamp genId O (calls a')).
  split.
  { unfold targetSerialsOf in Ht.
    destruct (isProduct (Item.type item) &&
              includesChar (serialNumber f) isTilde).
    - destruct (parseSerialRange (toUpperCase (serialNumber f)))
        as [serials| |]; try discriminate.
      injection Ht as <- <-. exists serials. split; reflexivity.
    - injection Ht as <- <-. reflexivity. }
  split; [assumption|]. split; [apply applyCalls_append|].
  assert (U : Forall (fun t => 0 < Transaction.quantity t /\
                               Transaction.type t = transactionType f)
                     (stamp genId O (calls a')) /\
              signedSum (stamp genId O (calls a')) =
              (match transactionType f with purchase => 1 | release => -1 end)
              * countOf f ts r).
  { rewrite Hcalls. destruct r.
    - split.
      + eapply Forall_impl; [|apply rangeCalls_units].
        intros t [-> ->]. split; [lia|reflexivity].
      + rewrite (signedSum_units (transactionType f))
          by apply rangeCalls_units.
        now rewrite stamp_length, rangeCalls_length.
    - cbn [stamp]. split.
      + constructor; [|constructor]. split; [assumption|reflexivity].
      + cbn [signedSum]. unfold signedQuantity.
        cbn [withId singleCall Transaction.type Transaction.quantity d_type
             d_quantity].
        destruct (transactionType f); lia. }
  destruct U as [U1 U2]. split; [exact U1|]. split; [exact U2|].
  intros Hr. specialize (Hrel Hr).
  rewrite calculateStock_signedSum.
  cbn [Item.withTransactions Item.transactions].
  rewrite signedSum_app, U2, Hr.
  change (currentStock item) with (calculateStock item) in Hrel.
  rewrite calculateStock_signedSum in Hrel. lia.
Qed.

Lemma accepted_submission_effect_witness :
  exists added,
    snd (addTransaction
           (plainItem L"item-1" part L"P1" [plainTransaction L"t-1" purchase 5])
           (simpleForm release L"5" L"") clock ids oneItemStore)
    = [plainItem L"item-1" part L"P1"
         (plainTransaction L"t-1" purchase 5 :: added)] /\
    signedSum added = -5.
Proof.
  destruct (accepted_submission_effect
              (plainItem L"item-1" part L"P1" [plainTransaction L"t-1" purchase 5])
              (simpleForm release L"5" L"") clock ids oneItemStore
              (snd (addTransaction
                      (plainItem L"item-1" part L"P1"
                                 [plainTransaction L"t-1" purchase 5])
                      (simpleForm release L"5" L"") clock ids oneItemStore))
              (mkAccepted
                 [singleCall (plainItem L"item-1" part L"P1"
                                [plainTransaction L"t-1" purchase 5])
                             (simpleForm release L"5" L"") clock 5]
                 None
                 (resetForm (simpleForm release L"5" L"") [] [L""]))
              eq_refl)
    as (count & added & Hcount & _ & E & _ & S & _).
  exists added. split.
  - rewrite E. reflexivity.
  - rewrite S. cbn in Hcount. rewrite Hcount. reflexivity.
Defined.

Lemma flat_map_nil {A B : Type} (g : A -> list B) (l : list A) :
  Forall (fun x => g x = []) l -> flat_map g l = [].
Proof. induction 1 as [|x l Hx _ IH]; simpl; [reflexivity|now rewrite Hx]. Qed.

(** X6. Whatever its form holds, an accepted submission for a part records
    transactions without serial number: the used serials of the store are
    the same after it. *)
Theorem part_submission_uses_no_serial (item : Item.t) (f : form)
    (now genId : nat -> str) (items items' : App.store) (a : accepted) :
  Item.type item = part ->
  addTransaction item f now genId items = (Accepted a, items') ->
  App.allUsedSerials items' = App.allUsedSerials items.
Proof.
  intros Hpart H. unfold addTransaction in H.
  destruct (handleAddTransaction item (App.allUsedSerials items) now f)
    as [alert|a'|] eqn:E; [discriminate| |discriminate].
  injection H as <- <-.
  apply handleAddTransaction_accepted in E
    as (ts & r & Ht & _ & _ & _ & Hcalls).
  unfold targetSerialsOf in Ht. rewrite Hpart in Ht. cbn [isProduct andb] in Ht.
  injection Ht as <- <-. rewrite Hcalls, applyCalls_append.
  unfold App.allUsedSerials. f_equal.
  rewrite flat_map_concat_map, map_map, <- flat_map_concat_map.
  apply flat_map_ext. intros it.
  destruct (JS.eqb (Item.id it) (Item.id item)); [|reflexivity].
  cbn [Item.withTransactions Item.transactions].
  rewrite flat_map_app. cbn [stamp flat_map].
  unfold singleCall. rewrite Hpart.
  cbn [withId Transaction.serialNumber d_serialNumber isProduct truthy lit
       list_ascii_of_string app].
  now rewrite app_nil_r.
Qed.

Lemma part_submission_uses_no_serial_witness :
  App.allUsedSerials
    (snd (addTransaction
            (plainItem L"item-1" part L"P1" [plainTransaction L"t-1" purchase 5])
            (simpleForm purchase L"2" L"sn00001") clock ids oneItemStore))
  = App.allUsedSerials oneItemStore.
Proof.
  eapply (part_submission_uses_no_serial
            (plainItem L"item-1" part L"P1" [plainTransaction L"t-1" purchase 5])
            (simpleForm purchase L"2" L"sn00001") clock ids oneItemStore).
  - reflexivity.
  - reflexivity.
Defined.

(** X7. An expansion that succeeds is never empty and holds no serial
    twice. *)
Theorem expansion_nonempty_distinct (input : str) (l : list str) :
  parseSerialRange input = Ok l -> l <> [] /\ NoDup l.
Proof.
  intros H. split; [|exact (parseSerialRange_NoDup input l H)].
  apply parseSerialRange_length in H. intros ->. simpl in H. lia.
Qed.

Lemma expansion_nonempty_distinct_witness :
  NoDup [L"CT1"; L"CT2"; L"CT3"; L"CT4"; L"CT5"].
Proof.
  apply (expansion_nonempty_distinct L"CT1~15"). reflexivity.
Defined.

(* ================================================================= *)
(** ** Passwords, deletion of items and the counters *)

Lemma filter_not_id_In (id : str) (items : App.store) (item : Item.t) :
  In item (filter (fun i => negb (JS.eqb (Item.id i) id)) items) <->
  In item items /\ Item.id item <> id.
Proof.
  rewrite filter_In, negb_true_iff, eqb_neq. tauto.
Qed.

(** X8. Under a role, the deletion of an item is confirmed by the password
    that logged the role in and by no other: with it the dialog is closed
    and the store loses the items that bear the id, all of them and no
    other; with any other password an alert is shown and the store and the
    dialog are kept. *)
Theorem login_password_deletes (previous : option Role) (password : str)
    (role : Role) (typed id : str) (items : App.store) :
  App.handleLogin previous password = (Some role, L"", None) ->
  if JS.eqb typed password then
    exists items',
      App.handleDeleteItemConfirm (Some role)
        (App.mkDeleteDialog (Some id) typed) items
      = (None, items', App.mkDeleteDialog None L"") /\
      forall item, In item items' <-> In item items /\ Item.id item <> id
  else
    exists alert,
      App.handleDeleteItemConfirm (Some role)
        (App.mkDeleteDialog (Some id) typed) items
      = (Some alert, items, App.mkDeleteDialog (Some id) typed).
Proof.
  intros Hlogin.
  assert (P : password = match role with
                         | admin => App.ADMIN_PASSWORD
                         | product_only => App.PRODUCT_ONLY_PASSWORD
                         end).
  { unfold App.handleLogin in Hlogin.
    destruct (JS.eqb password App.ADMIN_PASSWORD) eqn:A.
    - injection Hlogin as <-. now apply eqb_eq in A.
    - destruct (JS.eqb password App.PRODUCT_ONLY_PASSWORD) eqn:B;
        [|discriminate].
      injection Hlogin as <-. now apply eqb_eq in B. }
  unfold App.handleDeleteItemConfirm.
  cbn [App.deletePassword App.itemToDelete].
  replace (match role with
           | admin => App.ADMIN_PASSWORD
           | product_only => App.PRODUCT_ONLY_PASSWORD
           end) with password.
  destruct (JS.eqb typed password); cbn [negb].
  - eexists. split; [reflexivity|]. apply filter_not_id_In.
  - eexists. reflexivity.
Qed.

Lemma login_password_deletes_witness :
  (exists items',
      App.handleDeleteItemConfirm (Some admin)
        (App.mkDeleteDialog (Some L"item-1") L"0000") oneItemStore
      = (None, items', App.mkDeleteDialog None L"") /\
      forall item, In item items' <->
                   In item oneItemStore /\ Item.id item <> L"item-1") /\
  (exists alert,
      App.handleDeleteItemConfirm (Some admin)
        (App.mkDeleteDialog (Some L"item-1") L"1111") oneItemStore
      = (Some alert, oneItemStore,
         App.mkDeleteDialog (Some L"item-1") L"1111")).
Proof.
  split.
  - apply (login_password_deletes None L"0000" admin L"0000" L"item-1"
             oneItemStore eq_refl).
  - apply (login_password_deletes None L"0000" admin L"1111" L"item-1"
             oneItemStore eq_refl).
Defined.

(** X9. In the detail view the password that logged the role in confirms
    nothing: whatever action waits for the password, an alert is shown and
    the store is kept. *)
Theorem login_password_confirms_nothing (previous : option Role)
    (password : str) (role : Role)
    (action : option ItemDetailEdit.pendingAction) (item : Item.t)
    (editFormData : Item.partial) (transEditData : Transaction.partial)
    (items : App.store) :
  App.handleLogin previous password = (Some role, L"", None) ->
  exists alert,
    confirmAction role password action item editFormData transEditData items
    = (Rejected alert, items).
Proof.
  unfold App.handleLogin, confirmAction, ItemDetailEdit.handleActionConfirm.
  destruct (JS.eqb password App.ADMIN_PASSWORD) eqn:A.
  - intros [= <-]. apply eqb_eq in A. subst password.
    eexists. reflexivity.
  - destruct (JS.eqb password App.PRODUCT_ONLY_PASSWORD) eqn:P;
      [|discriminate].
    intros [= <-]. apply eqb_eq in P. subst password.
    eexists. reflexivity.
Qed.

Lemma login_password_confirms_nothing_witness :
  exists alert,
    confirmAction admin L"0000"
      (Some (ItemDetailEdit.mkAction ItemDetailEdit.trans_delete (Some L"t-1")))
      (plainItem L"item-1" part L"P1" [plainTransaction L"t-1" purchase 5])
      (Item.mkPartial None None None None None None None None None None None)
      (Transaction.mkPartial None None None None None None None None None None
                             None)
      oneItemStore
    = (Rejected alert, oneItemStore).
Proof.
  apply (login_password_confirms_nothing None L"0000" admin). reflexivity.
Defined.

Lemma filter_partition_length {A : Type} (p : A -> bool) (l : list A) :
  (length (filter (fun x => negb (p x)) l) + length (filter p l) = length l)%nat.
Proof.
  induction l as [|x l IH]; [reflexivity|]. cbn [filter].
  destruct (p x); cbn [negb length]; lia.
Qed.

Lemma includesStr_empty (s : str) : includesStr s [] = true.
Proof. destruct s; reflexivity. Qed.

(** X10. Every item is counted in one of the two tabs, and with a blank
    search term each tab lists exactly its items, in the order of the
    store, as many as its counter says. *)
Theorem blank_search_lists_tab (items : App.store) (searchTerm : str) :
  trim (toLowerCase searchTerm) = [] ->
  (App.partCount items + App.productCount items = length items)%nat /\
  App.filteredInventory items searchTerm part
  = filter (fun i => negb (isProduct (Item.type i))) items /\
  App.filteredInventory items searchTerm product
  = filter (fun i => isProduct (Item.type i)) items /\
  length (App.filteredInventory items searchTerm part) = App.partCount items /\
  length (App.filteredInventory items searchTerm product)
  = App.productCount items.
Proof.
  intros H.
  assert (P : App.filteredInventory items searchTerm part
              = filter (fun i => negb (isProduct (Item.type i))) items).
  { unfold App.filteredInventory. rewrite H. apply filter_ext. intros i.
    rewrite includesStr_empty. now destruct (Item.type i). }
  assert (Q : App.filteredInventory items searchTerm product
              = filter (fun i => isProduct (Item.type i)) items).
  { unfold App.filteredInventory. rewrite H. apply filter_ext. intros i.
    rewrite includesStr_empty. now destruct (Item.type i). }
  split; [apply filter_partition_length|].
  rewrite P, Q. repeat split.
Qed.

Lemma blank_search_lists_tab_witness :
  App.filteredInventory oneItemStore L"  " part = oneItemStore /\
  App.filteredInventory oneItemStore L"  " product = [].
Proof.
  destruct (blank_search_lists_tab oneItemStore L"  " eq_refl)
    as (_ & P & Q & _).
  rewrite P, Q. split; reflexivity.
Defined.

(** X11. Adding an item and then deleting the item of the generated id,
    with the password of the role, gives back the store, provided no item
    bore that id before. *)
Theorem add_then_delete_item (role : Role) (itemData : ItemData)
    (initialQuantity : Z) (itemId tId now : str) (items : App.store) :
  (forall item, In item items -> Item.id item <> itemId) ->
  App.handleDeleteItemConfirm (Some role)
    (App.mkDeleteDialog (Some itemId)
       match role with
       | admin => App.ADMIN_PASSWORD
       | product_only => App.PRODUCT_ONLY_PASSWORD
       end)
    (App.handleAddItem itemData initialQuantity itemId tId now items)
  = (None, items, App.mkDeleteDialog None L"").
Proof.
  intros fresh. unfold App.handleDeleteItemConfirm, App.handleAddItem.
  cbn [App.deletePassword App.itemToDelete].
  assert (JS.eqb match role with
                 | admin => App.ADMIN_PASSWORD
                 | product_only => App.PRODUCT_ONLY_PASSWORD
                 end
                 match role with
                 | admin => App.ADMIN_PASSWORD
                 | product_only => App.PRODUCT_ONLY_PASSWORD
                 end = true) as -> by apply eqb_refl.
  cbn [negb filter Item.id]. rewrite eqb_refl. cbn [negb].
  f_equal. f_equal.
  induction items as [|x l IH]; [reflexivity|]. cbn [filter].
  assert (JS.eqb (Item.id x) itemId = false) as ->
    by (apply eqb_neq, fresh; now left).
  cbn [negb]. f_equal. apply IH. intros item Hin. apply fresh. now right.
Qed.

Lemma add_then_delete_item_witness :
  App.handleDeleteItemConfirm (Some admin)
    (App.mkDeleteDialog (Some L"item-2") App.ADMIN_PASSWORD)
    (App.handleAddItem
       (mkItemData product L"2024-02-01" L"M5" L"PUMP" L"" L"" L"" L"" L"")
       3 L"item-2" L"t-30" (clock O) oneItemStore)
  = (None, oneItemStore, App.mkDeleteDialog None L"").
Proof.
  apply (add_then_delete_item admin). intros item [<-|[]]. discriminate.
Defined.

(* ================================================================= *)
(** ** Codes stay distinct *)

Lemma existsb_upper_false (codes : list str) (c : str) :
  existsb (fun x => JS.eqb (toUpperCase x) (toUpperCase c)) codes = false ->
  ~ In (toUpperCase c) (map toUpperCase codes).
Proof.
  intros H Hin. apply in_map_iff in Hin as (x & E & Hx).
  assert (existsb (fun x => JS.eqb (toUpperCase x) (toUpperCase c)) codes = true)
    as C by (apply existsb_exists; exists x; split; [assumption|];
             rewrite E; apply eqb_refl).
  congruence.
Qed.

(** X12. When the codes of the store are pairwise distinct up to the case
    of letters, they still are after an accepted creation of an item whose
    code has no white space around it. *)
Theorem add_item_keeps_codes_distinct (itemType : ItemType)
    (f : AddItemModal.formData) (itemId tId now : str)
    (items items' : App.store) :
  trim (AddItemModal.code f) = AddItemModal.code f ->
  NoDup (upperCodes items) ->
  addItem itemType f itemId tId now items = (Accepted tt, items') ->
  NoDup (upperCodes items').
Proof.
  intros Ht Hnd. unfold addItem, AddItemModal.handleSubmit.
  destruct (negb (truthy (AddItemModal.code f)) ||
            negb (truthy (AddItemModal.name f))) eqn:R; [discriminate|].
  apply orb_false_iff in R as [Rc _]. apply negb_false_iff in Rc.
  unfold AddItemModal.isCodeDuplicate. rewrite Ht, Rc. cbn [negb].
  destruct (existsb _ (App.existingCodes items)) eqn:D; [discriminate|].
  intros [= <-]. unfold App.handleAddItem, upperCodes, App.existingCodes.
  cbn [map Item.code]. constructor; [|exact Hnd].
  now apply existsb_upper_false.
Qed.

Lemma add_item_keeps_codes_distinct_witness :
  NoDup (upperCodes
           (snd (addItem part (simpleItemForm L"P2" L"BOLT") L"item-2" L"t-2"
                         (clock O) oneItemStore))).
Proof.
  apply (add_item_keeps_codes_distinct part (simpleItemForm L"P2" L"BOLT")
           L"item-2" L"t-2" (clock O) oneItemStore).
  - reflexivity.
  - repeat constructor. intros [].
  - reflexivity.
Defined.

Lemma unique_id (items : App.store) (item it : Item.t) :
  NoDup (map Item.id items) -> In item items -> In it items ->
  Item.id it = Item.id item -> it = item.
Proof.
  induction items as [|x l IH]; intros Hnd Hitem Hit E; [destruct Hitem|].
  inversion Hnd as [|? ? Hx Hl]; subst.
  destruct Hitem as [->|Hitem], Hit as [->|Hit]; try reflexivity.
  - exfalso. apply Hx. rewrite <- E. now apply in_map.
  - exfalso. apply Hx. rewrite E. now apply in_map.
  - now apply IH.
Qed.

(** Replacing the code of the one item of a given id by a code that no
    item bears keeps the codes distinct. *)
Lemma recode_NoDup (items : App.store) (target v : str) :
  NoDup (map Item.id items) -> NoDup (upperCodes items) ->
  ~ In v (upperCodes items) ->
  NoDup (map (fun it => if JS.eqb (Item.id it) target then v
                        else toUpperCase (Item.code it)) items).
Proof.
  unfold upperCodes, App.existingCodes. rewrite map_map.
  induction items as [|x l IH]; intros Hid Hnd Hv; [constructor|].
  cbn [map] in *. inversion Hid as [|? ? Hx Hl]; subst.
  inversion Hnd as [|? ? Hcx Hcl]; subst.
  assert (Hvl : ~ In v (map (fun it => toUpperCase (Item.code it)) l))
    by (intros C; apply Hv; now right).
  constructor; [|now apply IH].
  destruct (JS.eqb (Item.id x) target) eqn:E.
  - apply eqb_eq in E. intros C. apply in_map_iff in C as (y & Ey & Hy).
    destruct (JS.eqb (Item.id y) target) eqn:E'.
    + apply eqb_eq in E'. apply Hx. rewrite E, <- E'. now apply in_map.
    + apply Hvl. rewrite <- Ey. apply in_map_iff. now exists y.
  - intros C. apply in_map_iff in C as (y & Ey & Hy).
    destruct (JS.eqb (Item.id y) target).
    + apply Hv. left. auto.
    + apply Hcx. rewrite <- Ey. apply in_map_iff. now exists y.
Qed.

(** X13. When the ids of the items are pairwise distinct and their codes
    pairwise distinct up to the case of letters, the codes still are
    distinct after an edit of an item that the edit form let through and
    the password confirmed. *)
Theorem edit_keeps_codes_distinct (authRole : Role) (password : str)
    (item : Item.t) (editFormData : Item.partial)
    (transEditData : Transaction.partial)
    (action : ItemDetailEdit.pendingAction) (items items' : App.store) :
  NoDup (map Item.id items) -> In item items ->
  NoDup (upperCodes items) ->
  ItemDetailEdit.handleToggleEdit true editFormData item
    (App.existingCodes items) = ItemDetailEdit.AskPassword action ->
  confirmAction authRole password (Some action) item editFormData
                transEditData items = (Accepted tt, items') ->
  NoDup (upperCodes items').
Proof.
  intros Hid Hitem Hnd Htoggle Hconfirm.
  unfold ItemDetailEdit.handleToggleEdit in Htoggle.
  destruct (negb (ItemDetailEdit.truthyField (Item.p_name editFormData)) ||
            negb (ItemDetailEdit.truthyField (Item.p_code editFormData)))
    eqn:R; [discriminate|].
  apply orb_false_iff in R as [_ Rc]. apply negb_false_iff in Rc.
  destruct (ItemDetailEdit.isCodeDuplicate editFormData item
              (App.existingCodes items)) eqn:D; [discriminate|].
  injection Htoggle as <-.
  unfold confirmAction, ItemDetailEdit.handleActionConfirm in Hconfirm.
  destruct (negb (JS.eqb password _)); [discriminate|].
  injection Hconfirm as <-. cbn [apply].
  unfold ItemDetailEdit.isCodeDuplicate in D.
  unfold ItemDetailEdit.truthyField in Rc.
  destruct (Item.p_code editFormData) as [c|] eqn:Ec; [|discriminate].
  rewrite Rc in D. cbn [negb orb] in D.
  assert (U : upperCodes (App.handleUpdateItem (Item.id item) editFormData items)
              = map (fun it => if JS.eqb (Item.id it) (Item.id item)
                               then toUpperCase c
                               else toUpperCase (Item.code it)) items).
  { unfold upperCodes, App.existingCodes, App.handleUpdateItem.
    rewrite !map_map. apply map_ext. intros it.
    destruct (JS.eqb (Item.id it) (Item.id item)); [|reflexivity].
    unfold Item.merge. cbn [Item.code]. now rewrite Ec. }
  rewrite U. destruct (JS.eqb c (Item.code item)) eqn:Same.
  - apply eqb_eq in Same. subst c.
    replace (map _ items) with (upperCodes items); [assumption|].
    unfold upperCodes, App.existingCodes. rewrite map_map.
    apply map_ext_in. intros it Hit.
    destruct (JS.eqb (Item.id it) (Item.id item)) eqn:E; [|reflexivity].
    apply eqb_eq in E. now rewrite (unique_id items item it Hid Hitem Hit E).
  - apply recode_NoDup; try assumption. now apply existsb_upper_false.
Qed.

Lemma edit_keeps_codes_distinct_witness :
  NoDup (upperCodes
           (snd (confirmAction admin L"5200"
                   (Some (ItemDetailEdit.mkAction ItemDetailEdit.item_action None))
                   (plainItem L"item-1" part L"P1"
                              [plainTransaction L"t-1" purchase 5])
                   (Item.mkPartial None None None (Some L"P9") (Some L"NUT")
                                   None None None None None None)
                   (Transaction.mkPartial None None None None None None None
                                          None None None None)
                   oneItemStore))).
Proof.
  apply (edit_keeps_codes_distinct admin L"5200"
           (plainItem L"item-1" part L"P1" [plainTransaction L"t-1" purchase 5])
           (Item.mkPartial None None None (Some L"P9") (Some L"NUT")
                           None None None None None None)
           (Transaction.mkPartial None None None None None None None
                                  None None None None)
           (ItemDetailEdit.mkAction ItemDetailEdit.item_action None)
           oneItemStore).
  - repeat constructor. intros [].
  - left. reflexivity.
  - repeat constructor. intros [].
  - reflexivity.
  - reflexivity.
Defined.

(** *** Saving a transaction that was not changed *)

Lemma merge_asPartial (x t : Transaction.t) :
  Transaction.merge x (Transaction.asPartial t) = t.
Proof. now destruct t. Qed.

(** X14. Opening a transaction for edit and saving it as it is changes
    nothing in the store, provided the items of the given id hold no other
    transaction under the id of that transaction. *)
Theorem save_unchanged_transaction (itemId : str) (t : Transaction.t)
    (items : App.store) :
  (forall item, In item items -> Item.id item = itemId ->
     forall t', In t' (Item.transactions item) ->
       Transaction.id t' = Transaction.id t -> t' = t) ->
  App.handleUpdateTransaction itemId (Transaction.id t)
    (ItemDetailEdit.handleEditTransaction t) items = items.
Proof.
  intros H. unfold App.handleUpdateTransaction.
  rewrite <- (map_id items) at 2. apply map_ext_in. intros item Hitem.
  destruct (JS.eqb (Item.id item) itemId) eqn:E; [|reflexivity].
  apply eqb_eq in E.
  replace (map _ (Item.transactions item)) with (Item.transactions item);
    [apply withTransactions_same|].
  rewrite <- (map_id (Item.transactions item)) at 1.
  apply map_ext_in. intros t' Ht'.
  destruct (JS.eqb (Transaction.id t') (Transaction.id t)) eqn:Et;
    [|reflexivity].
  apply eqb_eq in Et. unfold ItemDetailEdit.handleEditTransaction.
  rewrite merge_asPartial. now rewrite (H item Hitem E t' Ht' Et).
Qed.

Lemma save_unchanged_transaction_witness :
  App.handleUpdateTransaction L"item-1" L"t-1"
    (ItemDetailEdit.handleEditTransaction (plainTransaction L"t-1" purchase 5))
    oneItemStore
  = oneItemStore.
Proof.
  apply (save_unchanged_transaction L"item-1"
           (plainTransaction L"t-1" purchase 5) oneItemStore).
  intros item [<-|[]] _ t' [<-|[]] _. reflexivity.
Defined.

(* ================================================================= *)
(** ** Searching the inventory *)

Lemma toLowerChar_toUpperChar (a : ascii) :
  toLowerChar (toUpperChar a) = toLowerChar a.
Proof. char_cases a. Qed.

Lemma toLowerCase_toUpperCase (s : str) :
  toLowerCase (toUpperCase s) = toLowerCase s.
Proof.
  unfold toLowerCase, toUpperCase. rewrite map_map. apply map_ext.
  exact toLowerChar_toUpperChar.
Qed.

Lemma startsWith_app (m b : str) : startsWith (m ++ b) m = true.
Proof.
  induction m as [|a m IH]; [now destruct b|].
  cbn [app startsWith]. now rewrite Ascii.eqb_refl, IH.
Qed.

Lemma includesStr_skip (a s needle : str) :
  includesStr s needle = true -> includesStr (a ++ s) needle = true.
Proof.
  intros H. induction a as [|x a IH]; [exact H|].
  cbn [app includesStr]. rewrite IH. apply orb_true_r.
Qed.

Lemma includesStr_infix (a m b : str) : includesStr (a ++ m ++ b) m = true.
Proof.
  apply includesStr_skip. destruct (m ++ b) eqn:E.
  - apply app_eq_nil in E as [-> _]. reflexivity.
  - rewrite <- E. destruct (m ++ b) eqn:E'; [discriminate|].
    cbn [includesStr]. rewrite <- E'. now rewrite startsWith_app.
Qed.

(** A text holds what [trim] keeps of it. *)
Lemma includesStr_trim (s : str) : includesStr s (trim s) = true.
Proof.
  unfold trim.
  set (y := dropWhile isWhiteSpace s).
  rewrite <- (takeWhile_dropWhile isWhiteSpace s). fold y.
  rewrite <- (rev_involutive y) at 1.
  rewrite <- (takeWhile_dropWhile isWhiteSpace (rev y)) at 1.
  rewrite rev_app_distr.
  apply includesStr_infix.
Qed.

(** X15. The search does not depend on the case of the letters of the
    search term, and an item is listed in its tab under its whole name and
    under its whole code, a product also under the whole serial number of
    any of its transactions. *)
Theorem search_finds_items (items : App.store) (searchTerm : str)
    (activeTab : ItemType) :
  App.filteredInventory items (toUpperCase searchTerm) activeTab
  = App.filteredInventory items searchTerm activeTab /\
  (forall item,
      In item items ->
      In item (App.filteredInventory items (Item.name item) (Item.type item)) /\
      In item (App.filteredInventory items (Item.code item) (Item.type item))) /\
  (forall item t s,
      In item items -> Item.type item = product ->
      In t (Item.transactions item) -> Transaction.serialNumber t = Some s ->
      In item (App.filteredInventory items s product)).
Proof.
  split; [|split].
  - unfold App.filteredInventory. now rewrite toLowerCase_toUpperCase.
  - intros item Hin. unfold App.filteredInventory.
    split; apply filter_In; (split; [assumption|]);
      rewrite !includesStr_trim; destruct (Item.type item);
      cbn [negb orb]; rewrite ?orb_true_r; reflexivity.
  - intros item t s Hin Hprod Ht Hs. unfold App.filteredInventory.
    apply filter_In. split; [assumption|]. rewrite Hprod. cbn [negb isProduct].
    destruct (includesStr _ _ || includesStr _ _); [reflexivity|].
    apply existsb_exists. exists t. split; [assumption|].
    rewrite Hs. apply includesStr_trim.
Qed.

Lemma search_finds_items_witness :
  In emptyProduct
     (App.filteredInventory [emptyProduct] (Item.code emptyProduct) product).
Proof.
  apply (proj1 (proj2 (search_finds_items [emptyProduct] L"" product))
           emptyProduct).
  left. reflexivity.
Defined.

(* ================================================================= *)
(** ** Editing a quantity, the history, and the mark of the serial field *)

Lemma map_other_transactions (u : Transaction.partial) (tid : str)
    (ts : list Transaction.t) :
  (forall t', In t' ts -> Transaction.id t' <> tid) ->
  map (fun t' => if JS.eqb (Transaction.id t') tid
                 then Transaction.merge t' u else t') ts = ts.
Proof.
  intros H. rewrite <- (map_id ts) at 2. apply map_ext_in. intros t' Ht'.
  apply H in Ht'. apply eqb_neq in Ht'. now rewrite Ht'.
Qed.

(** X16. Editing the quantity of a transaction and saving it sets the
    quantity to the integer read in the field, 0 when none can be read,
    whatever the stock: the stock of the item moves by the difference, up
    for a purchase and down for a release.  The transaction is the only one
    of its id in the item. *)
Theorem edited_quantity_moves_stock (itemId value : str) (t : Transaction.t)
    (pre post : list Transaction.t) (item : Item.t) (items : App.store)
    (k : nat) :
  nth_error items k = Some item -> Item.id item = itemId ->
  Item.transactions item = pre ++ t :: post ->
  (forall t', In t' (pre ++ post) -> Transaction.id t' <> Transaction.id t) ->
  exists item',
    nth_error
      (App.handleUpdateTransaction itemId (Transaction.id t)
         (ItemDetailEdit.handleTransEditChange ItemDetailEdit.f_quantity value
            (ItemDetailEdit.handleEditTransaction t))
         items) k = Some item' /\
    calculateStock item' =
    calculateStock item
    + (match Transaction.type t with purchase => 1 | release => -1 end)
      * (orZero (parseInt value) - Transaction.quantity t).
Proof.
  intros Hk Hid Hts Hother.
  unfold App.handleUpdateTransaction. rewrite nth_error_map, Hk.
  cbn [option_map]. rewrite <- Hid, eqb_refl. eexists. split; [reflexivity|].
  rewrite !calculateStock_signedSum. cbn [Item.withTransactions Item.transactions].
  rewrite Hts, map_app. cbn [map]. rewrite eqb_refl.
  rewrite !map_other_transactions
    by (intros t' Ht'; apply Hother, in_or_app; auto).
  rewrite !signedSum_app. cbn [signedSum]. unfold signedQuantity.
  destruct t; cbn. destruct type; lia.
Qed.

Lemma edited_quantity_moves_stock_witness :
  exists item',
    nth_error
      (App.handleUpdateTransaction L"item-1" L"t-1"
         (ItemDetailEdit.handleTransEditChange ItemDetailEdit.f_quantity L"2"
            (ItemDetailEdit.handleEditTransaction
               (plainTransaction L"t-1" purchase 5)))
         oneItemStore) 0 = Some item' /\
    calculateStock item' = 5 + 1 * (2 - 5).
Proof.
  apply (edited_quantity_moves_stock L"item-1" L"2"
           (plainTransaction L"t-1" purchase 5) [] []
           (plainItem L"item-1" part L"P1" [plainTransaction L"t-1" purchase 5])
           oneItemStore 0%nat);
    [reflexivity|reflexivity|reflexivity|intros t' []].
Defined.

Lemma signedSum_rev (ts : list Transaction.t) :
  signedSum (rev ts) = signedSum ts.
Proof.
  induction ts as [|t ts IH]; [reflexivity|].
  cbn [rev]. rewrite signedSum_app, IH. cbn [signedSum]. lia.
Qed.

(** X17. With a blank search term the history of an item is its
    transactions, newest first, and adding up the history gives the stock;
    with any term the history holds transactions of the item only. *)
Theorem history_spec (item : Item.t) (historySearchTerm : str) :
  (trim (toLowerCase historySearchTerm) = [] ->
   filteredHistory item historySearchTerm = rev (Item.transactions item) /\
   signedSum (filteredHistory item historySearchTerm) = calculateStock item) /\
  (forall t, In t (filteredHistory item historySearchTerm) ->
             In t (Item.transactions item)).
Proof.
  unfold filteredHistory. split.
  - intros ->. cbn [truthy negb].
    now rewrite signedSum_rev, calculateStock_signedSum.
  - intros t. destruct (negb (truthy _)).
    + apply in_rev.
    + intros H. apply filter_In in H as [H _]. now apply in_rev.
Qed.

Lemma history_spec_witness :
  filteredHistory
    (plainItem L"item-1" part L"P1"
       [plainTransaction L"t-1" purchase 5; plainTransaction L"t-2" release 2])
    L" "
  = [plainTransaction L"t-2" release 2; plainTransaction L"t-1" purchase 5].
Proof.
  apply (proj1 (history_spec
                  (plainItem L"item-1" part L"P1"
                     [plainTransaction L"t-1" purchase 5;
                      plainTransaction L"t-2" release 2]) L" ")).
  reflexivity.
Defined.

(** X18. When the serial field is marked as a duplicate and the serial has
    no white space around it, the submission is rejected and the store
    kept. *)
Theorem marked_serial_rejected (item : Item.t) (f : form)
    (now genId : nat -> str) (items : App.store) :
  isSerialDuplicate (serialNumber f) (App.allUsedSerials items) = true ->
  trim (toUpperCase (serialNumber f)) = toUpperCase (serialNumber f) ->
  exists alert, addTransaction item f now genId items = (Rejected alert, items).
Proof.
  unfold isSerialDuplicate. intros H Htrim.
  destruct (negb (truthy (trim (serialNumber f))) ||
            includesChar (serialNumber f) isTilde) eqn:G; [discriminate|].
  apply orb_false_iff in G as [G1 G2]. apply negb_false_iff in G1.
  apply includes_In in H.
  apply (used_serial_rejected item f now genId items
           [toUpperCase (serialNumber f)] false (toUpperCase (serialNumber f))).
  - unfold targetSerialsOf. rewrite G2, andb_false_r. now rewrite Htrim.
  - now left.
  - rewrite toUpperCase_truthy. destruct (serialNumber f); [discriminate|].
    reflexivity.
  - assumption.
Qed.

Lemma marked_serial_rejected_witness :
  exists alert,
    addTransaction emptyProduct (simpleForm purchase L"1" L"ct0007") clock ids
      [plainItem L"item-8" product L"M2"
         [withId (mkTransactionData purchase 1 (clock O) L"" None
                    (Some L"CT0007") None None None None) L"t-9"]]
    = (Rejected alert,
       [plainItem L"item-8" product L"M2"
          [withId (mkTransactionData purchase 1 (clock O) L"" None
                     (Some L"CT0007") None None None None) L"t-9"]]).
Proof.
  apply marked_serial_rejected; reflexivity.
Defined.

(* ================================================================= *)
(** ** The serial proposed after a submission *)

Lemma toUpperChar_idem (a : ascii) : toUpperChar (toUpperChar a) = toUpperChar a.
Proof. char_cases a. Qed.

Lemma toUpperCase_idem (s : str) : toUpperCase (toUpperCase s) = toUpperCase s.
Proof.
  unfold toUpperCase. rewrite map_map. apply map_ext. exact toUpperChar_idem.
Qed.

Lemma letter_not_space (a : ascii) : isLetter a = true -> isWhiteSpace a = false.
Proof. char_cases a. Qed.

(** A text that neither starts nor ends with white space is left as it is
    by [trim]. *)
Lemma trim_fixed (a b : ascii) (s : str) :
  isWhiteSpace a = false -> isWhiteSpace b = false ->
  trim (a :: s ++ [b]) = a :: s ++ [b].
Proof.
  intros Ha Hb. unfold trim. cbn [dropWhile]. rewrite Ha.
  change (a :: s ++ [b]) with ((a :: s) ++ [b]).
  rewrite rev_app_distr. cbn [rev app dropWhile]. rewrite Hb.
  change (b :: rev s ++ [a]) with (rev [b] ++ rev (a :: s)).
  rewrite <- rev_app_distr. apply rev_involutive.
Qed.

Lemma suggestNextSerial_trimmed (usedSerials : list str) :
  maximum (map snd (matchesOf usedSerials)) < 2 ^ 53 ->
  trim (suggestNextSerial usedSerials) = suggestNextSerial usedSerials.
Proof.
  intros Hb.
  destruct (suggestNextSerial_parts usedSerials Hb)
    as (letters & digits & -> & Tl & Hl & _ & Hd & Len & _).
  destruct letters as [|a letters]; [discriminate|].
  cbn [forallb] in Hl. apply andb_true_iff in Hl as [Ha _].
  destruct (rev digits) as [|b r] eqn:E.
  - apply (f_equal (@length ascii)) in E. rewrite length_rev in E.
    simpl in E. lia.
  - assert (digits = rev r ++ [b]) as ->
      by (rewrite <- (rev_involutive digits), E; reflexivity).
    rewrite forallb_app in Hd. apply andb_true_iff in Hd as [_ Hb'].
    cbn [forallb] in Hb'. apply andb_true_iff in Hb' as [Hb' _].
    cbn [app]. rewrite app_assoc.
    apply trim_fixed; [now apply letter_not_space|now apply digit_not_space].
Qed.

(** The next state of the form after an accepted submission. *)
Lemma handleAddTransaction_nextForm (item : Item.t) (used : list str)
    (now : nat -> str) (f : form) (a : accepted) :
  handleAddTransaction item used now f = Accepted a ->
  exists targetSerials isRange,
    targetSerialsOf item f = Ok (targetSerials, isRange) /\
    nextForm a = resetForm f used targetSerials.
Proof.
  unfold handleAddTransaction.
  destruct (targetSerialsOf item f) as [[targetSerials isRange]| |];
    [|discriminate|discriminate].
  destruct (0 <? length _)%nat; [discriminate|].
  destruct (countOf f targetSerials isRange <=? 0); [discriminate|].
  destruct (isRelease (transactionType f) && _); [discriminate|].
  intros H. exists targetSerials, isRange. split; [reflexivity|].
  destruct isRange; injection H as <-; reflexivity.
Qed.

(** X19. After an accepted submission, and as long as the numbers read
    from the used serials of the store and from the serials of the
    submission are below 2^53, the serial that the form proposes for the
    next one is the serial of no transaction of the new store, up to the
    case of letters. *)
Theorem next_serial_unused (item : Item.t) (f : form) (now genId : nat -> str)
    (items items' : App.store) (a : accepted)
    (targetSerials : list str) (isRange : bool) :
  targetSerialsOf item f = Ok (targetSerials, isRange) ->
  maximum (map snd (matchesOf (App.allUsedSerials items ++ targetSerials)))
  < 2 ^ 53 ->
  addTransaction item f now genId items = (Accepted a, items') ->
  ~ In (serialNumber (nextForm a)) (App.allUsedSerials items').
Proof.
  intros Ht0 Hb H. unfold addTransaction in H.
  destruct (handleAddTransaction item (App.allUsedSerials items) now f)
    as [alert|a'|] eqn:E; [discriminate| |discriminate].
  injection H as <- <-.
  destruct (handleAddTransaction_nextForm _ _ _ _ _ E) as (ts & r & Ht & Hnext).
  apply handleAddTransaction_accepted in E
    as (ts' & r' & Ht' & _ & _ & _ & Hcalls).
  rewrite Ht in Ht'. injection Ht' as <- <-.
  rewrite Ht in Ht0. injection Ht0 as <- <-.
  rewrite Hnext. cbn [resetForm serialNumber].
  set (used := App.allUsedSerials items) in *.
  assert (Fresh : ~ In (suggestNextSerial (used ++ ts))
                       (map toUpperCase (used ++ ts))).
  { intros Hin. apply in_map_iff in Hin as (u & Eu & Hu).
    exact (suggestNextSerial_new (used ++ ts) u Hb Hu Eu). }
  rewrite map_app in Fresh.
  intros Hin. apply allUsedSerials_In in Hin
    as (it' & t & s0 & Hit' & Htin & Hs0 & T & Es0).
  rewrite applyCalls_append in Hit'. apply in_map_iff in Hit' as (it & <- & Hit).
  assert (Old : In t (Item.transactions it) -> False).
  { intros Hold. apply Fresh, in_or_app. left.
    rewrite <- Es0, <- toUpperCase_idem. apply in_map.
    apply allUsedSerials_In. exists it, t, s0. auto. }
  destruct (JS.eqb (Item.id it) (Item.id item)); [|now apply Old].
  cbn [Item.withTransactions Item.transactions] in Htin.
  apply in_app_or in Htin as [Hold|Hnew]; [now apply Old|].
  apply Fresh, in_or_app. right. rewrite Hcalls in Hnew. destruct r.
  - rewrite <- Es0. apply in_map.
    assert (In (Some s0) (map Some ts)) as C
      by (rewrite <- (rangeCalls_serials f now genId O O ts), <- Hs0;
          now apply in_map).
    apply in_map_iff in C as (x & [= ->] & Hx). exact Hx.
  - destruct Hnew as [<-|[]].
    unfold targetSerialsOf in Ht.
    cbn [withId singleCall Transaction.serialNumber d_serialNumber] in Hs0.
    destruct (isProduct (Item.type item)) eqn:P.
    + injection Hs0 as <-.
      destruct (includesChar (serialNumber f) isTilde);
        [cbn [andb] in Ht; destruct (parseSerialRange _); discriminate|].
      cbn [andb] in Ht. injection Ht as <-.
      rewrite toUpperCase_idem in Es0.
      pose proof (suggestNextSerial_trimmed
                    (used ++ [trim (toUpperCase (serialNumber f))]) Hb) as Htr.
      left. revert Es0 Htr.
      generalize (suggestNextSerial
                    (used ++ [trim (toUpperCase (serialNumber f))])) as sug.
      intros sug Es0 Htr. rewrite Es0, Htr, <- Es0. apply toUpperCase_idem.
    + injection Hs0 as <-. discriminate T.
Qed.

Lemma next_serial_unused_witness :
  ~ In (serialNumber
          (nextForm
             (mkAccepted
                (rangeCalls (simpleForm purchase L"" L"ct0001~0003") clock O
                            [L"CT0001"; L"CT0002"; L"CT0003"])
                (Some (rangeAlert 3))
                (resetForm (simpleForm purchase L"" L"ct0001~0003") []
                           [L"CT0001"; L"CT0002"; L"CT0003"]))))
       (App.allUsedSerials
          (snd (addTransaction emptyProduct
                  (simpleForm purchase L"" L"ct0001~0003") clock ids
                  [emptyProduct]))).
Proof.
  apply (next_serial_unused emptyProduct
           (simpleForm purchase L"" L"ct0001~0003") clock ids [emptyProduct]
           _ _ [L"CT0001"; L"CT0002"; L"CT0003"] true);
    reflexivity.
Defined.

(* ================================================================= *)
(** ** The exported table reads back *)

Import AppExport.

Lemma readQuoted_doubleQuotes (v rest : str) :
  match rest with [] => True | c :: _ => isQuote c = false end ->
  readQuoted (doubleQuotes v ++ quote :: rest) = Some (v, rest).
Proof.
  intros Hrest. induction v as [|c v IH].
  - cbn [doubleQuotes flat_map app readQuoted].
    change (isQuote quote) with true. cbv iota.
    destruct rest as [|c2 r2]; [reflexivity|]. now rewrite Hrest.
  - unfold doubleQuotes in *. cbn [flat_map].
    destruct (isQuote c) eqn:Q.
    + cbn [app readQuoted]. rewrite Q. now rewrite IH.
    + cbn [app readQuoted]. rewrite Q. now rewrite IH.
Qed.

Lemma readField_csvField (v rest : str) :
  match rest with [] => True | c :: _ => isQuote c = false end ->
  readField (csvField v ++ rest) = Some (v, rest).
Proof.
  intros Hrest. unfold csvField. cbn [app readField].
  change (isQuote quote) with true. cbv iota.
  rewrite <- app_assoc. now apply readQuoted_doubleQuotes.
Qed.

Lemma readLine_csvLine (row : list str) (rest : str) (fuel : nat) :
  row <> [] -> (length row <= fuel)%nat ->
  readLine fuel (csvLine row ++ rest) = Some (row, rest).
Proof.
  revert fuel. induction row as [|v vs IH]; intros fuel Hne Hlen;
    [contradiction|].
  destruct fuel as [|n]; [simpl in Hlen; lia|].
  unfold csvLine in *. cbn [map readLine].
  destruct vs as [|w ws].
  - cbn [map ItemDetailModal.join]. rewrite <- app_assoc.
    rewrite readField_csvField by reflexivity. reflexivity.
  - change (ItemDetailModal.join L"," (csvField v :: map csvField (w :: ws)))
      with (csvField v ++ L"," ++ ItemDetailModal.join L"," (map csvField (w :: ws))).
    rewrite <- !app_assoc.
    rewrite readField_csvField by reflexivity.
    change (L"," ++ ?x) with (","%char :: x). cbv beta.
    change (code ","%char =? 44)%nat with true. cbv iota.
    rewrite app_assoc.
    rewrite (IH n); [reflexivity|discriminate|simpl in *; lia].
Qed.

Lemma csvLine_length (row : list str) : (length row <= length (csvLine row))%nat.
Proof.
  unfold csvLine. rewrite length_app.
  assert (length row <= length (ItemDetailModal.join L"," (map csvField row)))%nat;
    [|lia].
  induction row as [|v vs IH]; [simpl; lia|].
  cbn [map]. destruct vs as [|w ws].
  - cbn [map ItemDetailModal.join length]. unfold csvField. cbn [length]. lia.
  - change (ItemDetailModal.join L"," (csvField v :: map csvField (w :: ws)))
      with (csvField v ++ L"," ++ ItemDetailModal.join L"," (map csvField (w :: ws))).
    rewrite !length_app. unfold csvField at 1. cbn [length] in *. lia.
Qed.

Lemma readLines_concat (rows : list (list str)) :
  Forall (fun row => row <> []) rows ->
  readLines (length rows) (concat (map csvLine rows)) = Some rows.
Proof.
  induction 1 as [|row rows Hrow _ IH]; [reflexivity|].
  cbn [length map concat readLines].
  rewrite readLine_csvLine; [now rewrite IH|assumption|].
  rewrite length_app. pose proof (csvLine_length row). lia.
Qed.

Lemma fold_left_lines (activeTab : ItemType) (l : App.store) (start : str) :
  fold_left (fun csvContent item => csvContent ++ csvLine (rowOf activeTab item))
            l start
  = start ++ concat (map csvLine (map (rowOf activeTab) l)).
Proof.
  revert start. induction l as [|item l IH]; intros start; cbn.
  - now rewrite app_nil_r.
  - now rewrite IH, app_assoc.
Qed.

(** [parseInt] reads back the integer that [String] wrote. *)
Lemma parseInt_toString (n : Z) : parseInt (toString n) = Some n.
Proof.
  destruct (Z.ltb_spec n 0) as [Hneg|Hpos].
  - destruct (toString_spec (- n)) as (V & D & N); [lia|].
    assert (toString n = ascii_of_nat 45 :: toString (- n)) as ->.
    { unfold toString.
      replace (n <? 0) with true by (symmetry; apply Z.ltb_lt; lia).
      replace (- n <? 0) with false by (symmetry; apply Z.ltb_ge; lia).
      reflexivity. }
    unfold parseInt. cbn [dropWhile].
    change (isWhiteSpace (ascii_of_nat 45)) with false. cbv iota.
    change (code (ascii_of_nat 45) =? 45)%nat with true. cbv iota.
    assert (takeWhile isDigit (toString (- n)) = toString (- n)) as ->.
    { rewrite <- (takeWhile_dropWhile isDigit (toString (- n))) at 2.
      apply dropWhile_nil_iff in D. rewrite D. now rewrite app_nil_r. }
    destruct (toString (- n)) eqn:E; [contradiction|].
    rewrite V. f_equal. lia.
  - destruct (toString_spec n Hpos) as (V & D & N).
    rewrite parseInt_digits; [now rewrite V| |assumption].
    now destruct (toString n).
Qed.

(** X20. The exported content is the byte-order mark, the line of the
    headers, and one line per listed item; read as quoted fields separated
    by commas, a doubled quote standing for a quote, these lines give back
    the rows of the listed items whatever commas, quotes or line breaks
    the codes and names hold, and the last field of a row reads back as
    the stock of the item. *)
Theorem export_reads_back (items : App.store) (searchTerm : str)
    (activeTab : ItemType) :
  exists body,
    exportToExcel items searchTerm activeTab
    = bom ++ ItemDetailModal.join L"," (headers activeTab) ++ crlf ++ body /\
    readLines (length (App.filteredInventory items searchTerm activeTab)) body
    = Some (map (rowOf activeTab)
                (App.filteredInventory items searchTerm activeTab)) /\
    forall item,
      parseInt (last (rowOf activeTab item) []) = Some (calculateStock item).
Proof.
  exists (concat (map csvLine
                      (map (rowOf activeTab)
                           (App.filteredInventory items searchTerm activeTab)))).
  split; [|split].
  - unfold exportToExcel.
    rewrite fold_left_lines. now rewrite <- !app_assoc.
  - rewrite <- (length_map (rowOf activeTab)). apply readLines_concat.
    apply Forall_forall. intros row Hrow.
    apply in_map_iff in Hrow as (item & <- & _).
    destruct activeTab; discriminate.
  - intros item. destruct activeTab; cbn [rowOf last]; apply parseInt_toString.
Qed.

(* ================================================================= *)
(** ** The code proposed from a prefix *)

(** A literal prefix in front of a pattern: the input has to start with
    it. *)
Lemma run_literal (P : str) (tail : Regex.t) (k : cont) (u : str) (c : caps) :
  run (fold_right (fun x r => Cat (Class (Ascii.eqb x)) r) tail P) k u c =
  if startsWith u P then run tail k (skipn (length P) u) c else None.
Proof.
  revert u. induction P as [|x P IH]; intros u; [now destruct u|].
  cbn [fold_right]. rewrite run_Cat, run_Class.
  destruct u as [|a u]; [reflexivity|].
  cbn [startsWith length skipn]. rewrite Ascii.eqb_sym.
  destruct (Ascii.eqb a x); [apply IH|reflexivity].
Qed.

(** The number that an existing code contributes under the prefix [P],
    when a double holds it as it is. *)
Lemma codeStep_number (P : str) (regex : Regex.t) (maxNum : Z) (x : str) :
  AddItemModal.codePattern P = Some regex ->
  (forall n, codeNumber P x = Some n -> n <= 2 ^ 53) ->
  AddItemModal.codeStep regex (Number.Fin maxNum) x =
  Number.Fin match codeNumber P x with
             | Some n => Z.max maxNum n
             | None => maxNum
             end.
Proof.
  unfold AddItemModal.codePattern, AddItemModal.codeStep, codeNumber.
  destruct (forallb AddItemModal.isAlphanumeric P); [|discriminate].
  intros [= <-]. cbv zeta.
  destruct (truthy x); [|reflexivity]. cbn [negb andb].
  unfold exec. rewrite run_literal.
  destruct (startsWith (toUpperCase x) P); [|reflexivity]. cbn [andb].
  rewrite run_digits_to_end. unfold digitRun.
  destruct (truthy (skipn (length P) (toUpperCase x))) eqn:T; [|reflexivity].
  destruct (forallb isDigit (skipn (length P) (toUpperCase x))) eqn:D;
    [|reflexivity].
  cbn [andb]. intros Hb. specialize (Hb _ eq_refl).
  change (setCap 1 ?v noCaps 1%nat) with (Some v). cbv beta iota.
  rewrite (Number_parseInt_digits _ T D).
  pose proof (digitsValue_nonneg _ D) as Hpos.
  rewrite ofZ_exact by lia. unfold Number.gtb, Number.ltb.
  destruct (maxNum <? _) eqn:C.
  - rewrite Z.max_r; [reflexivity|]. apply Z.ltb_lt in C. lia.
  - rewrite Z.max_l; [reflexivity|]. apply Z.ltb_ge in C. lia.
Qed.

(** The loop over the existing codes ends on the largest of their numbers,
    while these are below 2^53. *)
Lemma fold_codeStep_ge (P : str) (regex : Regex.t) (codes : list str) (m : Z) :
  AddItemModal.codePattern P = Some regex ->
  m < 2 ^ 53 ->
  (forall c n, In c codes -> codeNumber P c = Some n -> n < 2 ^ 53) ->
  exists m',
    fold_left (AddItemModal.codeStep regex) codes (Number.Fin m)
    = Number.Fin m' /\
    m <= m' < 2 ^ 53 /\
    forall c n, In c codes -> codeNumber P c = Some n -> n <= m'.
Proof.
  intros Hp. revert m.
  induction codes as [|y l IH]; intros m Hm Hb; cbn [fold_left].
  - exists m. split; [reflexivity|]. split; [lia|intros c n []].
  - rewrite (codeStep_number P regex m y Hp).
    2:{ intros n E. specialize (Hb y n (or_introl eq_refl) E). lia. }
    destruct (codeNumber P y) as [ny|] eqn:Ey.
    + assert (ny < 2 ^ 53) by (apply (Hb y); [now left|exact Ey]).
      destruct (IH (Z.max m ny)) as (m' & E & Hm' & Hall); [lia| |].
      { intros c n Hc. apply Hb. now right. }
      exists m'. split; [exact E|]. split; [lia|].
      intros c n [<-|Hc] Ec; [|now apply (Hall c)].
      rewrite Ey in Ec. injection Ec as <-. lia.
    + destruct (IH m Hm) as (m' & E & Hm' & Hall).
      { intros c n Hc. apply Hb. now right. }
      exists m'. split; [exact E|]. split; [lia|].
      intros c n [<-|Hc] Ec; [congruence|now apply (Hall c)].
Qed.

Lemma skipn_app_length {A : Type} (u v : list A) : skipn (length u) (u ++ v) = v.
Proof. induction u as [|a u IH]; [reflexivity|exact IH]. Qed.

Lemma alphanumeric_not_space (a : ascii) :
  AddItemModal.isAlphanumeric a = true -> isWhiteSpace a = false.
Proof. char_cases a. Qed.

(** The proposed code: the prefix, then a number that no existing code has
    under this prefix. *)
Lemma suggestCode_parts (prefix : str) (existingCodes : list str) (c : str) :
  AddItemModal.suggestCode prefix existingCodes = Some c ->
  truthy (trim (toUpperCase prefix)) = true ->
  (forall x n, In x existingCodes ->
               codeNumber (toUpperCase prefix) x = Some n -> n < 2 ^ 53) ->
  trim c = c /\ truthy c = true /\ toUpperCase c = c /\
  ~ In c (map toUpperCase existingCodes).
Proof.
  unfold AddItemModal.suggestCode. cbv zeta. intros H T Hb. rewrite T in H.
  cbn [negb] in H.
  destruct (AddItemModal.codePattern (toUpperCase prefix)) as [regex|] eqn:Hp;
    [|discriminate].
  set (P := toUpperCase prefix) in *.
  destruct (fold_codeStep_ge P regex existingCodes 0 Hp ltac:(reflexivity) Hb)
    as (m & Em & Hm & Hmax).
  rewrite Em in H. rewrite add_one_exact, toString_exact in H by lia.
  injection H as <-.
  destruct (toString_spec (m + 1)) as (V & D & N); [lia|].
  assert (Alpha : forallb AddItemModal.isAlphanumeric P = true).
  { unfold AddItemModal.codePattern in Hp.
    destruct (forallb AddItemModal.isAlphanumeric P); [reflexivity|discriminate]. }
  assert (Pne : truthy P = true) by (destruct P; [discriminate T|reflexivity]).
  split; [|split; [|split]].
  - destruct P as [|a P']; [discriminate|].
    cbn [forallb] in Alpha. apply andb_true_iff in Alpha as [Ha _].
    destruct (rev (toString (m + 1))) as [|b r] eqn:E.
    + apply (f_equal (@rev ascii)) in E. rewrite rev_involutive in E.
      contradiction.
    + assert (toString (m + 1) = rev r ++ [b]) as Ets
        by (rewrite <- (rev_involutive (toString (m + 1))), E; reflexivity).
      rewrite Ets in D |- *.
      rewrite forallb_app in D. apply andb_true_iff in D as [_ Db].
      cbn [forallb] in Db. apply andb_true_iff in Db as [Db _].
      cbn [app]. rewrite app_assoc.
      apply trim_fixed;
        [now apply alphanumeric_not_space|now apply digit_not_space].
  - destruct P; [discriminate|reflexivity].
  - unfold toUpperCase at 1. rewrite map_app. fold (toUpperCase P).
    unfold P at 1. rewrite toUpperCase_idem. fold P. f_equal.
    revert D. generalize (toString (m + 1)) as ds.
    induction ds as [|d ds IH]; [reflexivity|]. cbn [forallb map].
    intros D. apply andb_true_iff in D as [Dd D]. rewrite (IH D). f_equal.
    revert Dd. char_cases d.
  - intros Hin. apply in_map_iff in Hin as (x & Ex & Hx).
    assert (codeNumber P x = Some (m + 1)) as C.
    { unfold codeNumber. cbv zeta. rewrite Ex, startsWith_app, skipn_app_length.
      unfold digitRun. rewrite D.
      assert (truthy x = true) as ->.
      { destruct x; [|reflexivity]. cbn in Ex.
        destruct P; [discriminate|discriminate]. }
      assert (truthy (toString (m + 1)) = true) as ->
        by (destruct (toString (m + 1)); [contradiction|reflexivity]).
      cbn [andb]. now rewrite V. }
    specialize (Hmax x (m + 1) Hx C). lia.
Qed.

(** From 2^53 on the proposal is rounded: after the code of number
    9007199254740992 that same code is proposed again. *)
Lemma suggestCode_repeats :
  AddItemModal.suggestCode L"P" [L"P9007199254740992"]
  = Some L"P9007199254740992".
Proof. vm_compute. reflexivity. Qed.

(** A form with a name and a trimmed code that no item bears goes
    through. *)
Lemma addItem_fresh_code (itemType : ItemType) (f : AddItemModal.formData)
    (itemId tId now : str) (items : App.store) :
  truthy (AddItemModal.code f) = true -> truthy (AddItemModal.name f) = true ->
  trim (AddItemModal.code f) = AddItemModal.code f ->
  ~ In (toUpperCase (AddItemModal.code f)) (upperCodes items) ->
  exists newItem,
    addItem itemType f itemId tId now items = (Accepted tt, newItem :: items) /\
    Item.code newItem = AddItemModal.code f.
Proof.
  intros Hc Hn Ht Hfresh.
  unfold addItem, AddItemModal.handleSubmit, AddItemModal.isCodeDuplicate.
  rewrite Hc, Hn, Ht, Hc. cbn [negb orb].
  destruct (existsb _ (App.existingCodes items)) eqn:E.
  - exfalso. apply Hfresh. apply existsb_exists in E as (x & Hx & Ex).
    apply eqb_eq in Ex. rewrite <- Ex. unfold upperCodes. now apply in_map.
  - eexists. split; reflexivity.
Qed.

(** X21. A blank prefix clears the code.  For a prefix of letters and
    digits, and as long as the numbers of the existing codes under this
    prefix are below 2^53, the code proposed from the prefix is accepted by
    the creation form as soon as a name is given: it has no white space
    around it and is the code of no item of the store, up to the case of
    letters. *)
Theorem suggested_code_accepted (prefix : str) (itemType : ItemType)
    (f : AddItemModal.formData) (itemId tId now : str) (items : App.store) :
  (truthy (trim (toUpperCase prefix)) = false ->
   AddItemModal.suggestCode prefix (App.existingCodes items) = Some L"") /\
  (truthy (trim (toUpperCase prefix)) = true ->
   (forall c n, In c (App.existingCodes items) ->
                codeNumber (toUpperCase prefix) c = Some n -> n < 2 ^ 53) ->
   AddItemModal.suggestCode prefix (App.existingCodes items)
   = Some (AddItemModal.code f) ->
   truthy (AddItemModal.name f) = true ->
   exists newItem,
     addItem itemType f itemId tId now items = (Accepted tt, newItem :: items) /\
     Item.code newItem = AddItemModal.code f /\
     ~ In (toUpperCase (AddItemModal.code f)) (upperCodes items)).
Proof.
  split.
  - intros T. unfold AddItemModal.suggestCode. cbv zeta. now rewrite T.
  - intros T Hb Hs Hn.
    destruct (suggestCode_parts prefix (App.existingCodes items)
                (AddItemModal.code f) Hs T Hb) as (Htrim & Hc & Upper & Hfresh).
    rewrite <- Upper in Hfresh.
    destruct (addItem_fresh_code itemType f itemId tId now items Hc Hn Htrim
                                 Hfresh) as (newItem & Ha & Hcode).
    exists newItem. repeat split; assumption.
Qed.

Lemma suggested_code_accepted_witness :
  exists newItem,
    addItem part (simpleItemForm L"P2" L"BOLT") L"item-2" L"t-2" (clock O)
            oneItemStore
    = (Accepted tt, newItem :: oneItemStore) /\
    Item.code newItem = L"P2" /\
    ~ In (toUpperCase L"P2") (upperCodes oneItemStore).
Proof.
  apply (proj2 (suggested_code_accepted L"p" part (simpleItemForm L"P2" L"BOLT")
                  L"item-2" L"t-2" (clock O) oneItemStore));
    try reflexivity.
  intros c n [<-|[]] [= <-]. reflexivity.
Defined.
